(** * The batch pipeline of [train.py]: augmentation, mixing, index streams
    and batch assembly, embedded as executable Rocq definitions.

    Conventions of the embedding.
    - A Python call that may raise, loop forever or draw random numbers is a
      computation in the monad [M]: it reads the process-wide random state,
      and ends in [Ok], in [Raise] (an exception) or in [Hang] (the loop
      budget given to a [while True] ran out: the call has not returned).
    - The process-wide random state ([np.random] and [random]) is one
      stream of raw draws; every library sampler is a function of the next
      raw draw, and takes exactly one.
    - Python lists and numpy arrays are Rocq lists; an image is a list of
      rows, a row a list of pixels, a pixel a list of channel values.
    - A float is the rational it denotes.  Magnitudes and pixel values are
      computed exactly; the label arithmetic, which the program casts to
      float32, is rounded to float32 after every operation.
    - The pixel work of OpenCV and PIL is a parameter [prim] of the
      pipeline, constrained only by the shape of what each call returns;
      the transforms of albumentations are written out with the defaults of
      the library. *)

From Stdlib Require Import QArith Qabs Qround Qpower Lia String.
From Stdlib Require Import Lqa.
From stdpp Require Import base list.

Open Scope nat_scope.

(** ** Outcomes, the random state and the monad *)

Inductive exn := DecodeError | IndexError | ValueError.

Inductive outcome (A : Type) :=
| Ok (a : A)
| Raise (e : exn)
| Hang.
Arguments Ok {A} a.
Arguments Raise {A} e.
Arguments Hang {A}.

(** The random state: the draws still to come. *)
Definition rng := nat -> N.

Definition M (A : Type) := rng -> outcome (A * rng).

Definition ret {A} (a : A) : M A := fun g => Ok (a, g).

Definition bind {A B} (c : M A) (k : A -> M B) : M B :=
  fun g => match c g with
           | Ok (a, g') => k a g'
           | Raise e => Raise e
           | Hang => Hang
           end.

Definition raise {A} (e : exn) : M A := fun _ => Raise e.
Definition hang {A} : M A := fun _ => Hang.

Notation "'let*' x := c 'in' k" := (bind c (fun x => k))
  (at level 10, x pattern, c at level 100, k at level 200).

Definition next_raw : M N := fun g => Ok (g 0, fun n => g (S n)).

(** [random_interval max]: an integer of [0, max], both ends included. *)
Definition random_interval (max : nat) : M nat :=
  let* r := next_raw in ret (N.to_nat (r mod N.of_nat (S max))).

(** [np.random.choice(n)] and [np.random.randint(n)]: an integer of [0, n);
    [ValueError] for [n = 0]. *)
Definition np_random_choice (n : nat) : M nat :=
  match n with
  | 0 => raise ValueError
  | S m => random_interval m
  end.

Definition np_random_randint (n : nat) : M nat := np_random_choice n.

(** [random.randint(a, b)]: an integer of [a, b], both ends included. *)
Definition random_randint (a b : nat) : M nat :=
  if b <? a then raise ValueError
  else let* k := random_interval (b - a) in ret (a + k).

(** [random.random()]: a float of [0, 1), a multiple of 2^-53. *)
Definition random_random : M Q :=
  let* r := next_raw in ret (Z.of_N (r mod 2 ^ 53) # 2 ^ 53).

(** [np.random.choice([-1, 1])]. *)
Definition np_random_sign : M Q :=
  let* k := np_random_choice 2 in ret (if k =? 0 then - (1) else 1)%Q.

(** Python indexing of a list with a non-negative index. *)
Definition getitem {A} (l : list A) (i : nat) : M A :=
  match l !! i with
  | Some a => ret a
  | None => raise IndexError
  end.

(** ** [np.random.shuffle]: Fisher-Yates, from the last position down *)

Definition swap {A} (x : list A) (i j : nat) : list A :=
  match x !! i, x !! j with
  | Some a, Some b => <[i := b]> (<[j := a]> x)
  | _, _ => x
  end.

(** [for i in reversed(range(1, n)): j = random_interval(i); swap x[i], x[j]] *)
Fixpoint shuffle_from {A} (i : nat) (x : list A) : M (list A) :=
  match i with
  | 0 => ret x
  | S i' => let* j := random_interval i in shuffle_from i' (swap x i j)
  end.

Definition np_random_shuffle {A} (x : list A) : M (list A) :=
  shuffle_from (length x - 1) x.

(** ** [_generate_shuffled_indices]

    The generator's frame: the array [all_indices] and the position of the
    running [yield from].  A generator that has not started yet is the frame
    whose [yield from] is exhausted: its next step is the shuffle. *)

Record idx_stream := { all_indices : list nat; cursor : nat }.

Definition _generate_shuffled_indices (data_count : nat) : idx_stream :=
  {| all_indices := seq 0 data_count; cursor := data_count |}.

(** One [next()] of the generator.  [fuel] bounds the turns of
    [while True] taken inside this one call. *)
Fixpoint indices_next (fuel : nat) (st : idx_stream) : M (nat * idx_stream) :=
  match fuel with
  | 0 => hang
  | S fuel' =>
      match all_indices st !! cursor st with
      | Some index =>
          ret (index, {| all_indices := all_indices st; cursor := S (cursor st) |})
      | None =>
          let* shuffled := np_random_shuffle (all_indices st) in
          indices_next fuel' {| all_indices := shuffled; cursor := 0 |}
      end
  end.

(** [n] successive [next()] calls. *)
Fixpoint indices_take (fuel n : nat) (st : idx_stream) : M (list nat * idx_stream) :=
  match n with
  | 0 => ret ([], st)
  | S n' =>
      let* (index, st1) := indices_next fuel st in
      let* (rest, st2) := indices_take fuel n' st1 in
      ret (index :: rest, st2)
  end.

(** ** Floats

    A float is the rational it denotes.  [round_float prec emin] rounds a
    rational to the nearest float of precision [prec] whose least exponent is
    [emin], ties to even (overflow does not arise on the values of this
    program and is not modelled). *)

Definition Qltb (a b : Q) : bool := negb (Qle_bool b a).

(** Round to the nearest integer, ties to even ([np.round]). *)
Definition Zrne (x : Q) : Z :=
  let f := Qfloor x in
  let d := (x - inject_Z f)%Q in
  if Qltb d (1 # 2) then f
  else if Qltb (1 # 2) d then (f + 1)%Z
  else if Z.even f then f else (f + 1)%Z.

(** The exponent [e] with [2^e <= |x| < 2^(e+1)], for [x] not zero. *)
Definition Qlog2 (x : Q) : Z :=
  let e := (Z.log2 (Z.abs (Qnum x)) - Z.log2 (Zpos (Qden x)))%Z in
  if Qle_bool (2 ^ e) (Qabs x) then e else (e - 1)%Z.

Definition round_float (prec emin : Z) (x : Q) : Q :=
  if Qeq_bool x 0 then 0%Q
  else
    let e := Z.max (Qlog2 x - prec + 1) emin in
    (inject_Z (Zrne (x / 2 ^ e)) * 2 ^ e)%Q.

(** [np.float32] *)
Definition fl32 : Q -> Q := round_float 24 (-149).

(** [np.random.uniform(low, high)]: [low + (high - low) * random_sample()]. *)
Definition np_random_uniform (low high : Q) : M Q :=
  let* u := random_random in ret (low + (high - low) * u)%Q.

(** ** Arrays and images *)

Definition pixel := list Q.
Definition image := list (list pixel).

(** height, width, channels *)
Definition shape := (nat * nat * nat)%type.

Definition shape_of (img : image) : shape :=
  (length img, length (hd [] img), length (hd [] (hd [] img))).

Definition has_shape (s : shape) (img : image) : Prop :=
  let '(h, w, c) := s in
  length img = h /\
  Forall (fun row => length row = w /\ Forall (fun px : pixel => length px = c) row) img.

(** An elementwise binary operation of numpy on two arrays of one shape;
    operands of different lengths do not combine ([ValueError]; numpy's
    stretching of an axis of length one is not modelled). *)
Fixpoint zip_strict {A B C} (f : A -> B -> M C) (l1 : list A) (l2 : list B) : M (list C) :=
  match l1, l2 with
  | [], [] => ret []
  | a :: l1', b :: l2' =>
      let* c := f a b in
      let* r := zip_strict f l1' l2' in
      ret (c :: r)
  | _, _ => raise ValueError
  end.

(** [img[y1:y2, x1:x2] = 0] *)
Definition set_region_zero (y1 y2 x1 x2 : nat) (img : image) : image :=
  imap (fun y row =>
    imap (fun x (px : pixel) =>
      if (y1 <=? y) && (y <? y2) && (x1 <=? x) && (x <? x2)
      then map (fun _ => 0%Q) px
      else px) row) img.

(** [img[y1:y2, x1:x2]] *)
Definition crop (y1 y2 x1 x2 : nat) (img : image) : image :=
  map (fun row => take (x2 - x1) (drop x1 row)) (take (y2 - y1) (drop y1 img)).

(** ** Image files *)

Inductive pil_mode :=
| Mode1 | ModeL | ModeLA | ModeP | ModeRGB | ModeRGBA | ModeCMYK | ModeYCbCr | ModeI | ModeF.

Definition is_RGB (m : pil_mode) : bool :=
  match m with ModeRGB => true | _ => false end.

Definition bands (m : pil_mode) : nat :=
  match m with
  | Mode1 | ModeL | ModeP | ModeI | ModeF => 1
  | ModeLA => 2
  | ModeRGB | ModeYCbCr => 3
  | ModeRGBA | ModeCMYK => 4
  end.

(** What [PIL.Image.open] makes of a file that decodes. *)
Record pil_image := { mode : pil_mode; raster : image }.

(** A decoded raster is a non-empty rectangle with one value per band. *)
Definition decoded_ok (img : pil_image) : Prop :=
  exists h w, 0 < h /\ 0 < w /\ has_shape (h, w, bands (mode img)) (raster img).

Inductive file :=
| Unreadable                      (* missing, truncated or not an image *)
| Decodable (img : pil_image).

Definition path := String.string.

(** ** The image libraries

    The pixel work of OpenCV and PIL is outside the program.  Each library
    call the program makes is named by a [prim_op]; [prim_shape] is the
    shape the library documents for its result. *)

Inductive prim_op :=
| cv2_resize (height width : nat)
| cv2_copyMakeBorder (pad_top pad_bottom pad_left pad_right : nat)
| cv2_warpAffine_rotate (angle : Q)
| PIL_convert_RGB (src : pil_mode)
| PIL_transform_AFFINE (data : Q * Q * Q * Q * Q * Q) (fillcolor : Q * Q * Q)
| PIL_ImageEnhance_Color (factor : Q)
| PIL_ImageEnhance_Contrast (factor : Q)
| PIL_ImageEnhance_Sharpness (factor : Q)
| PIL_ImageEnhance_Brightness (factor : Q)
| PIL_ImageOps_posterize (bits : Z)
| PIL_ImageOps_autocontrast
| PIL_ImageOps_equalize.

Definition prim_shape (op : prim_op) (s : shape) : shape :=
  let '(h, w, c) := s in
  match op with
  | cv2_resize height width => (height, width, c)
  | cv2_copyMakeBorder pad_top pad_bottom pad_left pad_right =>
      (pad_top + h + pad_bottom, pad_left + w + pad_right, c)
  | PIL_convert_RGB _ => (h, w, 3)
  | _ => (h, w, c)
  end.

(** [PIL.Image.transform(size, AFFINE, data)]: the output pixel [(x, y)] is
    read from the input position [(a x + b y + c, d x + e y + f)]. *)
Definition PIL_affine_source (data : Q * Q * Q * Q * Q * Q) (x y : Q) : Q * Q :=
  let '(a, b, c, d, e, f) := data in
  (a * x + b * y + c, d * x + e * y + f)%Q.

(** [PIL.ImageOps.solarize(image, threshold)]: the lookup table
    [i if i < threshold else 255 - i], applied to every channel value. *)
Definition solarize_value (threshold : Q) (v : Q) : Q :=
  if Qltb v threshold then v else (255 - v)%Q.

Definition PIL_ImageOps_solarize (img : image) (threshold : Q) : image :=
  map (map (map (solarize_value threshold))) img.

Section Pipeline.

(** The image libraries and the file system the program runs against. *)
Variable prim : prim_op -> image -> image.
Variable fs : path -> file.

Definition transform := image -> M image.

(** ** albumentations: probability gates and composition *)

(** [BasicTransform.__call__]: [apply] runs when [random.random() < p]. *)
Definition with_p (p : Q) (apply : transform) : transform :=
  fun img =>
    let* u := random_random in
    if Qltb u p then apply img else ret img.

Fixpoint run_transforms (transforms : list transform) : transform :=
  fun img =>
    match transforms with
    | [] => ret img
    | t :: rest => let* img' := t img in run_transforms rest img'
    end.

Definition need_to_run (p : Q) (force_apply : bool) : M bool :=
  if force_apply then ret true
  else let* u := random_random in ret (Qltb u p).

(** [A.Compose(transforms, p)] *)
Definition A_Compose (transforms : list transform) (p : Q) (force_apply : bool) : transform :=
  fun img =>
    let* run := need_to_run p force_apply in
    if run then run_transforms transforms img else ret img.

(** [A.OneOf(transforms, p)]: the members all have [p = 1], so one of them
    is drawn uniformly and forced. *)
Definition A_OneOf (transforms : list (bool -> transform)) (p : Q) (force_apply : bool) : transform :=
  fun img =>
    let* run := need_to_run p force_apply in
    if run then
      let* k := np_random_choice (length transforms) in
      match transforms !! k with
      | Some t => t true img
      | None => ret img
      end
    else ret img.

(** ** The transform classes of [train.py] *)

(** The coefficients [Affine.apply] hands to PIL, given its four sign draws. *)
Definition Affine_data (shear_x_mag shear_y_mag translate_x_mag translate_y_mag : Q)
    (s1 s2 s3 s4 : Q) : Q * Q * Q * Q * Q * Q :=
  let shear_x := (shear_x_mag / 9 * (3 # 10) * s1)%Q in
  let shear_y := (shear_y_mag / 9 * (3 # 10) * s2)%Q in
  let translate_x := (translate_x_mag / 9 * (150 / 331) * s3)%Q in
  let translate_y := (translate_y_mag / 9 * (150 / 331) * s4)%Q in
  (1%Q, shear_x, translate_x, shear_y, 1%Q, translate_y).

Definition Affine_apply (shear_x_mag shear_y_mag translate_x_mag translate_y_mag : Q) : transform :=
  fun img =>
    let* s1 := np_random_sign in
    let* s2 := np_random_sign in
    let* s3 := np_random_sign in
    let* s4 := np_random_sign in
    let data := Affine_data shear_x_mag shear_y_mag translate_x_mag translate_y_mag s1 s2 s3 s4 in
    ret (prim (PIL_transform_AFFINE data (128, 128, 128)%Q) img).

Definition enhance_factor (mag : Q) : M Q :=
  let* s := np_random_sign in ret (1 + mag / 9 * s)%Q.

Definition Color_apply (mag : Q) : transform :=
  fun img => let* factor := enhance_factor mag in ret (prim (PIL_ImageEnhance_Color factor) img).

Definition Posterize_bit (mag : Q) : Z := Zrne (8 - mag * 4 / 9).

Definition Posterize_apply (mag : Q) : transform :=
  fun img => ret (prim (PIL_ImageOps_posterize (Posterize_bit mag)) img).

Definition Solarize_threshold (mag : Q) : Q := (256 - mag * 256 / 9)%Q.

Definition Solarize_apply (mag : Q) : transform :=
  fun img => ret (PIL_ImageOps_solarize img (Solarize_threshold mag)).

Definition Contrast_apply (mag : Q) : transform :=
  fun img => let* factor := enhance_factor mag in ret (prim (PIL_ImageEnhance_Contrast factor) img).

Definition Sharpness_apply (mag : Q) : transform :=
  fun img => let* factor := enhance_factor mag in ret (prim (PIL_ImageEnhance_Sharpness factor) img).

Definition Brightness_apply (mag : Q) : transform :=
  fun img => let* factor := enhance_factor mag in ret (prim (PIL_ImageEnhance_Brightness factor) img).

Definition AutoContrast_apply : transform :=
  fun img => ret (prim PIL_ImageOps_autocontrast img).

Definition Equalize_apply : transform :=
  fun img => ret (prim PIL_ImageOps_equalize img).

(** [A.Rotate(limit)]: the angle is [random.uniform(-limit, limit)]. *)
Definition A_Rotate_apply (limit : Q) : transform :=
  fun img =>
    let* u := random_random in
    ret (prim (cv2_warpAffine_rotate (- limit + (limit - - limit) * u)%Q) img).

(** [A.InvertImg]: [255 - img]. *)
Definition A_InvertImg_apply : transform :=
  fun img => ret (map (map (map (fun v => 255 - v)%Q)) img).

(** ** [_create_autoaugment] *)

Inductive op_name :=
| ShearX | ShearY | TranslateX | TranslateY | Rotate | Color | Posterize
| Solarize | Contrast | Sharpness | Brightness | AutoContrast | Equalize | Invert.

Definition sp (name : op_name) (p mag : Q) : transform :=
  match name with
  | ShearX => with_p p (Affine_apply mag 0 0 0)
  | ShearY => with_p p (Affine_apply 0 mag 0 0)
  | TranslateX => with_p p (Affine_apply 0 0 mag 0)
  | TranslateY => with_p p (Affine_apply 0 0 0 mag)
  | Rotate => with_p p (A_Rotate_apply (mag / 9 * 30))
  | Color => with_p p (Color_apply mag)
  | Posterize => with_p p (Posterize_apply mag)
  | Solarize => with_p p (Solarize_apply mag)
  | Contrast => with_p p (Contrast_apply mag)
  | Sharpness => with_p p (Sharpness_apply mag)
  | Brightness => with_p p (Brightness_apply mag)
  | AutoContrast => with_p p AutoContrast_apply
  | Equalize => with_p p Equalize_apply
  | Invert => with_p p A_InvertImg_apply
  end.

Definition op_spec := (op_name * Q * Q)%type.

Definition policy_table : list (op_spec * op_spec) :=
  [ ((Invert, 0.1, 7), (Contrast, 0.2, 6));
    ((Rotate, 0.7, 2), (TranslateX, 0.3, 9));
    ((Sharpness, 0.8, 1), (Sharpness, 0.9, 3));
    ((ShearY, 0.5, 8), (TranslateY, 0.7, 9));
    ((AutoContrast, 0.5, 8), (Equalize, 0.9, 2));
    ((ShearY, 0.2, 7), (Posterize, 0.3, 7));
    ((Color, 0.4, 3), (Brightness, 0.6, 7));
    ((Sharpness, 0.3, 9), (Brightness, 0.7, 9));
    ((Equalize, 0.6, 5), (Equalize, 0.5, 1));
    ((Contrast, 0.6, 7), (Sharpness, 0.6, 5));
    ((Color, 0.7, 7), (TranslateX, 0.5, 8));
    ((Equalize, 0.3, 7), (AutoContrast, 0.4, 8));
    ((TranslateY, 0.4, 3), (Sharpness, 0.2, 6));
    ((Brightness, 0.9, 6), (Color, 0.2, 8));
    ((Solarize, 0.5, 2), (Invert, 0.0, 3));
    ((Equalize, 0.2, 0), (AutoContrast, 0.6, 0));
    ((Equalize, 0.2, 8), (Equalize, 0.8, 4));
    ((Color, 0.9, 9), (Equalize, 0.6, 6));
    ((AutoContrast, 0.8, 4), (Solarize, 0.2, 8));
    ((Brightness, 0.1, 3), (Color, 0.7, 0));
    ((Solarize, 0.4, 5), (AutoContrast, 0.9, 3));
    ((TranslateY, 0.9, 9), (TranslateY, 0.7, 9));
    ((AutoContrast, 0.9, 2), (Solarize, 0.8, 3));
    ((Equalize, 0.8, 8), (Invert, 0.1, 3));
    ((TranslateY, 0.7, 9), (AutoContrast, 0.9, 1)) ]%Q.

Definition sub_policy (row : op_spec * op_spec) : bool -> transform :=
  let '((n1, p1, m1), (n2, p2, m2)) := row in
  A_Compose [sp n1 p1 m1; sp n2 p2 m2] 1.

Definition _create_autoaugment : bool -> transform :=
  A_OneOf (map sub_policy policy_table) 1.

(** ** albumentations: the library transforms [_generate] uses *)

Definition A_Resize_apply (height width : nat) : transform :=
  fun img => ret (prim (cv2_resize height width) img).

(** [A.PadIfNeeded(min_height, min_width)]: reflecting borders, split evenly. *)
Definition A_PadIfNeeded_apply (min_height min_width : nat) : transform :=
  fun img =>
    let '(rows, cols, _) := shape_of img in
    let h_pad_top := (min_height - rows) / 2 in
    let h_pad_bottom := min_height - rows - h_pad_top in
    let w_pad_left := (min_width - cols) / 2 in
    let w_pad_right := min_width - cols - w_pad_left in
    ret (prim (cv2_copyMakeBorder h_pad_top h_pad_bottom w_pad_left w_pad_right) img).

(** [A.RandomSizedCrop((min, max), height, width)] with [w2h_ratio = 1]. *)
Definition A_RandomSizedCrop_apply (min_max_height : nat * nat) (height width : nat) : transform :=
  fun img =>
    let* h_start := random_random in
    let* w_start := random_random in
    let* crop_height := random_randint (fst min_max_height) (snd min_max_height) in
    let crop_width := crop_height in
    let '(rows, cols, _) := shape_of img in
    if (rows <? crop_height) || (cols <? crop_width) then raise ValueError
    else
      let y1 := Z.to_nat (Qfloor (inject_Z (Z.of_nat (rows - crop_height)) * h_start)) in
      let x1 := Z.to_nat (Qfloor (inject_Z (Z.of_nat (cols - crop_width)) * w_start)) in
      ret (prim (cv2_resize height width)
                (crop y1 (y1 + crop_height) x1 (x1 + crop_width) img)).

(** [A.HorizontalFlip]: [img[:, ::-1]]. *)
Definition A_HorizontalFlip_apply : transform :=
  fun img => ret (map (@rev pixel) img).

(** [A.Normalize(mean, std)] with [max_pixel_value = 255]. *)
Definition F_normalize (mean std : Q) (img : image) : image :=
  map (map (map (fun v => (v - mean * 255) / (std * 255))%Q)) img.

Definition A_Normalize_apply (mean std : Q) : transform :=
  fun img => ret (F_normalize mean std img).

(** [A.Cutout]'s [F.cutout]: each hole is the [max_h_size] by [max_w_size]
    box centred on a random pixel, clipped to the image. *)
Fixpoint F_cutout (num_holes max_h_size max_w_size : nat) (img : image) : M image :=
  match num_holes with
  | 0 => ret img
  | S n =>
      let '(height, width, _) := shape_of img in
      let* y := np_random_randint height in
      let* x := np_random_randint width in
      let y1 := Nat.min (y - max_h_size / 2) height in
      let y2 := Nat.min (y + max_h_size / 2) height in
      let x1 := Nat.min (x - max_w_size / 2) width in
      let x2 := Nat.min (x + max_w_size / 2) width in
      F_cutout n max_h_size max_w_size (set_region_zero y1 y2 x1 x2 img)
  end.

(** The two pipelines [_generate] builds; every transform carries the
    probability the call gives it, or the library's default: 1 for
    [Compose], [PadIfNeeded] and [Normalize], 1/2 for [HorizontalFlip] and
    [Cutout]. *)
Definition aug1 (data_augmentation : bool) : transform :=
  if data_augmentation then
    A_Compose [ with_p 1 (A_Resize_apply 331 331);
                with_p 1 (A_PadIfNeeded_apply 412 412);
                _create_autoaugment false;
                with_p 1 (A_RandomSizedCrop_apply (265, 412) 331 331);
                with_p (1 # 2) A_HorizontalFlip_apply ] 1 false
  else
    A_Compose [ with_p 1 (A_Resize_apply 331 331) ] 1 false.

Definition aug2 (data_augmentation : bool) : transform :=
  if data_augmentation then
    A_Compose [ with_p 1 (A_Normalize_apply (1 # 2) (1 # 2));
                with_p (1 # 2) (F_cutout 1 16 16) ] 1 false
  else
    A_Compose [ with_p 1 (A_Normalize_apply (1 # 2) (1 # 2)) ] 1 false.

(** ** [_load_image] and [_to_categorical] *)

Definition _load_image (p : path) : M image :=
  match fs p with
  | Unreadable => raise DecodeError
  | Decodable img =>
      if is_RGB (mode img) then ret (raster img)
      else ret (prim (PIL_convert_RGB (mode img)) (raster img))
  end.

Definition label := list Q.

Definition _to_categorical (index num_classes : nat) : M label :=
  if index <? num_classes
  then ret (<[index := 1%Q]> (replicate num_classes 0%Q))
  else raise IndexError.

(** ** [_generate_instance] *)

(** [while True: t = np.random.choice(len(y)); if y[t] != y_i: break] *)
Fixpoint draw_partner (fuel : nat) (y : list nat) (y_i : nat) : M nat :=
  match fuel with
  | 0 => hang
  | S fuel' =>
      let* t := np_random_choice (length y) in
      let* y_t := getitem y t in
      if y_t =? y_i then draw_partner fuel' y y_i else ret t
  end.

(** [X_i * r + X_t * (1 - r)] on one value. *)
Definition mix_value (r a b : Q) : Q := (a * r + b * (1 - r))%Q.

(** The same on float32 operands, every operation rounded. *)
Definition mix_value32 (r a b : Q) : Q :=
  fl32 (fl32 (fl32 (a * fl32 r) + fl32 (b * fl32 (1 - r)))).

Definition mix_images (r : Q) (X_i X_t : image) : M image :=
  zip_strict (zip_strict (zip_strict (fun a b => ret (mix_value r a b)))) X_i X_t.

Definition mix_labels (r : Q) (c_i c_t : label) : M label :=
  zip_strict (fun a b => ret (mix_value32 r a b)) c_i c_t.

Definition _generate_instance (fuel : nat) (X : list path) (y : list nat)
    (aug1 aug2 : transform) (num_classes : nat) (data_augmentation : bool)
    (index : nat) : M (image * label) :=
  let* X_i := getitem X index in
  let* y_i := getitem y index in
  let* img := _load_image X_i in
  let* X_i := aug1 img in
  let* c_i := _to_categorical y_i num_classes in
  let* (X_i, c_i) :=
    (if data_augmentation then
       let* t := draw_partner fuel y y_i in
       let* X_t := getitem X t in
       let* y_t := getitem y t in
       let* img_t := _load_image X_t in
       let* X_t := aug1 img_t in
       let* c_t := _to_categorical y_t num_classes in
       let* r := np_random_uniform (1 # 2) 1 in
       let* X_i := mix_images r X_i X_t in
       let* c_i := mix_labels r c_i c_t in
       ret (X_i, c_i)
     else ret (X_i, c_i)) in
  let* X_i := aug2 X_i in
  ret (X_i, c_i).

(** ** [joblib.Parallel] and [_generate_batch]

    The worker threads finish the jobs in some order, the [schedule]; each
    result is stored under the position of its job, and the call returns the
    stored results by position once every position is filled. *)

Fixpoint run_jobs {A} (schedule : list nat) (jobs : list (M A))
    (slots : list (option A)) : M (list (option A)) :=
  match schedule with
  | [] => ret slots
  | k :: rest =>
      match jobs !! k with
      | Some job => let* r := job in run_jobs rest jobs (<[k := Some r]> slots)
      | None => run_jobs rest jobs slots
      end
  end.

Fixpoint collect_slots {A} (slots : list (option A)) : option (list A) :=
  match slots with
  | [] => Some []
  | Some r :: rest => option_map (cons r) (collect_slots rest)
  | None :: _ => None
  end.

Definition parallel {A} (schedule : list nat) (jobs : list (M A)) : M (list A) :=
  let* slots := run_jobs schedule jobs (replicate (length jobs) None) in
  match collect_slots slots with
  | Some results => ret results
  | None => hang
  end.

Definition batch := (list image * list label)%type.

Definition _generate_batch (fuel : nat) (X : list path) (y : list nat)
    (aug1 aug2 : transform) (num_classes : nat) (data_augmentation : bool)
    (batch_indices : list nat) (schedule : list nat) : M batch :=
  let jobs := map (_generate_instance fuel X y aug1 aug2 num_classes data_augmentation)
                  batch_indices in
  let* results := parallel schedule jobs in
  match results with
  | [] => raise ValueError            (* zip of no results does not unpack in two *)
  | _ => ret (map fst results, map snd results)
  end.

(** ** [_generate] *)

Inductive gen_state :=
| Shuffled (indices : idx_stream)     (* inside [for index in ...], [batch_indices] empty *)
| Sequential (i : nat).               (* the next value of [range(0, len(X), batch_size)] *)

Definition _generate (X : list path) (shuffle : bool) : gen_state :=
  if shuffle then Shuffled (_generate_shuffled_indices (length X)) else Sequential 0.

(** The index lists of the shuffled branch: draw until [batch_size] are held. *)
Fixpoint next_shuffled_indices (fuel batch_size : nat) (batch_indices : list nat)
    (st : idx_stream) : M (list nat * idx_stream) :=
  match fuel with
  | 0 => hang
  | S fuel' =>
      let* (index, st') := indices_next (S fuel') st in
      let batch_indices := batch_indices ++ [index] in
      if length batch_indices =? batch_size then ret (batch_indices, st')
      else next_shuffled_indices fuel' batch_size batch_indices st'
  end.

(** The index lists of the sequential branch:
    [range(i, min(i + batch_size, len(X)))], and again from 0 at the end. *)
Fixpoint next_sequential_indices (fuel batch_size data_count i : nat) : M (list nat * nat) :=
  match fuel with
  | 0 => hang
  | S fuel' =>
      if i <? data_count
      then ret (seq i (Nat.min (i + batch_size) data_count - i), i + batch_size)
      else next_sequential_indices fuel' batch_size data_count 0
  end.

(** One [next()] of [_generate]; [scheduler n] is the order in which the [n]
    jobs of this batch finish. *)
Definition _generate_next (fuel : nat) (scheduler : nat -> list nat)
    (X : list path) (y : list nat) (batch_size num_classes : nat)
    (data_augmentation : bool) (st : gen_state) : M (batch * gen_state) :=
  if batch_size =? 0 then raise ValueError
  else
    let go batch_indices :=
      _generate_batch fuel X y (aug1 data_augmentation) (aug2 data_augmentation)
        num_classes data_augmentation batch_indices (scheduler (length batch_indices)) in
    match st with
    | Shuffled indices =>
        let* (batch_indices, indices') := next_shuffled_indices fuel batch_size [] indices in
        let* b := go batch_indices in
        ret (b, Shuffled indices')
    | Sequential i =>
        let* (batch_indices, i') := next_sequential_indices fuel batch_size (length X) i in
        let* b := go batch_indices in
        ret (b, Sequential i')
    end.

End Pipeline.

(** ** Invariants and laws the theorems are stated with *)

(** The array of the index generator holds each of [0 .. N-1] once. *)
Definition stream_inv (N : nat) (st : idx_stream) : Prop :=
  all_indices st ≡ₚ seq 0 N.

Definition gen_state_ok (N : nat) (st : gen_state) : Prop :=
  match st with
  | Shuffled indices => stream_inv N indices
  | Sequential _ => True
  end.

(** The image libraries return an array of the documented shape. *)
Definition prim_law (prim : prim_op -> image -> image) : Prop :=
  forall op img, has_shape (prim_shape op (shape_of img)) (prim op img).

(** Every file that decodes gives a well-formed raster. *)
Definition fs_ok (fs : path -> file) : Prop :=
  forall p img, fs p = Decodable img -> decoded_ok img.

(** A dataset whose files all decode and whose labels are classes. *)
Definition dataset_ok (fs : path -> file) (X : list path) (y : list nat)
    (num_classes : nat) : Prop :=
  forall index p, X !! index = Some p ->
    exists img y_i, fs p = Decodable img /\ y !! index = Some y_i /\ y_i < num_classes.

(** The draw of [random.random()] made from the [n]-th raw draw of [g]. *)
Definition unit_draw (g : rng) (n : nat) : Q := Z.of_N (g n mod 2 ^ 53) # 2 ^ 53.

(** The index the [n]-th turn of the partner loop draws from the random
    state [g]: every turn takes one raw draw. *)
Definition partner_pick (y : list nat) (g : rng) (n : nat) : nat :=
  N.to_nat (g n mod N.of_nat (length y)).

(** The one-hot vector of class [index]. *)
Definition onehot (index num_classes : nat) : label :=
  <[index := 1%Q]> (replicate num_classes 0%Q).

(** The sum of the entries of a label vector. *)
Definition label_sum (c : label) : Q := fold_right Qplus 0%Q c.

(** The sample the evaluation pipeline computes for a decoded file with
    label [y_i]: convert to RGB, resize, normalize; a one-hot label. *)
Definition eval_sample (prim : prim_op -> image -> image) (img : pil_image)
    (y_i num_classes : nat) : image * label :=
  let rgb := if is_RGB (mode img) then raster img
             else prim (PIL_convert_RGB (mode img)) (raster img) in
  (F_normalize (1 # 2) (1 # 2) (prim (cv2_resize 331 331) rgb), onehot y_i num_classes).

(** ** Predicates of the proofs *)

(** A row of [w] pixels of [c] channels. *)
Definition pixel_row_ok (w c : nat) (row : list pixel) : Prop :=
  length row = w /\ Forall (fun px : pixel => length px = c) row.

(** An image of height [h], width [w] and [c] channels. *)
Definition shaped (h w c : nat) (img : image) : Prop := has_shape (h, w, c) img.

(** What a decoded file gives the pipeline: a non-empty RGB array. *)
Definition rgb_array (img : image) : Prop :=
  exists h w, 0 < h /\ 0 < w /\ has_shape (h, w, 3) img.

(** A sample as the network takes it. *)
Definition sample_ok (nc : nat) (s : image * label) : Prop :=
  has_shape (331, 331, 3) (fst s) /\ length (snd s) = nc.

(** Partial correctness: every value the computation returns satisfies [Q]. *)
Definition post {A} (c : M A) (Q : A -> Prop) : Prop :=
  forall g a g', c g = Ok (a, g') -> Q a.

(** A transform that keeps a property of its image. *)
Definition keeps (P : image -> Prop) (t : transform) : Prop :=
  forall img, P img -> post (t img) P.

(** A job that returns a fixed value from every random state. *)
Definition returns {A} (job : M A) (v : A) : Prop :=
  forall g, exists g', job g = Ok (v, g').

(** What the slots hold while the jobs of [seen] have finished. *)
Definition slots_ok {A} (jobs : list (M A)) (seen : list nat) (slots : list (option A)) : Prop :=
  length slots = length jobs /\
  forall k r, slots !! k = Some (Some r) ->
    k ∈ seen /\ exists job g1 g2, jobs !! k = Some job /\ job g1 = Ok (r, g2).

(** The sample of index [index] of a dataset, when its file decodes and its
    label is a class. *)
Definition dataset_sample prim (fs : path -> file) (X : list path) (y : list nat)
    (nc index : nat) (s : image * label) : Prop :=
  exists p img y_i,
    X !! index = Some p /\ fs p = Decodable img /\ y !! index = Some y_i /\ y_i < nc
    /\ s = eval_sample prim img y_i nc.

(** ** Example inputs *)

(** A stand-in for the image libraries: a black array of the right shape. *)
Definition prim_fill (op : prim_op) (img : image) : image :=
  let '(h, w, c) := prim_shape op (shape_of img) in
  replicate h (replicate w (replicate c 0%Q)).

(** A directory with one broken file, one grayscale file and RGB files. *)
Definition fs_demo (p : path) : file :=
  if String.eqb p "broken.jpg" then Unreadable
  else if String.eqb p "gray.png"
       then Decodable {| mode := ModeL; raster := [[[7%Q]]] |}
       else Decodable {| mode := ModeRGB; raster := [[[255; 0; 0]; [0; 0; 255]]]%Q |}.

Definition rng_demo : rng := fun n => N.of_nat (7 * n + 3).

(** A random state whose every draw of [random.random()] is 1/2. *)
Definition rng_half : rng := fun _ => (2 ^ 52)%N.

Definition X_demo : list path := ["a.jpg"; "gray.png"; "c.jpg"]%string.
Definition y_demo : list nat := [0; 1; 0].

(** Nine files, the label of each being its position. *)
Definition X_nine : list path := replicate 9 "img.jpg"%string.
Definition y_nine : list nat := seq 0 9.

Definition X_bad : list path := ["a.jpg"; "broken.jpg"]%string.

(** A white image of 20 by 20 pixels. *)
Definition img_white : image := replicate 20 (replicate 20 [255; 255; 255]%Q).

(** The row counts of the batch a [next()] returned. *)
Definition rows {S} (r : outcome (batch * S * rng)) : option (nat * nat) :=
  match r with
  | Ok (b, _, _) => Some (length (fst b), length (snd b))
  | _ => None
  end.

(** The label rows of a returned batch. *)
Definition label_rows (r : outcome (batch * rng)) : option (list label) :=
  match r with
  | Ok (b, _) => Some (snd b)
  | _ => None
  end.

Definition image_of {S} (r : outcome (image * S)) : option image :=
  match r with
  | Ok (img, _) => Some img
  | _ => None
  end.

(** The number of pixels of an image that are zero in every channel. *)
Definition zero_pixels (img : image) : nat :=
  length (List.filter (fun px : pixel => forallb (Qeq_bool 0) px) (concat img)).


From stdpp Require Import sorting.
From Stdlib Require Import Reals Psatz.

(** ** [_main]: the batch size, the step counts and the prediction pass *)

Inductive model_name := resnet | inception_resnet_v2 | nasnet.

(** [batch_size = 8 if args.model == 'nasnet' else 16] *)
Definition batch_size_of (model : model_name) : nat :=
  match model with
  | nasnet => 8
  | _ => 16
  end.

(** [int(np.ceil(n / batch_size))]: true division, then the ceiling.  The
    float quotient has the ceiling of the exact one for every count below
    2^53. *)
Definition steps (n batch_size : nat) : nat :=
  Z.to_nat (Qceiling (inject_Z (Z.of_nat n) / inject_Z (Z.of_nat batch_size))).

(** [int(np.ceil(len(X_train) / batch_size / hvd.size()))] *)
Definition steps_per_epoch (n batch_size size : nat) : nat :=
  Z.to_nat (Qceiling (inject_Z (Z.of_nat n) / inject_Z (Z.of_nat batch_size)
                      / inject_Z (Z.of_nat size))).

(** [count] successive [next()] calls on the generator, the way
    [fit_generator] and [predict_generator] read it. *)
Fixpoint generator_take (prim : prim_op -> image -> image) (fs : path -> file)
    (fuel : nat) (scheduler : nat -> list nat) (X : list path) (y : list nat)
    (batch_size num_classes : nat) (data_augmentation : bool)
    (count : nat) (st : gen_state) : M (list batch * gen_state) :=
  match count with
  | 0 => ret ([], st)
  | S count' =>
      let* (b, st1) := _generate_next prim fs fuel scheduler X y batch_size num_classes
                         data_augmentation st in
      let* (rest, st2) := generator_take prim fs fuel scheduler X y batch_size num_classes
                            data_augmentation count' st1 in
      ret (b :: rest, st2)
  end.

(** The arrays [model.predict_generator] is fed in [_main]: the batches of
    [_generate(X_val, np.zeros(len(X_val)), batch_size, num_classes)], with
    the defaults [shuffle=False] and [data_augmentation=False], read
    [int(np.ceil(len(X_val) / batch_size))] times; the predictions come back
    concatenated in this order. *)
Definition predict_inputs (prim : prim_op -> image -> image) (fs : path -> file)
    (fuel : nat) (scheduler : nat -> list nat) (X_val : list path)
    (batch_size num_classes : nat) : M (list image) :=
  let y := replicate (length X_val) 0 in
  let* (batches, _) := generator_take prim fs fuel scheduler X_val y batch_size num_classes
                         false (steps (length X_val) batch_size) (_generate X_val false) in
  ret (concat (map fst batches)).

(** The rows [i, i + batch_size) of a list of samples, as a batch. *)
Definition batch_at (samples : list (image * label)) (batch_size i : nat) : batch :=
  let rows := take batch_size (drop i samples) in
  (map fst rows, map snd rows).

(** A computation that returns a value from every random state. *)
Definition succeeds {A} (c : M A) : Prop :=
  forall g, exists a g', c g = Ok (a, g').

(** The index lists of [count] successive batches of the shuffled branch of
    [_generate]. *)
Fixpoint shuffled_batch_indices (fuel batch_size count : nat) (st : idx_stream)
    : M (list (list nat) * idx_stream) :=
  match count with
  | 0 => ret ([], st)
  | S count' =>
      let* (batch_indices, st1) := next_shuffled_indices fuel batch_size [] st in
      let* (rest, st2) := shuffled_batch_indices fuel batch_size count' st1 in
      ret (batch_indices :: rest, st2)
  end.

(** ** [_load_data]

    The dataset folder as pathlib sees it: a tree of named files and
    directories, the children of a directory in the order the system lists
    them.  The folders [data/train] and [data/val] exist. *)

#[warnings="-register-all"] Inductive entry :=
| File (name : string)
| Dir (name : string) (children : list entry).

Definition entry_name (e : entry) : string :=
  match e with
  | File name => name
  | Dir name _ => name
  end.

Definition is_dir (e : entry) : bool :=
  match e with
  | Dir _ _ => true
  | File _ => false
  end.

Definition is_file (e : entry) : bool := negb (is_dir e).

(** [dir / name] *)
Definition joinpath (dir name : string) : string := (dir ++ "/" ++ name)%string.

(** A file found by [glob]: its path, and [x.parent.name]. *)
Record found_file := { file_path : path; parent_name : string }.

Definition direct_files (dir_path dir_name : string) (children : list entry)
    : list found_file :=
  map (fun e => {| file_path := joinpath dir_path (entry_name e); parent_name := dir_name |})
      (List.filter is_file children).

(** The files [glob] finds below a subdirectory. *)
Fixpoint entry_glob (parent_path : string) (e : entry) : list found_file :=
  match e with
  | File _ => []
  | Dir name children =>
      let dir_path := joinpath parent_path name in
      direct_files dir_path name children ++ flat_map (entry_glob dir_path) children
  end.

(** [[x for x in dir.glob('**/*') if x.is_file()]]: pathlib lists the
    entries of the directory, then those of each subdirectory in turn,
    depth first. *)
Definition glob_files (dir_path dir_name : string) (children : list entry)
    : list found_file :=
  direct_files dir_path dir_name children ++ flat_map (entry_glob dir_path) children.

(** The order of [sorted] on names. *)
Definition name_le (a b : string) : Prop := String.leb a b = true.

#[global] Instance name_le_dec (a b : string) : Decision (name_le a b) :=
  decide (String.leb a b = true).

(** [list(sorted([p.name for p in train_dir.iterdir() if p.is_dir()]))];
    on a total order with no two distinct equal keys every sort returns the
    same list. *)
Definition class_names_of (train : list entry) : list string :=
  merge_sort name_le (map entry_name (List.filter is_dir train)).

(** A Python dict from names to integers. *)
Definition dict := string -> option nat.

Definition dict_set (d : dict) (key : string) (value : nat) : dict :=
  fun k => if String.eqb k key then Some value else d k.

(** [{cn: i for i, cn in enumerate(class_names)}] *)
Definition class_name_to_id (class_names : list string) : dict :=
  fold_left (fun d '(i, cn) => dict_set d cn i)
            (imap (fun i cn => (i, cn)) class_names) (fun _ => None).

Inductive load_result (A : Type) :=
| Loaded (a : A)
| KeyError (key : string).
Arguments Loaded {A} a.
Arguments KeyError {A} key.

(** [[class_name_to_id[x.parent.name] for x in files]] *)
Fixpoint lookup_labels (d : dict) (files : list found_file) : load_result (list nat) :=
  match files with
  | [] => Loaded []
  | x :: rest =>
      match d (parent_name x) with
      | None => KeyError (parent_name x)
      | Some i =>
          match lookup_labels d rest with
          | Loaded ids => Loaded (i :: ids)
          | KeyError key => KeyError key
          end
      end
  end.

Definition dataset := (list path * list nat)%type.

Definition _load_data (train val : list entry) (data : string) (swap_train_val : bool)
    : load_result (dataset * dataset * nat) :=
  let data_dir := data in
  let train_dir := joinpath data_dir "train" in
  let val_dir := joinpath data_dir "val" in
  let class_names := class_names_of train in
  let ids := class_name_to_id class_names in
  let X_train := glob_files train_dir "train" train in
  match lookup_labels ids X_train with
  | KeyError key => KeyError key
  | Loaded y_train =>
      let X_val := glob_files val_dir "val" val in
      match lookup_labels ids X_val with
      | KeyError key => KeyError key
      | Loaded y_val =>
          let train_set := (map file_path X_train, y_train) in
          let val_set := (map file_path X_val, y_val) in
          if swap_train_val
          then Loaded (val_set, train_set, length class_names)
          else Loaded (train_set, val_set, length class_names)
      end
  end.

(** An example folder: two class directories, listed out of order. *)
Definition train_demo : list entry :=
  [ Dir "n02" [File "b1.jpg"; File "b2.jpg"];
    Dir "n01" [File "a1.jpg"] ]%string.

Definition val_demo : list entry :=
  [ Dir "n01" [File "v1.jpg"];
    Dir "n02" [File "v2.jpg"] ]%string.

(** ** [_create_network]: the shapes of the layers

    The network at the level Keras checks when the model is built: every
    layer maps the shape of its input, without the batch axis, to the shape
    of its output; [None] is the [ValueError] of a layer that refuses its
    inputs. *)

(** [Conv2D(filters, kernel_size, strides, padding='same')]: the output
    length of an axis is [(length + strides - 1) // strides]. *)
Definition Conv2D (filters kernel_size strides : nat) (x : shape) : shape :=
  let '(h, w, _) := x in
  ((h + strides - 1) / strides, (w + strides - 1) / strides, filters).

(** [BatchNormalization], then [Activation('relu')] if [use_act]: both keep
    the shape. *)
Definition _bn_act (use_act : bool) (x : shape) : shape := x.

Definition _conv2d (filters kernel_size strides : nat) (use_act : bool) (x : shape) : shape :=
  _bn_act use_act (Conv2D filters kernel_size strides x).

(** [keras.layers.add([sc, x])]: the inputs must have the same shape. *)
Definition layers_add (sc x : shape) : option shape :=
  if decide (sc = x) then Some x else None.

(** [for _ in range(count): sc = x; x = conv(conv(x)); x = add([sc, x])] *)
Fixpoint _blocks_loop (filters count : nat) (x : shape) : option shape :=
  match count with
  | 0 => Some x
  | S count' =>
      let sc := x in
      let x := _conv2d filters 3 1 true x in
      let x := _conv2d filters 3 1 false x in
      match layers_add sc x with
      | Some x => _blocks_loop filters count' x
      | None => None
      end
  end.

Definition _blocks (filters count : nat) (x : shape) : option shape :=
  option_map (_bn_act true) (_blocks_loop filters count x).

Definition GlobalAveragePooling2D (x : shape) : nat := let '(_, _, c) := x in c.

Definition Dense (units : nat) (x : nat) : nat := units.

(** The model [_create] builds: the feature maps after each of the five
    stages, and the length of the output vector. *)
Definition _create_network (input_shape : shape) (num_classes : nat)
    : option (list shape * nat) :=
  let x := input_shape in
  let x1 := _conv2d 64 7 2 true x in
  let x := _conv2d 128 3 2 false x1 in
  match _blocks 128 2 x with
  | None => None
  | Some x2 =>
  let x := _conv2d 256 3 2 false x2 in
  match _blocks 256 4 x with
  | None => None
  | Some x3 =>
  let x := _conv2d 512 3 2 false x3 in
  match _blocks 512 8 x with
  | None => None
  | Some x4 =>
  let x := _conv2d 512 3 2 false x4 in
  match _blocks 512 4 x with
  | None => None
  | Some x5 =>
  let x := GlobalAveragePooling2D x5 in
  let x := Dense num_classes x in
  Some ([x1; x2; x3; x4; x5], x)
  end end end end.

(** ** [_cosine_annealing_callback]

    The schedule on real numbers; Keras calls it with the epoch index,
    [0 <= ep < epochs]. *)
Definition _cosine_annealing (base_lr : R) (epochs : nat) (ep : nat) (lr : R) : R :=
  let min_lr := (base_lr * (1 / 100))%R in
  (min_lr + (1 / 2) * (base_lr - min_lr) * (1 + cos (PI * (INR ep + 1) / INR epochs)))%R.

(** [base_lr = 1e-3 * batch_size * hvd.size()] *)
Definition base_lr_of (batch_size size : nat) : R :=
  (1 / 1000 * INR batch_size * INR size)%R.

(** ** [MixFeat]

    The layer on real numbers.  A batch is a list of samples, a sample the
    list of its feature values; the coefficients [a] and [b] hold one value
    per feature and are the same for every sample of the batch.  The random
    draws of [_forward] (the shuffled [indices], [r] and [theta]) are
    arguments. *)

Definition tensor := list (list R).

(** [keras.backend.gather(x, indices)]; an index out of range is an error. *)
Definition gather {A} (x : list A) (indices : list nat) : option (list A) :=
  mapM (fun i => x !! i) indices.

(** [tf.invert_permutation(indices)]: [y[indices[i]] = i] for every [i]. *)
Definition invert_permutation (indices : list nat) : list nat :=
  fold_left (fun y '(i, v) => <[v := i]> y)
            (imap (fun i v => (i, v)) indices) (replicate (length indices) 0).

(** [a = 1 + r * cos(theta)] and [b = r * sin(theta)] *)
Definition MixFeat_a (r theta : list R) : list R :=
  zip_with (fun r t => 1 + r * cos t)%R r theta.

Definition MixFeat_b (r theta : list R) : list R :=
  zip_with (fun r t => r * sin t)%R r theta.

(** [u * a + v * b] on one sample. *)
Definition mix_row (a b u v : list R) : list R :=
  zip_with Rplus (zip_with Rmult u a) (zip_with Rmult v b).

(** [y = x * a + gather(x, indices) * b] *)
Definition _forward (indices : list nat) (a b : list R) (x : tensor) : option tensor :=
  match gather x indices with
  | Some x_shuffled => Some (zip_with (mix_row a b) x x_shuffled)
  | None => None
  end.

(** [dx * a + gather(dx, inv) * b] with [inv = tf.invert_permutation(indices)] *)
Definition _backword (indices : list nat) (a b : list R) (dx : tensor) : option tensor :=
  let inv := invert_permutation indices in
  match gather dx inv with
  | Some dx_shuffled => Some (zip_with (mix_row a b) dx dx_shuffled)
  | None => None
  end.

(** [MixFeat.call]: [in_train_phase(_mixfeat, _passthru, training)] *)
Definition MixFeat_call (training : bool) (indices : list nat) (r theta : list R)
    (inputs : tensor) : option tensor :=
  if training then _forward indices (MixFeat_a r theta) (MixFeat_b r theta) inputs
  else Some inputs.

(** The sum of a list of reals, and the inner products of samples and of
    batches. *)
Definition Rsum (l : list R) : R := fold_right Rplus 0%R l.

Definition vdot (u v : list R) : R := Rsum (zip_with Rmult u v).

Definition tdot (x y : tensor) : R := Rsum (zip_with vdot x y).

(** * The shuffled index stream *)

Lemma insert_Permutation_delete {A} (l : list A) i x :
  i < length l -> <[i:=x]> l ≡ₚ x :: delete i l.
Proof.
  revert i. induction l as [|a l IH]; intros [|i] Hi; simpl in *; try lia.
  - done.
  - rewrite (IH i) by lia. apply Permutation_swap.
Qed.

Lemma swap_Permutation {A} (x : list A) i j : swap x i j ≡ₚ x.
Proof.
  unfold swap.
  destruct (x !! i) as [a|] eqn:Ha; [|done].
  destruct (x !! j) as [b|] eqn:Hb; [|done].
  destruct (decide (i = j)) as [->|Hne].
  - rewrite list_insert_insert_eq. rewrite list_insert_id; [done|congruence].
  - revert i j Ha Hb Hne. induction x as [|c x IH]; intros [|i] [|j] Ha Hb Hne; simpl in *; try done.
    + simplify_eq. rewrite insert_Permutation_delete by (by eapply lookup_lt_Some).
      rewrite (delete_Permutation x j b) at 2 by done. apply Permutation_swap.
    + simplify_eq. rewrite insert_Permutation_delete by (by eapply lookup_lt_Some).
      rewrite (delete_Permutation x i a) at 2 by done. apply Permutation_swap.
    + f_equiv. apply IH; auto.
Qed.

(** Monad unfolding *)
Lemma bind_Ok {A B} (c : M A) (k : A -> M B) g a g' :
  c g = Ok (a, g') -> bind c k g = k a g'.
Proof. unfold bind. by intros ->. Qed.

Lemma bind_inv_Ok {A B} (c : M A) (k : A -> M B) g b g2 :
  bind c k g = Ok (b, g2) -> exists a g1, c g = Ok (a, g1) /\ k a g1 = Ok (b, g2).
Proof.
  unfold bind. destruct (c g) as [[a g1]| |]; [eauto|done|done].
Qed.

Lemma random_interval_ok max g :
  exists j, random_interval max g = Ok (j, fun n => g (S n)) /\ j <= max.
Proof.
  unfold random_interval, bind, next_raw, ret. eexists; split; [reflexivity|].
  assert (g 0%nat mod N.of_nat (S max) < N.of_nat (S max))%N by (apply N.mod_lt; lia).
  lia.
Qed.

Lemma shuffle_from_ok {A} i (x : list A) g :
  exists x' g', shuffle_from i x g = Ok (x', g') /\ x' ≡ₚ x.
Proof.
  revert x g. induction i as [|i IH]; intros x g; simpl.
  - by exists x, g.
  - destruct (random_interval_ok (S i) g) as (j & Hj & _).
    rewrite (bind_Ok _ _ _ _ _ Hj).
    destruct (IH (swap x (S i) j) (fun n => g (S n))) as (x' & g' & -> & Hp).
    exists x', g'. split; [done|]. by rewrite Hp, swap_Permutation.
Qed.

Lemma np_random_shuffle_ok {A} (x : list A) g :
  exists x' g', np_random_shuffle x g = Ok (x', g') /\ x' ≡ₚ x.
Proof. apply shuffle_from_ok. Qed.

Lemma stream_inv_length N st : stream_inv N st -> length (all_indices st) = N.
Proof. unfold stream_inv. intros ->. by rewrite length_seq. Qed.

Lemma indices_take_app fuel a b st g :
  indices_take fuel (a + b) st g =
  (let* (l1, st1) := indices_take fuel a st in
   let* (l2, st2) := indices_take fuel b st1 in
   ret (l1 ++ l2, st2)) g.
Proof.
  revert st g. induction a as [|a IH]; intros st g; simpl.
  - unfold bind, ret.
    destruct (indices_take fuel b st g) as [[[l2 st2] g2]| |]; done.
  - unfold bind in *.
    destruct (indices_next fuel st g) as [[[index st1] g1]| |]; [|done|done].
    rewrite IH.
    destruct (indices_take fuel a st1 g1) as [[[l1 st1'] g1']| |]; [|done|done].
    unfold ret; simpl.
    destruct (indices_take fuel b st1' g1') as [[[l2 st2] g2]| |]; done.
Qed.

(** While the [yield from] is running, [next()] hands out the array in order. *)
Lemma indices_take_drain fuel all c g :
  c <= length all ->
  indices_take (S fuel) (length all - c) {| all_indices := all; cursor := c |} g
  = Ok (drop c all, {| all_indices := all; cursor := length all |}, g).
Proof.
  remember (length all - c) as n eqn:Hn. revert c Hn.
  induction n as [|n IH]; intros c Hn Hc; simpl.
  - assert (c = length all) as -> by lia. by rewrite drop_all.
  - destruct (lookup_lt_is_Some_2 all c) as [v Hv]; [lia|].
    unfold bind at 1. simpl. rewrite Hv. unfold ret at 1.
    unfold bind at 1. rewrite (IH (S c)) by lia.
    unfold ret. by rewrite (drop_S all v c Hv).
Qed.

Lemma indices_take_block N fuel st g :
  1 <= N -> 2 <= fuel -> stream_inv N st -> cursor st = N ->
  exists all' g', indices_take fuel N st g
                  = Ok (all', {| all_indices := all'; cursor := N |}, g')
                  /\ all' ≡ₚ seq 0 N.
Proof.
  intros HN Hf Hinv Hc.
  destruct fuel as [|[|fuel]]; [lia|lia|].
  destruct N as [|n]; [lia|]. destruct st as [all c]; simpl in *. subst c.
  pose proof (stream_inv_length _ _ Hinv) as Hlen; simpl in Hlen.
  destruct (np_random_shuffle_ok all g) as (all' & g' & Hsh & Hp).
  assert (length all' = S n) as Hlen' by (by rewrite Hp).
  exists all', g'. split; [|by rewrite Hp].
  cbn [indices_take]. unfold bind at 1. cbn [indices_next all_indices cursor].
  rewrite (lookup_ge_None_2 all (S n)) by lia.
  rewrite (bind_Ok _ _ _ _ _ Hsh). cbn [all_indices cursor].
  destruct all' as [|v all']; [done|]. cbn [lookup list_lookup]. unfold ret at 1.
  unfold bind at 1.
  pose proof (indices_take_drain (S fuel) (v :: all') 1 g') as Hd.
  simpl in Hd. simpl in Hlen'. replace (length all' - 0) with n in Hd by lia.
  rewrite Hd by lia. unfold ret. rewrite drop_0. repeat f_equal; lia.
Qed.

Lemma indices_next_total N fuel st g :
  1 <= N -> 2 <= fuel -> stream_inv N st ->
  exists index st' g', indices_next fuel st g = Ok (index, st', g')
                       /\ stream_inv N st' /\ index < N.
Proof.
  intros HN Hf Hinv. destruct fuel as [|[|fuel]]; [lia|lia|].
  cbn [indices_next].
  destruct (all_indices st !! cursor st) as [v|] eqn:Hv.
  - exists v, {| all_indices := all_indices st; cursor := S (cursor st) |}, g.
    split; [done|]. split; [done|].
    apply list_elem_of_lookup_2 in Hv. rewrite Hinv in Hv.
    apply elem_of_seq in Hv. lia.
  - destruct (np_random_shuffle_ok (all_indices st) g) as (all' & g' & Hsh & Hp).
    rewrite (bind_Ok _ _ _ _ _ Hsh). cbn [all_indices cursor].
    assert (all' ≡ₚ seq 0 N) as Hinv' by (by rewrite Hp).
    destruct all' as [|v all'].
    { apply Permutation_length in Hinv'. rewrite length_seq in Hinv'. simpl in *; lia. }
    exists v, {| all_indices := v :: all'; cursor := 1 |}, g'.
    split; [done|]. split; [done|].
    assert (v ∈ seq 0 N) as Hin by (rewrite <- Hinv'; left).
    apply elem_of_seq in Hin. lia.
Qed.

Lemma indices_take_total N fuel n st g :
  1 <= N -> 2 <= fuel -> stream_inv N st ->
  exists l st' g', indices_take fuel n st g = Ok (l, st', g')
                   /\ stream_inv N st' /\ length l = n.
Proof.
  intros HN Hf. revert st g. induction n as [|n IH]; intros st g Hinv.
  - exists [], st, g. done.
  - destruct (indices_next_total N fuel st g HN Hf Hinv) as (v & st1 & g1 & Hn & Hinv1 & _).
    destruct (IH st1 g1 Hinv1) as (l & st2 & g2 & Ht & Hinv2 & Hl).
    exists (v :: l), st2, g2. cbn [indices_take].
    rewrite (bind_Ok _ _ _ _ _ Hn). cbn. rewrite (bind_Ok _ _ _ _ _ Ht). cbn.
    split; [done|]. split; [done|]. simpl; lia.
Qed.

(** From a frame whose [yield from] is exhausted, [b] whole rounds. *)
Lemma indices_take_rounds N fuel b st g :
  1 <= N -> 2 <= fuel -> stream_inv N st -> cursor st = N ->
  exists l st' g', indices_take fuel (b * N) st g = Ok (l, st', g')
    /\ stream_inv N st' /\ cursor st' = N /\ length l = b * N
    /\ forall r, r < b -> take N (drop (r * N) l) ≡ₚ seq 0 N.
Proof.
  intros HN Hf. revert st g. induction b as [|b IH]; intros st g Hinv Hc.
  - exists [], st, g. repeat split; try done. intros r Hr; lia.
  - destruct (indices_take_block N fuel st g HN Hf Hinv Hc) as (l1 & g1 & H1 & Hp1).
    destruct (IH {| all_indices := l1; cursor := N |} g1) as (l2 & st2 & g2 & H2 & Hinv2 & Hc2 & Hl2 & Hb);
      [done|done|].
    assert (length l1 = N) as Hl1 by (by rewrite Hp1, length_seq).
    exists (l1 ++ l2), st2, g2.
    replace (S b * N) with (N + b * N) by lia.
    rewrite indices_take_app, (bind_Ok _ _ _ _ _ H1). cbn.
    rewrite (bind_Ok _ _ _ _ _ H2). cbn.
    split; [done|]. split; [done|]. split; [done|].
    split; [rewrite length_app; lia|].
    intros [|r] Hr.
    + simpl. rewrite drop_0, take_app_length'; done.
    + replace (S r * N) with (length l1 + r * N) by lia.
      rewrite drop_app_add. apply Hb. lia.
Qed.

(** C6.  For a dataset of [N >= 1] samples the index stream never ends:
    any number [k] of indices can be drawn, each [next()] returning within
    two turns of its loop, and every block of [N] consecutive draws that
    starts at a multiple of [N], the first one included, is a permutation
    of [0, N): each index exactly once. *)
Theorem shuffled_indices_rounds (N fuel k : nat) (g : rng) :
  1 <= N -> 2 <= fuel ->
  exists l st' g',
    indices_take fuel k (_generate_shuffled_indices N) g = Ok (l, st', g')
    /\ length l = k
    /\ forall r, (r + 1) * N <= k -> take N (drop (r * N) l) ≡ₚ seq 0 N.
Proof.
  intros HN Hf.
  assert (stream_inv N (_generate_shuffled_indices N)) as Hinv by (unfold stream_inv; simpl; reflexivity).
  destruct (indices_take_rounds N fuel (k / N) _ g HN Hf Hinv eq_refl)
    as (l1 & st1 & g1 & H1 & Hinv1 & _ & Hl1 & Hb).
  destruct (indices_take_total N fuel (k mod N) st1 g1 HN Hf Hinv1)
    as (l2 & st2 & g2 & H2 & _ & Hl2).
  exists (l1 ++ l2), st2, g2.
  rewrite (Nat.div_mod_eq k N) at 1. rewrite (Nat.mul_comm N).
  rewrite indices_take_app, (bind_Ok _ _ _ _ _ H1). cbn.
  rewrite (bind_Ok _ _ _ _ _ H2). cbn.
  split; [done|]. split.
  { rewrite length_app, Hl1, Hl2. rewrite (Nat.div_mod_eq k N) at 3. lia. }
  intros r Hr.
  assert (r < k / N) as Hlt.
  { pose proof (Nat.div_le_lower_bound k N (r + 1)). lia. }
  assert ((r + 1) * N <= length l1) as Hin.
  { rewrite Hl1. apply Nat.mul_le_mono_r. lia. }
  rewrite <- (Hb r Hlt).
  rewrite drop_app_le by lia. rewrite take_app_le; [done|].
  rewrite length_drop. lia.
Qed.

Lemma shuffled_indices_rounds_witness :
  1 <= 3 /\ 2 <= 2 /\
  exists l st' g',
    indices_take 2 7 (_generate_shuffled_indices 3) (fun n => N.of_nat (5 * n + 1)) = Ok (l, st', g')
    /\ length l = 7
    /\ forall r, (r + 1) * 3 <= 7 -> take 3 (drop (r * 3) l) ≡ₚ seq 0 3.
Proof.
  split; [lia|]. split; [lia|].
  apply (shuffled_indices_rounds 3 2 7); lia.
Defined.


(** * Shapes *)

Lemma has_shape_unfold h w c img :
  has_shape (h, w, c) img <-> length img = h /\ Forall (pixel_row_ok w c) img.
Proof. reflexivity. Qed.

Lemma shape_of_has_shape h w c img :
  has_shape (h, w, c) img -> 0 < h -> 0 < w -> shape_of img = (h, w, c).
Proof.
  intros [Hl Hrows] Hh Hw. unfold shape_of.
  destruct img as [|row img]; simpl in *; [lia|].
  apply Forall_cons in Hrows as [[Hrow Hpx] _].
  destruct row as [|px row]; simpl in *; [lia|].
  apply Forall_cons in Hpx as [Hpx _]. by rewrite Hl, Hrow, Hpx.
Qed.

Lemma has_shape_map3 (f : Q -> Q) s img :
  has_shape s img -> has_shape s (map (map (map f)) img).
Proof.
  destruct s as [[h w] c]. intros [Hl Hrows]. split; [by rewrite length_map|].
  apply Forall_map. eapply Forall_impl; [exact Hrows|].
  intros row [Hrow Hpx]; simpl. split; [by rewrite length_map|].
  apply Forall_map. eapply Forall_impl; [exact Hpx|].
  intros px Hc; simpl. by rewrite length_map.
Qed.

Lemma has_shape_flip s img :
  has_shape s img -> has_shape s (map (@rev pixel) img).
Proof.
  destruct s as [[h w] c]. intros [Hl Hrows]. split; [by rewrite length_map|].
  apply Forall_map. eapply Forall_impl; [exact Hrows|].
  intros row [Hrow Hpx]; simpl. split; [by rewrite length_rev|].
  by apply Forall_rev.
Qed.

Lemma Forall_imap {A B} (P : A -> Prop) (R : B -> Prop) (f : nat -> A -> B) l :
  Forall P l -> (forall i a, P a -> R (f i a)) -> Forall R (imap f l).
Proof.
  intros Hl Hf. apply Forall_lookup. intros i b Hb.
  rewrite list_lookup_imap in Hb.
  destruct (l !! i) as [a|] eqn:Ha; simplify_eq/=.
  apply Hf. by eapply (Forall_lookup_1 P l).
Qed.

Lemma has_shape_set_region_zero s y1 y2 x1 x2 img :
  has_shape s img -> has_shape s (set_region_zero y1 y2 x1 x2 img).
Proof.
  destruct s as [[h w] c]. intros [Hl Hrows]. split.
  - unfold set_region_zero. by rewrite length_imap.
  - unfold set_region_zero. eapply Forall_imap; [exact Hrows|].
    intros y row [Hrow Hpx]. split; [by rewrite length_imap|].
    eapply Forall_imap; [exact Hpx|].
    intros x px Hc. simpl. destruct (_ && _); [by rewrite length_map|done].
Qed.

Lemma has_shape_crop h w c y1 x1 ch cw img :
  has_shape (h, w, c) img -> y1 + ch <= h -> x1 + cw <= w ->
  has_shape (ch, cw, c) (crop y1 (y1 + ch) x1 (x1 + cw) img).
Proof.
  intros [Hl Hrows] Hy Hx. unfold crop.
  replace (y1 + ch - y1) with ch by lia. replace (x1 + cw - x1) with cw by lia.
  split.
  - rewrite length_map, length_take, length_drop. lia.
  - apply Forall_map. apply Forall_take, Forall_drop.
    eapply Forall_impl; [exact Hrows|].
    intros row [Hrow Hpx]; simpl. split.
    + rewrite length_take, length_drop. lia.
    + by apply Forall_take, Forall_drop.
Qed.


(** * A small program logic for [M] *)

Lemma post_ret {A} (a : A) (Q : A -> Prop) : Q a -> post (ret a) Q.
Proof. intros HQ g a' g' [= <- _]. done. Qed.

Lemma post_raise {A} e (Q : A -> Prop) : post (raise e) Q.
Proof. intros g a g' [=]. Qed.

Lemma post_hang {A} (Q : A -> Prop) : post hang Q.
Proof. intros g a g' [=]. Qed.

Lemma post_bind {A B} (c : M A) (k : A -> M B) (P : A -> Prop) (Q : B -> Prop) :
  post c P -> (forall a, P a -> post (k a) Q) -> post (bind c k) Q.
Proof.
  intros Hc Hk g b g2 H. unfold bind in H.
  destruct (c g) as [[a g1]| |] eqn:E; [|done|done].
  eapply Hk; [eapply Hc; exact E|exact H].
Qed.

Lemma post_weaken {A} (c : M A) (P Q : A -> Prop) :
  post c P -> (forall a, P a -> Q a) -> post c Q.
Proof. intros Hc HPQ g a g' H. apply HPQ. eapply Hc. exact H. Qed.

Lemma post_true {A} (c : M A) : post c (fun _ => True).
Proof. intros g a g' _. exact I. Qed.

Lemma post_zip_strict {A B C} (f : A -> B -> M C) (P : A -> Prop) (R : C -> Prop) l1 l2 :
  (forall a b, P a -> post (f a b) R) -> Forall P l1 ->
  post (zip_strict f l1 l2) (fun l => length l = length l1 /\ Forall R l).
Proof.
  intros Hf Hl1. revert l2. induction Hl1 as [|a l1 Ha Hl1 IH]; intros [|b l2]; simpl.
  - apply post_ret. done.
  - apply post_raise.
  - apply post_raise.
  - eapply post_bind; [by apply Hf|]. intros c Hc.
    eapply post_bind; [apply IH|]. intros r [Hl Hr].
    apply post_ret. split; [simpl; lia|by constructor].
Qed.

(** ** [joblib.Parallel]: results by position *)

Lemma run_jobs_slots {A} (jobs : list (M A)) schedule seen slots :
  slots_ok jobs seen slots ->
  post (run_jobs schedule jobs slots) (slots_ok jobs (seen ++ schedule)).
Proof.
  revert seen slots. induction schedule as [|k rest IH]; intros seen slots Hok; simpl.
  - apply post_ret. by rewrite app_nil_r.
  - destruct (jobs !! k) as [job|] eqn:Hjob.
    + intros g slots' g' Hrun. unfold bind in Hrun.
      destruct (job g) as [[r g1]| |] eqn:Hr; [|done|done].
      replace (seen ++ k :: rest) with ((seen ++ [k]) ++ rest) by (by rewrite <- app_assoc).
      eapply IH; [|exact Hrun].
      destruct Hok as [Hlen Hslots]. split; [by rewrite length_insert|].
      intros k' r' Hk'. destruct (decide (k = k')) as [<-|Hne].
      * rewrite list_lookup_insert_eq in Hk'
          by (rewrite Hlen; by eapply lookup_lt_Some).
        simplify_eq. split; [rewrite !elem_of_app, list_elem_of_singleton; auto|]. eauto.
      * rewrite list_lookup_insert_ne in Hk' by done.
        destruct (Hslots k' r' Hk') as [Hin Hex]. split; [rewrite !elem_of_app; auto|done].
    + replace (seen ++ k :: rest) with ((seen ++ [k]) ++ rest) by (by rewrite <- app_assoc).
      apply IH. destruct Hok as [Hlen Hslots]. split; [done|].
      intros k' r' Hk'. destruct (Hslots k' r' Hk') as [Hin Hex]. split; [rewrite !elem_of_app; auto|done].
Qed.

Lemma collect_slots_Some {A} (slots : list (option A)) results :
  collect_slots slots = Some results -> slots = map Some results.
Proof.
  revert results. induction slots as [|[r|] slots IH]; intros results H; simpl in *.
  - by simplify_eq.
  - destruct (collect_slots slots) as [rs|]; simplify_eq/=. f_equal. by apply IH.
  - done.
Qed.

(** Position [k] of the result is what job [k] returned, and every job has
    finished, whatever the order of the schedule. *)
Lemma post_parallel {A} (jobs : list (M A)) schedule :
  post (parallel schedule jobs) (fun results =>
    length results = length jobs /\
    forall k r, results !! k = Some r ->
      k ∈ schedule /\ exists job g1 g2, jobs !! k = Some job /\ job g1 = Ok (r, g2)).
Proof.
  unfold parallel.
  eapply post_bind.
  { apply (run_jobs_slots jobs schedule []). split; [by rewrite length_replicate|].
    intros k r Hk. apply lookup_replicate in Hk as [? _]. done. }
  intros slots [Hlen Hslots]. simpl in Hslots.
  destruct (collect_slots slots) as [results|] eqn:Hc; [|apply post_hang].
  apply collect_slots_Some in Hc. subst slots. apply post_ret. split.
  - by rewrite length_map in Hlen.
  - intros k r Hk. apply Hslots. by rewrite list_lookup_fmap, Hk.
Qed.

Section Shapes.

Variable prim : prim_op -> image -> image.
Variable fs : path -> file.

Hypothesis Hprim : prim_law prim.

Lemma keeps_with_p P p t : keeps P t -> keeps P (with_p p t).
Proof.
  intros Ht img HP. unfold with_p.
  eapply post_bind; [apply post_true|]. intros u _.
  destruct (Qltb u p); [by apply Ht|by apply post_ret].
Qed.

Lemma post_run_transforms (P : image -> Prop) ts :
  Forall (keeps P) ts -> keeps P (run_transforms ts).
Proof.
  induction 1 as [|t ts Ht Hts IH]; intros img HP; simpl.
  - by apply post_ret.
  - eapply post_bind; [by apply Ht|]. intros img' HP'. by apply IH.
Qed.

Lemma keeps_A_Compose P ts p force :
  Forall (keeps P) ts -> keeps P (A_Compose ts p force).
Proof.
  intros Hts img HP. unfold A_Compose.
  eapply post_bind; [apply post_true|]. intros [|] _.
  - by apply post_run_transforms.
  - by apply post_ret.
Qed.

Lemma keeps_A_OneOf P (ts : list (bool -> transform)) p force :
  Forall (fun t => keeps P (t true)) ts -> keeps P (A_OneOf ts p force).
Proof.
  intros Hts img HP. unfold A_OneOf.
  eapply post_bind; [apply post_true|]. intros [|] _; [|by apply post_ret].
  eapply post_bind; [apply post_true|]. intros k _.
  destruct (ts !! k) as [t|] eqn:Hk; [|by apply post_ret].
  by apply (Forall_lookup_1 _ _ _ _ Hts Hk).
Qed.

Lemma prim_keeps_shape op h w c :
  0 < h -> 0 < w -> prim_shape op (h, w, c) = (h, w, c) ->
  forall img, shaped h w c img -> shaped h w c (prim op img).
Proof.
  intros Hh Hw Hop img Himg. unfold shaped.
  rewrite <- Hop, <- (shape_of_has_shape h w c img Himg Hh Hw). apply Hprim.
Qed.

Lemma keeps_sp h w c name p mag :
  0 < h -> 0 < w -> keeps (shaped h w c) (sp prim name p mag).
Proof.
  intros Hh Hw.
  assert (forall op, prim_shape op (h, w, c) = (h, w, c) ->
                     forall img, shaped h w c img -> shaped h w c (prim op img)) as Hop
    by (intros; by apply prim_keeps_shape).
  destruct name; simpl; apply keeps_with_p; intros img Himg;
    unfold Affine_apply, Color_apply, Contrast_apply, Sharpness_apply, Brightness_apply,
           Posterize_apply, Solarize_apply, AutoContrast_apply, Equalize_apply,
           A_Rotate_apply, A_InvertImg_apply, enhance_factor, PIL_ImageOps_solarize;
    repeat (eapply post_bind; [apply post_true|]; intros ? _);
    apply post_ret;
    first [ by apply Hop | by apply has_shape_map3 ].
Qed.

Lemma keeps_autoaugment h w c force :
  0 < h -> 0 < w -> keeps (shaped h w c) (_create_autoaugment prim force).
Proof.
  intros Hh Hw. unfold _create_autoaugment. apply keeps_A_OneOf.
  apply Forall_map. apply Forall_forall. intros [[[n1 p1] m1] [[n2 p2] m2]] _. simpl.
  apply keeps_A_Compose. repeat (apply Forall_cons; split; [by apply keeps_sp|]). constructor.
Qed.

Lemma random_random_range : post random_random (fun u => 0 <= u /\ u < 1)%Q.
Proof.
  intros g u g' H. unfold random_random, bind, next_raw, ret in H. simplify_eq.
  assert (g 0%nat mod 2 ^ 53 < 2 ^ 53)%N as Hlt by (by apply N.mod_lt).
  set (m := (g 0%nat mod 2 ^ 53)%N) in *. clearbody m.
  unfold Qle, Qlt; cbn [Qnum Qden].
  change (Z.pos (2 ^ 53)) with (Z.of_N (2 ^ 53)).
  change (2 ^ 53)%N with 9007199254740992%N in *.
  lia.
Qed.

Lemma random_random_lt_1 : post random_random (fun u => Qltb u 1 = true).
Proof.
  eapply post_weaken; [apply random_random_range|]. intros u [_ Hu].
  unfold Qltb. apply negb_true_iff. apply not_true_is_false.
  rewrite Qle_bool_iff. lra.
Qed.

Lemma random_interval_range max : post (random_interval max) (fun j => j <= max).
Proof.
  intros g j g' H. destruct (random_interval_ok max g) as (j' & Hj & Hle).
  rewrite Hj in H. by simplify_eq.
Qed.

Lemma random_randint_range a b : post (random_randint a b) (fun k => a <= k <= b).
Proof.
  unfold random_randint. destruct (b <? a) eqn:Hba; [apply post_raise|].
  apply Nat.ltb_ge in Hba.
  eapply post_bind; [apply random_interval_range|]. intros k Hk.
  apply post_ret. cbv beta in Hk. lia.
Qed.

Lemma post_with_p_1 (P R : image -> Prop) t img :
  (forall img, P img -> post (t img) R) -> P img -> post (with_p 1 t img) R.
Proof.
  intros Ht HP. unfold with_p.
  eapply post_bind; [apply random_random_lt_1|]. intros u ->. by apply Ht.
Qed.

Lemma post_A_Compose_1 (R : image -> Prop) ts img :
  post (run_transforms ts img) R -> post (A_Compose ts 1 false img) R.
Proof.
  intros Hts. unfold A_Compose, need_to_run.
  eapply (post_bind _ _ (fun run => run = true)).
  { eapply post_bind; [apply random_random_lt_1|]. intros u Hu.
    apply post_ret. exact Hu. }
  by intros run ->.
Qed.

Lemma post_Resize height width img :
  rgb_array img -> post (A_Resize_apply prim height width img) (shaped height width 3).
Proof.
  intros (h & w & Hh & Hw & Himg). apply post_ret. unfold shaped.
  pose proof (Hprim (cv2_resize height width) img) as Hlaw.
  by rewrite (shape_of_has_shape _ _ _ _ Himg Hh Hw) in Hlaw.
Qed.

Lemma post_PadIfNeeded img :
  shaped 331 331 3 img -> post (A_PadIfNeeded_apply prim 412 412 img) (shaped 412 412 3).
Proof.
  intros Himg. unfold A_PadIfNeeded_apply.
  rewrite (shape_of_has_shape 331 331 3 img Himg) by lia.
  apply post_ret. unfold shaped.
  pose proof (Hprim (cv2_copyMakeBorder ((412 - 331) / 2) (412 - 331 - (412 - 331) / 2)
                          ((412 - 331) / 2) (412 - 331 - (412 - 331) / 2)) img) as Hlaw.
  by rewrite (shape_of_has_shape 331 331 3 img Himg) in Hlaw by lia.
Qed.

Lemma crop_start_bound (n : nat) (u : Q) :
  (0 <= u)%Q -> (u < 1)%Q -> Z.to_nat (Qfloor (inject_Z (Z.of_nat n) * u)) <= n.
Proof.
  intros H0 H1.
  assert (Qfloor (inject_Z (Z.of_nat n) * u) <= Z.of_nat n)%Z; [|lia].
  rewrite <- (Qfloor_Z (Z.of_nat n)) at 2. apply Qfloor_resp_le.
  assert (0 <= inject_Z (Z.of_nat n))%Q.
  { change 0%Q with (inject_Z 0). rewrite <- Zle_Qle. lia. }
  set (k := inject_Z (Z.of_nat n)) in *. clearbody k.
  nra.
Qed.

Lemma post_RandomSizedCrop img :
  shaped 412 412 3 img ->
  post (A_RandomSizedCrop_apply prim (265, 412) 331 331 img) (shaped 331 331 3).
Proof.
  intros Himg. unfold A_RandomSizedCrop_apply.
  eapply post_bind; [apply random_random_range|]. intros h_start [Hh0 Hh1].
  eapply post_bind; [apply random_random_range|]. intros w_start [Hw0 Hw1].
  eapply post_bind; [apply random_randint_range|]. intros ch Hch. cbn [fst snd] in Hch.
  rewrite (shape_of_has_shape 412 412 3 img Himg) by lia.
  destruct ((412 <? ch) || (412 <? ch)) eqn:Hsmall; [apply post_raise|].
  apply post_ret. unfold shaped.
  set (y1 := Z.to_nat _). set (x1 := Z.to_nat _).
  assert (y1 <= 412 - ch) as Hy1 by (by apply crop_start_bound).
  assert (x1 <= 412 - ch) as Hx1 by (by apply crop_start_bound).
  assert (has_shape (ch, ch, 3) (crop y1 (y1 + ch) x1 (x1 + ch) img)) as Hcrop.
  { eapply has_shape_crop; [exact Himg|lia|lia]. }
  pose proof (Hprim (cv2_resize 331 331) (crop y1 (y1 + ch) x1 (x1 + ch) img)) as Hlaw.
  by rewrite (shape_of_has_shape _ _ _ _ Hcrop) in Hlaw by lia.
Qed.

Lemma post_aug1 da img :
  rgb_array img -> post (aug1 prim da img) (shaped 331 331 3).
Proof.
  intros Himg. unfold aug1. destruct da.
  - apply post_A_Compose_1. cbn [run_transforms].
    eapply post_bind; [eapply post_with_p_1; [apply post_Resize|exact Himg]|].
    intros img1 H1.
    eapply post_bind; [eapply post_with_p_1; [apply post_PadIfNeeded|exact H1]|].
    intros img2 H2.
    eapply post_bind; [by apply (keeps_autoaugment 412 412 3 false); [lia|lia|]|].
    intros img3 H3.
    eapply post_bind; [eapply post_with_p_1; [apply post_RandomSizedCrop|exact H3]|].
    intros img4 H4.
    eapply post_bind.
    { apply (keeps_with_p (shaped 331 331 3)); [|exact H4].
      intros i Hi. apply post_ret. by apply has_shape_flip. }
    intros img5 H5. by apply post_ret.
  - apply post_A_Compose_1. cbn [run_transforms].
    eapply post_bind; [eapply post_with_p_1; [apply post_Resize|exact Himg]|].
    intros img1 H1. by apply post_ret.
Qed.

Lemma keeps_F_cutout s n mh mw : keeps (has_shape s) (F_cutout n mh mw).
Proof.
  induction n as [|n IH]; intros img Himg; simpl.
  - by apply post_ret.
  - destruct (shape_of img) as [[height width] c].
    eapply post_bind; [apply post_true|]. intros y _.
    eapply post_bind; [apply post_true|]. intros x _.
    apply IH. by apply has_shape_set_region_zero.
Qed.

Lemma keeps_aug2 s da : keeps (has_shape s) (aug2 da).
Proof.
  unfold aug2. destruct da; apply keeps_A_Compose.
  - apply Forall_cons; split.
    { apply keeps_with_p. intros img Himg. apply post_ret. by apply has_shape_map3. }
    apply Forall_cons; split; [|constructor].
    apply keeps_with_p. apply keeps_F_cutout.
  - apply Forall_cons; split; [|constructor].
    apply keeps_with_p. intros img Himg. apply post_ret. by apply has_shape_map3.
Qed.

End Shapes.

(** * Rows of a batch *)

Section Batches.

Variable prim : prim_op -> image -> image.
Variable fs : path -> file.

Lemma post_generate_batch_rows fuel X y a1 a2 nc da batch_indices schedule
    (R : image * label -> Prop) :
  (forall index, post (_generate_instance prim fs fuel X y a1 a2 nc da index) R) ->
  post (_generate_batch prim fs fuel X y a1 a2 nc da batch_indices schedule)
       (fun b => length (fst b) = length batch_indices /\
                 length (snd b) = length batch_indices /\
                 Forall R (zip (fst b) (snd b))).
Proof.
  intros Hinst. unfold _generate_batch.
  eapply post_bind; [apply post_parallel|]. intros results [Hlen Hres].
  rewrite length_map in Hlen.
  destruct results as [|r0 results]; [apply post_raise|].
  apply post_ret. cbn [fst snd]. rewrite !length_map. split; [done|]. split; [done|].
  rewrite zip_fst_snd. apply Forall_lookup. intros k r Hk.
  destruct (Hres k r Hk) as (_ & job & g1 & g2 & Hjob & Hrun).
  rewrite list_lookup_fmap in Hjob.
  destruct (batch_indices !! k) as [index|]; simplify_eq/=.
  eapply Hinst. exact Hrun.
Qed.

Hypothesis Hprim : prim_law prim.
Hypothesis Hfs : fs_ok fs.

Lemma post_load_image p : post (_load_image prim fs p) rgb_array.
Proof.
  unfold _load_image. destruct (fs p) as [|img] eqn:Hp; [apply post_raise|].
  destruct (Hfs p img Hp) as (h & w & Hh & Hw & Himg).
  destruct (is_RGB (mode img)) eqn:Hm; apply post_ret; exists h, w.
  - destruct (mode img); try discriminate. done.
  - split; [done|]. split; [done|].
    pose proof (Hprim (PIL_convert_RGB (mode img)) (raster img)) as Hlaw.
    by rewrite (shape_of_has_shape _ _ _ _ Himg Hh Hw) in Hlaw.
Qed.

Lemma post_to_categorical index nc :
  post (_to_categorical index nc) (fun c => length c = nc).
Proof.
  unfold _to_categorical. destruct (index <? nc); [|apply post_raise].
  apply post_ret. by rewrite length_insert, length_replicate.
Qed.

Lemma post_mix_images r h w c X_i X_t :
  shaped h w c X_i -> post (mix_images r X_i X_t) (shaped h w c).
Proof.
  intros [Hl Hrows]. unfold mix_images.
  eapply post_weaken.
  { eapply (post_zip_strict _ (pixel_row_ok w c) (pixel_row_ok w c)); [|exact Hrows].
    intros row_i row_t [Hw Hpx].
    eapply post_weaken.
    { eapply (post_zip_strict _ (fun px : pixel => length px = c)
                (fun px : pixel => length px = c)); [|exact Hpx].
      intros px_i px_t Hc.
      eapply post_weaken.
      { eapply (post_zip_strict _ (fun _ => True) (fun _ => True)).
        - intros a b _. apply post_true.
        - apply Forall_true. done. }
      intros px [Hlen _]. simpl in Hlen. lia. }
    intros row [Hlen Hrow]. split; [simpl in Hlen; lia|done]. }
  intros img [Hlen Himg]. split; [simpl in Hlen; lia|done].
Qed.

Lemma post_mix_labels r c_i c_t :
  post (mix_labels r c_i c_t) (fun c => length c = length c_i).
Proof.
  unfold mix_labels. eapply post_weaken.
  { eapply (post_zip_strict _ (fun _ => True) (fun _ => True)).
    - intros a b _. apply post_true.
    - apply Forall_true. done. }
  intros c [Hlen _]. done.
Qed.

Lemma post_generate_instance fuel X y nc da index :
  post (_generate_instance prim fs fuel X y (aug1 prim da) (aug2 da) nc da index)
       (sample_ok nc).
Proof.
  unfold _generate_instance.
  eapply post_bind; [apply post_true|]. intros X_i _.
  eapply post_bind; [apply post_true|]. intros y_i _.
  eapply post_bind; [apply post_load_image|]. intros img Himg.
  eapply post_bind; [by apply post_aug1|]. intros X1 HX1.
  eapply post_bind; [apply post_to_categorical|]. intros c1 Hc1.
  eapply (post_bind _ _ (sample_ok nc)).
  - destruct da; [|by apply post_ret].
    eapply post_bind; [apply post_true|]. intros t _.
    eapply post_bind; [apply post_true|]. intros X_t _.
    eapply post_bind; [apply post_true|]. intros y_t _.
    eapply post_bind; [apply post_load_image|]. intros img_t Himg_t.
    eapply post_bind; [by apply post_aug1|]. intros X2 HX2.
    eapply post_bind; [apply post_to_categorical|]. intros c2 Hc2.
    eapply post_bind; [apply post_true|]. intros r _.
    eapply post_bind; [by apply (post_mix_images r 331 331 3)|]. intros Xm HXm.
    eapply post_bind; [apply post_mix_labels|]. intros cm Hcm.
    apply post_ret. split; [done|]. simpl in *. congruence.
  - intros [Xm cm] [HXm Hcm].
    eapply post_bind; [by apply (keeps_aug2 (331, 331, 3) da)|]. intros Xn HXn.
    by apply post_ret.
Qed.

End Batches.


(** * The index lists of [_generate] *)

Lemma next_shuffled_indices_total N fuel batch_size acc st g :
  1 <= N -> stream_inv N st ->
  length acc < batch_size -> batch_size - length acc + 1 <= fuel ->
  Forall (fun i => i < N) acc ->
  exists batch_indices st' g',
    next_shuffled_indices fuel batch_size acc st g = Ok (batch_indices, st', g')
    /\ length batch_indices = batch_size
    /\ stream_inv N st'
    /\ Forall (fun i => i < N) batch_indices.
Proof.
  intros HN. revert acc st g.
  induction fuel as [|fuel IH]; intros acc st g Hinv Hacc Hfuel Hlt; [lia|].
  cbn [next_shuffled_indices].
  destruct (indices_next_total N (S fuel) st g HN ltac:(lia) Hinv)
    as (index & st1 & g1 & Hnext & Hinv1 & Hindex).
  rewrite (bind_Ok _ _ _ _ _ Hnext). cbn beta iota.
  assert (Forall (fun i => i < N) (acc ++ [index])) as Hlt'.
  { apply Forall_app. split; [done|]. by constructor. }
  destruct (length (acc ++ [index]) =? batch_size) eqn:Hfull.
  - apply Nat.eqb_eq in Hfull. by exists (acc ++ [index]), st1, g1.
  - apply Nat.eqb_neq in Hfull. rewrite length_app in Hfull; simpl in Hfull.
    apply IH; [done|rewrite length_app; simpl; lia|rewrite length_app; simpl; lia|done].
Qed.

Lemma next_sequential_indices_eq fuel batch_size N i g :
  1 <= N -> 2 <= fuel ->
  let i0 := if i <? N then i else 0 in
  next_sequential_indices fuel batch_size N i g
  = Ok (seq i0 (Nat.min (i0 + batch_size) N - i0), i0 + batch_size, g).
Proof.
  intros HN Hf. destruct fuel as [|[|fuel]]; [lia|lia|].
  cbn [next_sequential_indices].
  destruct (i <? N) eqn:Hi; [done|].
  destruct (0 <? N) eqn:H0; [done|]. apply Nat.ltb_ge in H0. lia.
Qed.


(** * The example inputs are lawful; the rows of [next()] *)

Lemma prim_fill_law : prim_law prim_fill.
Proof.
  intros op img. unfold prim_fill.
  destruct (prim_shape op (shape_of img)) as [[h w] c].
  split; [by rewrite length_replicate|].
  apply Forall_replicate. split; [by rewrite length_replicate|].
  apply Forall_replicate. by rewrite length_replicate.
Qed.

Lemma fs_demo_ok : fs_ok fs_demo.
Proof.
  intros p img. unfold fs_demo.
  destruct (String.eqb p "broken.jpg"); [done|].
  destruct (String.eqb p "gray.png"); intros [= <-].
  - exists 1, 1. repeat split; try lia; repeat constructor.
  - exists 1, 2. repeat split; try lia; repeat constructor.
Qed.

(** The rows of the batch [next()] builds from the generator state [st]. *)
Lemma generate_next_post prim fs fuel scheduler X y batch_size num_classes da st :
  prim_law prim -> fs_ok fs ->
  1 <= length X -> 1 <= batch_size -> batch_size + 1 <= fuel ->
  gen_state_ok (length X) st ->
  post (_generate_next prim fs fuel scheduler X y batch_size num_classes da st)
    (fun '(b, st') =>
       let n := match st with
                | Shuffled _ => batch_size
                | Sequential i =>
                    let i0 := if i <? length X then i else 0 in
                    Nat.min (i0 + batch_size) (length X) - i0
                end in
       length (fst b) = n /\ length (snd b) = n /\
       Forall (sample_ok num_classes) (zip (fst b) (snd b))).
Proof.
  intros Hprim Hfs HN HB Hfuel Hst g [b st'] g' Hrun.
  unfold _generate_next in Hrun.
  destruct (batch_size =? 0) eqn:HB0; [apply Nat.eqb_eq in HB0; lia|].
  assert (forall bi, post (_generate_batch prim fs fuel X y (aug1 prim da) (aug2 da)
                             num_classes da bi (scheduler (length bi)))
            (fun b => length (fst b) = length bi /\ length (snd b) = length bi /\
                      Forall (sample_ok num_classes) (zip (fst b) (snd b)))) as Hbatch.
  { intros bi. apply post_generate_batch_rows. intros index.
    by apply post_generate_instance. }
  destruct st as [indices|i].
  - destruct (next_shuffled_indices_total (length X) fuel batch_size [] indices g)
      as (bi & st1 & g1 & Hnext & Hlen & _ & _);
      [done|done|simpl; lia|simpl; lia|constructor|].
    rewrite (bind_Ok _ _ _ _ _ Hnext) in Hrun. cbn beta iota in Hrun.
    apply bind_inv_Ok in Hrun as (b' & g2 & Hb & Hret).
    unfold ret in Hret. injection Hret as <- <- <-.
    apply Hbatch in Hb. by rewrite Hlen in Hb.
  - rewrite (bind_Ok _ _ _ _ _ (next_sequential_indices_eq fuel batch_size (length X) i g
                                   HN ltac:(lia))) in Hrun.
    cbn beta iota in Hrun.
    apply bind_inv_Ok in Hrun as (b' & g2 & Hb & Hret).
    unfold ret in Hret. injection Hret as <- <- <-.
    apply Hbatch in Hb. by rewrite length_seq in Hb.
Qed.

Lemma Forall_zip_fst {A B} (P : A -> Prop) (R : A * B -> Prop) (l : list A) (k : list B) :
  length l = length k -> (forall x, R x -> P (fst x)) -> Forall R (zip l k) -> Forall P l.
Proof.
  intros Hlen HR H. rewrite <- (fst_zip l k) by lia.
  apply Forall_fmap. eapply Forall_impl; [exact H|]. exact HR.
Qed.

Lemma Forall_zip_snd {A B} (P : B -> Prop) (R : A * B -> Prop) (l : list A) (k : list B) :
  length l = length k -> (forall x, R x -> P (snd x)) -> Forall R (zip l k) -> Forall P k.
Proof.
  intros Hlen HR H. rewrite <- (snd_zip l k) by lia.
  apply Forall_fmap. eapply Forall_impl; [exact H|]. exact HR.
Qed.



(** C2.  When the batch assembler returns, row [k] of the batch is the
    (image, label) pair that the per-sample computation returned for the
    [k]-th index of the request, whatever the order [schedule] in which the
    workers finished, and every job of the request has finished. *)
Theorem batch_rows_in_request_order prim fs fuel X y a1 a2 num_classes da
    batch_indices schedule g b g' :
  _generate_batch prim fs fuel X y a1 a2 num_classes da batch_indices schedule g
    = Ok (b, g') ->
  length (fst b) = length batch_indices /\
  length (snd b) = length batch_indices /\
  forall k index, batch_indices !! k = Some index ->
    k ∈ schedule /\
    exists X_k c_k g1 g2,
      _generate_instance prim fs fuel X y a1 a2 num_classes da index g1
        = Ok ((X_k, c_k), g2)
      /\ fst b !! k = Some X_k /\ snd b !! k = Some c_k.
Proof.
  intros Hrun. unfold _generate_batch in Hrun.
  apply bind_inv_Ok in Hrun as (results & g1 & Hpar & Hret).
  apply post_parallel in Hpar as [Hlen Hres]. rewrite length_map in Hlen.
  destruct results as [|r0 results]; [done|].
  remember (r0 :: results) as rs eqn:Hrs. clear Hrs.
  unfold ret in Hret. injection Hret as <- <-. cbn [fst snd].
  rewrite !length_map. split; [done|]. split; [done|].
  intros k index Hk.
  destruct (lookup_lt_is_Some_2 rs k) as [[X_k c_k] Hr].
  { rewrite Hlen. by eapply lookup_lt_Some. }
  destruct (Hres k _ Hr) as (Hin & job & ga & gb & Hjob & Hjrun).
  rewrite list_lookup_fmap, Hk in Hjob. injection Hjob as <-.
  split; [done|]. exists X_k, c_k, ga, gb.
  split; [done|]. by rewrite !list_lookup_fmap, Hr.
Qed.

(** The request [5, 2, 8, 1] whose jobs finish in the order 8, 5, 2, 1:
    the label rows come back in the order of the request. *)
Example request_5_2_8_1 :
  label_rows (_generate_batch prim_fill fs_demo 1 X_nine y_nine
                (aug1 prim_fill false) (aug2 false) 9 false [5; 2; 8; 1] [2; 0; 1; 3]
                rng_demo)
  = Some [ [0; 0; 0; 0; 0; 1; 0; 0; 0]; [0; 0; 1; 0; 0; 0; 0; 0; 0];
           [0; 0; 0; 0; 0; 0; 0; 0; 1]; [0; 1; 0; 0; 0; 0; 0; 0; 0] ]%Q.
Proof. vm_compute. reflexivity. Qed.

Lemma batch_rows_in_request_order_witness :
  exists b g',
    _generate_batch prim_fill fs_demo 1 X_nine y_nine
      (aug1 prim_fill false) (aug2 false) 9 false [5; 2; 8; 1] [2; 0; 1; 3] rng_demo
    = Ok (b, g')
    /\ length (fst b) = 4 /\ length (snd b) = 4
    /\ forall k index, [5; 2; 8; 1] !! k = Some index ->
         k ∈ [2; 0; 1; 3] /\
         exists X_k c_k g1 g2,
           _generate_instance prim_fill fs_demo 1 X_nine y_nine
             (aug1 prim_fill false) (aug2 false) 9 false index g1 = Ok ((X_k, c_k), g2)
           /\ fst b !! k = Some X_k /\ snd b !! k = Some c_k.
Proof.
  pose proof request_5_2_8_1 as Hrows.
  destruct (_generate_batch prim_fill fs_demo 1 X_nine y_nine
              (aug1 prim_fill false) (aug2 false) 9 false [5; 2; 8; 1] [2; 0; 1; 3]
              rng_demo) as [[b g']| |] eqn:Hrun; simpl in Hrows; [|done|done].
  exists b, g'. split; [reflexivity|].
  exact (batch_rows_in_request_order prim_fill fs_demo 1 X_nine y_nine
           (aug1 prim_fill false) (aug2 false) 9 false [5; 2; 8; 1] [2; 0; 1; 3]
           rng_demo b g' Hrun).
Defined.


(** * The transform operations *)

(** C3.  What the code does at magnitude 9 with the sign +1: TranslateX
    reads the output pixel [(x, y)] from [(x + 150/331, y)] and TranslateY
    from [(x, y + 150/331)].  The content moves by 150/331 of one pixel,
    less than a pixel, and not by 150/331 of the image size (150 pixels on
    a 331 pixel image, more on the padded 412 pixel image). *)
Theorem translate_offset_at_magnitude_9 (s1 s2 s3 x y : Q) :
  let data_x := Affine_data 0 0 9 0 s1 s2 1 s3 in
  let data_y := Affine_data 0 0 0 9 s1 s2 s3 1 in
  (fst (PIL_affine_source data_x x y) - x == 150 # 331)%Q /\
  (snd (PIL_affine_source data_x x y) - y == 0)%Q /\
  (snd (PIL_affine_source data_y x y) - y == 150 # 331)%Q /\
  (fst (PIL_affine_source data_y x y) - x == 0)%Q /\
  (150 # 331 < 1)%Q /\
  ~ (150 # 331 == 9 / 9 * (150 / 331) * 331)%Q /\
  ~ (150 # 331 == 9 / 9 * (150 / 331) * 412)%Q.
Proof.
  cbv zeta. unfold Affine_data, PIL_affine_source. cbn [fst snd].
  repeat split; try (field_simplify; reflexivity); try reflexivity;
    try (intros H; vm_compute in H; discriminate).
Qed.

(** C4 as stated fails: the threshold at magnitude 9 is not 256/9. *)
Lemma solarize_threshold_9_counterexample :
  ~ (Solarize_threshold 9 == 256 / 9)%Q.
Proof. intros H. vm_compute in H. discriminate. Qed.

Lemma solarize_value_ge t v : (t <= v)%Q -> solarize_value t v = (255 - v)%Q.
Proof.
  intros H. unfold solarize_value, Qltb.
  apply Qle_bool_iff in H. by rewrite H.
Qed.

Lemma solarize_value_lt t v : (v < t)%Q -> solarize_value t v = v.
Proof.
  intros H. unfold solarize_value, Qltb.
  destruct (Qle_bool t v) eqn:E; [|done].
  apply Qle_bool_iff in E. lra.
Qed.

Lemma Solarize_threshold_eq m : (Solarize_threshold m == 256 - m * (256 # 9))%Q.
Proof. unfold Solarize_threshold. field. Qed.

(** C4, as amended.  The Solarize threshold [t(m) = 256 - m*256/9] is
    non-increasing over [0, 9], with [t(0) = 256], which leaves every 8-bit
    value unchanged, and [t(9) = 0], which inverts every value; a channel
    value at or above [t(m)] becomes [255 - value], one below it is kept. *)
Theorem solarize_threshold_props (m m' v : Q) :
  (0 <= m)%Q -> (m <= m')%Q -> (m' <= 9)%Q ->
  (Solarize_threshold m' <= Solarize_threshold m)%Q /\
  (Solarize_threshold 0 == 256)%Q /\
  (Solarize_threshold 9 == 0)%Q /\
  (0 <= Solarize_threshold m <= 256)%Q /\
  ((Solarize_threshold m <= v)%Q -> solarize_value (Solarize_threshold m) v = (255 - v)%Q) /\
  ((v < Solarize_threshold m)%Q -> solarize_value (Solarize_threshold m) v = v) /\
  ((v <= 255)%Q -> solarize_value (Solarize_threshold 0) v = v) /\
  ((0 <= v)%Q -> solarize_value (Solarize_threshold 9) v = (255 - v)%Q).
Proof.
  intros H0 Hm H9.
  pose proof (Solarize_threshold_eq m) as Em.
  pose proof (Solarize_threshold_eq m') as Em'.
  pose proof (Solarize_threshold_eq 0) as E0.
  pose proof (Solarize_threshold_eq 9) as E9.
  split; [lra|]. split; [lra|]. split; [lra|]. split; [lra|].
  split; [apply solarize_value_ge|]. split; [apply solarize_value_lt|].
  split; intros Hv.
  - apply solarize_value_lt. lra.
  - apply solarize_value_ge. lra.
Qed.

Lemma solarize_threshold_props_witness :
  (0 <= 2)%Q /\ (2 <= 8)%Q /\ (8 <= 9)%Q /\
  (Solarize_threshold 8 <= Solarize_threshold 2)%Q /\
  (Solarize_threshold 0 == 256)%Q /\
  (Solarize_threshold 9 == 0)%Q /\
  (0 <= Solarize_threshold 2 <= 256)%Q /\
  ((Solarize_threshold 2 <= 200)%Q -> solarize_value (Solarize_threshold 2) 200 = (255 - 200)%Q) /\
  ((200 < Solarize_threshold 2)%Q -> solarize_value (Solarize_threshold 2) 200 = 200%Q) /\
  ((200 <= 255)%Q -> solarize_value (Solarize_threshold 0) 200 = 200%Q) /\
  ((0 <= 200)%Q -> solarize_value (Solarize_threshold 9) 200 = (255 - 200)%Q).
Proof.
  assert (0 <= 2)%Q as H0 by lra. assert (2 <= 8)%Q as H1 by lra.
  assert (8 <= 9)%Q as H2 by lra.
  split; [exact H0|]. split; [exact H1|]. split; [exact H2|].
  exact (solarize_threshold_props 2 8 200 H0 H1 H2).
Defined.


(** * The partner loop of the mixer *)

Lemma partner_pick_lt y g n : y <> [] -> partner_pick y g n < length y.
Proof.
  intros Hy. unfold partner_pick.
  assert (length y <> 0) by (destruct y; simpl; [done|lia]).
  assert (g n mod N.of_nat (length y) < N.of_nat (length y))%N
    by (apply N.mod_lt; lia).
  lia.
Qed.

(** One turn of the loop. *)
Lemma draw_partner_step fuel y y_i g :
  y <> [] ->
  draw_partner (S fuel) y y_i g =
  match y !! partner_pick y g 0 with
  | Some y_t =>
      if y_t =? y_i then draw_partner fuel y y_i (fun n => g (S n))
      else Ok (partner_pick y g 0, fun n => g (S n))
  | None => Raise IndexError
  end.
Proof.
  intros Hy. destruct y as [|y0 y']; [done|].
  cbn [draw_partner]. unfold bind at 1.
  cbn [length np_random_choice]. unfold random_interval, bind, next_raw, ret.
  unfold partner_pick. cbn [length].
  unfold getitem. destruct ((y0 :: y') !! _) as [y_t|]; [|done].
  unfold ret. by destruct (y_t =? y_i).
Qed.

Lemma partner_pick_shift y g n :
  partner_pick y (fun k => g (S k)) n = partner_pick y g (S n).
Proof. reflexivity. Qed.

Lemma draw_partner_hang fuel y y_i g :
  y <> [] ->
  (forall n y_t, n < fuel -> y !! partner_pick y g n = Some y_t -> y_t = y_i) ->
  draw_partner fuel y y_i g = Hang.
Proof.
  intros Hy. revert g. induction fuel as [|fuel IH]; intros g Hsame; [done|].
  rewrite draw_partner_step by done.
  destruct (lookup_lt_is_Some_2 y (partner_pick y g 0)) as [y_t Ht];
    [by apply partner_pick_lt|].
  rewrite Ht. rewrite (Hsame 0 y_t) by (lia || done). rewrite Nat.eqb_refl.
  apply IH. intros n y_t' Hn. rewrite partner_pick_shift. apply Hsame. lia.
Qed.

Lemma draw_partner_found y y_i g n y_t :
  y <> [] ->
  y !! partner_pick y g n = Some y_t -> y_t <> y_i ->
  exists t g' y_t', draw_partner (S n) y y_i g = Ok (t, g')
                    /\ y !! t = Some y_t' /\ y_t' <> y_i.
Proof.
  intros Hy. revert g. induction n as [|n IH]; intros g Hn Hne.
  - rewrite draw_partner_step by done. rewrite Hn.
    rewrite (proj2 (Nat.eqb_neq y_t y_i) Hne). eauto 10.
  - rewrite draw_partner_step by done.
    destruct (lookup_lt_is_Some_2 y (partner_pick y g 0)) as [y0 H0];
      [by apply partner_pick_lt|].
    rewrite H0. destruct (y0 =? y_i) eqn:E.
    + apply IH; [|done]. by rewrite partner_pick_shift.
    + apply Nat.eqb_neq in E. eauto 10.
Qed.

Lemma draw_partner_Ok fuel y y_i g t g' :
  y <> [] ->
  draw_partner fuel y y_i g = Ok (t, g') ->
  exists n y_t, n < fuel /\ t = partner_pick y g n /\ y !! t = Some y_t /\ y_t <> y_i.
Proof.
  intros Hy. revert g. induction fuel as [|fuel IH]; intros g Hrun; [done|].
  rewrite draw_partner_step in Hrun by done.
  destruct (y !! partner_pick y g 0) as [y0|] eqn:H0; [|done].
  destruct (y0 =? y_i) eqn:E.
  - destruct (IH _ Hrun) as (n & y_t & Hn & Ht & Hy_t & Hne).
    exists (S n), y_t. rewrite <- partner_pick_shift. split; [lia|done].
  - injection Hrun as <- <-. apply Nat.eqb_neq in E. exists 0, y0.
    split; [lia|done].
Qed.

(** C9.  On a non-empty label list the partner loop returns on exactly
    the random streams that at some turn draw a sample whose label differs
    from the primary's; such a stream exists if and only if the dataset
    holds such a sample.  When every sample has the primary's label the
    loop is still running after any number of turns, and the per-sample
    pipeline in training mode never returns a sample. *)
Theorem partner_loop_termination (y : list nat) (y_i : nat) (g : rng) :
  y <> [] ->
  ((exists fuel t g', draw_partner fuel y y_i g = Ok (t, g')) <->
   (exists n y_t, y !! partner_pick y g n = Some y_t /\ y_t <> y_i)) /\
  ((exists g0 fuel t g', draw_partner fuel y y_i g0 = Ok (t, g')) <->
   (exists t y_t, y !! t = Some y_t /\ y_t <> y_i)) /\
  ((forall t y_t, y !! t = Some y_t -> y_t = y_i) ->
   (forall fuel, draw_partner fuel y y_i g = Hang) /\
   (forall prim fs fuel X a1 a2 num_classes index,
      y !! index = Some y_i ->
      forall s g', _generate_instance prim fs fuel X y a1 a2 num_classes true index g
                   <> Ok (s, g'))).
Proof.
  intros Hy. split; [|split].
  - split.
    + intros (fuel & t & g' & Hrun).
      destruct (draw_partner_Ok _ _ _ _ _ _ Hy Hrun) as (n & y_t & _ & -> & Ht & Hne).
      eauto.
    + intros (n & y_t & Hn & Hne).
      destruct (draw_partner_found y y_i g n y_t Hy Hn Hne) as (t & g' & _ & Hrun & _).
      eauto.
  - split.
    + intros (g0 & fuel & t & g' & Hrun).
      destruct (draw_partner_Ok _ _ _ _ _ _ Hy Hrun) as (n & y_t & _ & _ & Ht & Hne).
      eauto.
    + intros (t & y_t & Ht & Hne).
      assert (partner_pick y (fun _ => N.of_nat t) 0 = t) as Hpick.
      { unfold partner_pick. apply lookup_lt_Some in Ht.
        rewrite N.mod_small by lia. lia. }
      destruct (draw_partner_found y y_i (fun _ => N.of_nat t) 0 y_t Hy)
        as (t' & g' & _ & Hrun & _); [by rewrite Hpick|done|].
      eauto.
  - intros Hsame. split.
    + intros fuel. apply draw_partner_hang; [done|]. intros n y_t _. apply Hsame.
    + intros prim fs fuel X a1 a2 num_classes index Hindex s g' Hrun.
      unfold _generate_instance in Hrun.
      apply bind_inv_Ok in Hrun as (X_i & g1 & _ & Hrun).
      apply bind_inv_Ok in Hrun as (y_i' & g2 & Hget & Hrun).
      unfold getitem in Hget. rewrite Hindex in Hget. injection Hget as <- <-.
      apply bind_inv_Ok in Hrun as (img & g3 & _ & Hrun).
      apply bind_inv_Ok in Hrun as (X1 & g4 & _ & Hrun).
      apply bind_inv_Ok in Hrun as (c1 & g5 & _ & Hrun).
      apply bind_inv_Ok in Hrun as ([Xm cm] & g6 & Hmix & _).
      apply bind_inv_Ok in Hmix as (t & g7 & Hloop & _).
      rewrite draw_partner_hang in Hloop; [done|done|].
      intros n y_t _. apply Hsame.
Qed.

Lemma partner_loop_termination_witness :
  [0; 1; 0] <> [] /\
  ((exists fuel t g', draw_partner fuel [0; 1; 0] 0 rng_demo = Ok (t, g')) <->
   (exists n y_t, [0; 1; 0] !! partner_pick [0; 1; 0] rng_demo n = Some y_t /\ y_t <> 0)) /\
  ((exists g0 fuel t g', draw_partner fuel [0; 1; 0] 0 g0 = Ok (t, g')) <->
   (exists t y_t, [0; 1; 0] !! t = Some y_t /\ y_t <> 0)) /\
  ((forall t y_t, [0; 1; 0] !! t = Some y_t -> y_t = 0) ->
   (forall fuel, draw_partner fuel [0; 1; 0] 0 rng_demo = Hang) /\
   (forall prim fs fuel X a1 a2 num_classes index,
      [0; 1; 0] !! index = Some 0 ->
      forall s g', _generate_instance prim fs fuel X [0; 1; 0] a1 a2 num_classes true
                     index rng_demo <> Ok (s, g'))).
Proof.
  assert ([0; 1; 0] <> @nil nat) as Hy by discriminate.
  split; [exact Hy|]. exact (partner_loop_termination [0; 1; 0] 0 rng_demo Hy).
Defined.

(** The loop on the example labels: found at the second turn; and on a
    dataset of one class it is still running after 1000 turns. *)
Example partner_loop_runs :
  (exists g', draw_partner 2 [0; 1; 0] 0 rng_demo = Ok (1, g')) /\
  draw_partner 1000 [0; 0; 0] 0 rng_demo = Hang.
Proof. split; [eexists|]; vm_compute; reflexivity. Qed.


(** * Loading *)

Lemma run_jobs_app {A} (jobs : list (M A)) pre rest slots g :
  run_jobs (pre ++ rest) jobs slots g
  = bind (run_jobs pre jobs slots) (run_jobs rest jobs) g.
Proof.
  revert slots g. induction pre as [|k pre IH]; intros slots g; simpl.
  - done.
  - destruct (jobs !! k) as [job|]; [|apply IH].
    unfold bind in *.
    destruct (job g) as [[r g1]| |]; [|done|done].
    by rewrite IH.
Qed.

Lemma generate_instance_unreadable prim fs fuel X y a1 a2 nc da index p y_i g :
  X !! index = Some p -> y !! index = Some y_i -> fs p = Unreadable ->
  _generate_instance prim fs fuel X y a1 a2 nc da index g = Raise DecodeError.
Proof.
  intros HX Hy Hp. unfold _generate_instance, getitem, bind.
  rewrite HX, Hy. unfold ret, _load_image. by rewrite Hp.
Qed.

Lemma generate_instance_unreadable_not_Ok prim fs fuel X y a1 a2 nc da index p g s g' :
  X !! index = Some p -> fs p = Unreadable ->
  _generate_instance prim fs fuel X y a1 a2 nc da index g <> Ok (s, g').
Proof.
  intros HX Hp Hrun. unfold _generate_instance in Hrun.
  apply bind_inv_Ok in Hrun as (X_i & g1 & Hget & Hrun).
  unfold getitem in Hget. rewrite HX in Hget. injection Hget as <- <-.
  apply bind_inv_Ok in Hrun as (y_i & g2 & _ & Hrun).
  apply bind_inv_Ok in Hrun as (img & g3 & Hload & _).
  unfold _load_image in Hload. by rewrite Hp in Hload.
Qed.

(** A returned batch means every job of the request returned. *)
Lemma generate_batch_Ok_jobs prim fs fuel X y a1 a2 nc da batch_indices schedule g b g' :
  _generate_batch prim fs fuel X y a1 a2 nc da batch_indices schedule g = Ok (b, g') ->
  forall k index, batch_indices !! k = Some index ->
    exists s g1 g2, _generate_instance prim fs fuel X y a1 a2 nc da index g1 = Ok (s, g2).
Proof.
  intros Hrun k index Hk. unfold _generate_batch in Hrun.
  apply bind_inv_Ok in Hrun as (results & g1 & Hpar & _).
  apply post_parallel in Hpar as [Hlen Hres]. rewrite length_map in Hlen.
  destruct (lookup_lt_is_Some_2 results k) as [s Hs].
  { rewrite Hlen. by eapply lookup_lt_Some. }
  destruct (Hres k s Hs) as (_ & job & ga & gb & Hjob & Hjrun).
  rewrite list_lookup_fmap, Hk in Hjob. injection Hjob as <-. eauto.
Qed.

(** C8.  A file that decodes loads: an RGB raster as it is, any other
    mode through PIL's conversion to RGB, and the result is a three-channel
    array; the load fails, with the decode error, exactly on the files that
    do not decode.  A batch holding such a file is never returned: the
    error of its job is the outcome of the batch call once the jobs
    finished before it have succeeded. *)
Theorem load_image_outcomes prim fs (p : path) (g : rng) :
  prim_law prim -> fs_ok fs ->
  (forall img, fs p = Decodable img ->
     _load_image prim fs p g
     = Ok (if is_RGB (mode img) then raster img
           else prim (PIL_convert_RGB (mode img)) (raster img), g)
     /\ exists h w, has_shape (h, w, 3)
                      (if is_RGB (mode img) then raster img
                       else prim (PIL_convert_RGB (mode img)) (raster img))) /\
  (fs p = Unreadable <-> _load_image prim fs p g = Raise DecodeError) /\
  (fs p = Unreadable <-> forall arr g', _load_image prim fs p g <> Ok (arr, g')) /\
  (fs p = Unreadable ->
   forall fuel X y a1 a2 num_classes da batch_indices schedule k index,
     batch_indices !! k = Some index -> X !! index = Some p ->
     (forall b g', _generate_batch prim fs fuel X y a1 a2 num_classes da
                     batch_indices schedule g <> Ok (b, g')) /\
     (forall pre rest slots g1 y_i,
        schedule = pre ++ k :: rest -> y !! index = Some y_i ->
        run_jobs pre
          (map (_generate_instance prim fs fuel X y a1 a2 num_classes da) batch_indices)
          (replicate (length batch_indices) None) g = Ok (slots, g1) ->
        _generate_batch prim fs fuel X y a1 a2 num_classes da batch_indices schedule g
        = Raise DecodeError)).
Proof.
  intros Hprim Hfs. split; [|split; [|split]].
  - intros img Hp. split.
    + unfold _load_image. rewrite Hp. by destruct (is_RGB (mode img)).
    + assert (post (_load_image prim fs p) (rgb_array)) as Hpost
        by (by apply post_load_image).
      assert (_load_image prim fs p g
              = Ok (if is_RGB (mode img) then raster img
                    else prim (PIL_convert_RGB (mode img)) (raster img), g)) as Hrun.
      { unfold _load_image. rewrite Hp. by destruct (is_RGB (mode img)). }
      destruct (Hpost _ _ _ Hrun) as (h & w & _ & _ & Hshape). eauto.
  - unfold _load_image. destruct (fs p) as [|img]; [done|].
    split; [done|]. by destruct (is_RGB (mode img)).
  - unfold _load_image. destruct (fs p) as [|img]; [done|].
    split; [done|]. intros Hno. exfalso.
    destruct (is_RGB (mode img)); by eapply Hno.
  - intros Hp fuel X y a1 a2 num_classes da batch_indices schedule k index Hk HX. split.
    + intros b g' Hrun.
      destruct (generate_batch_Ok_jobs _ _ _ _ _ _ _ _ _ _ _ _ _ _ Hrun k index Hk)
        as (s & g1 & g2 & Hjob).
      by eapply generate_instance_unreadable_not_Ok.
    + intros pre rest slots g1 y_i -> Hy Hpre.
      unfold _generate_batch, parallel. unfold bind at 1. unfold bind at 1.
      rewrite length_map, run_jobs_app. unfold bind at 1. rewrite Hpre.
      cbn [run_jobs]. rewrite list_lookup_fmap, Hk. cbn [fmap option_fmap option_map].
      unfold bind at 1.
      by rewrite (generate_instance_unreadable _ _ _ _ _ _ _ _ _ _ p y_i g1 HX Hy Hp).
Qed.

Lemma load_image_outcomes_witness :
  prim_law prim_fill /\ fs_ok fs_demo /\
  _load_image prim_fill fs_demo "gray.png"%string rng_demo
    = Ok (prim_fill (PIL_convert_RGB ModeL) [[[7%Q]]], rng_demo) /\
  (fs_demo "broken.jpg"%string = Unreadable <->
   _load_image prim_fill fs_demo "broken.jpg"%string rng_demo = Raise DecodeError).
Proof.
  split; [apply prim_fill_law|]. split; [apply fs_demo_ok|]. split.
  - destruct (load_image_outcomes prim_fill fs_demo "gray.png"%string rng_demo
                prim_fill_law fs_demo_ok) as (Hok & _).
    destruct (Hok _ eq_refl) as [Hrun _]. exact Hrun.
  - destruct (load_image_outcomes prim_fill fs_demo "broken.jpg"%string rng_demo
                prim_fill_law fs_demo_ok) as (_ & Hbad & _).
    exact Hbad.
Defined.

(** A batch over a directory with a broken file: the decode error is the
    outcome of the batch call, in either order of completion. *)
Example broken_file_fails_the_batch :
  _generate_batch prim_fill fs_demo 1 X_bad [0; 1] (aug1 prim_fill false) (aug2 false)
    2 false [0; 1] [0; 1] rng_demo = Raise DecodeError
  /\ _generate_batch prim_fill fs_demo 1 X_bad [0; 1] (aug1 prim_fill false) (aug2 false)
       2 false [0; 1] [1; 0] rng_demo = Raise DecodeError.
Proof. split; vm_compute; reflexivity. Qed.


(** * Normalization and cutout *)

Lemma random_random_eq g :
  random_random g = Ok (unit_draw g 0, fun n => g (S n)).
Proof. reflexivity. Qed.

Lemma unit_draw_lt_1 g n : Qltb (unit_draw g n) 1 = true.
Proof.
  apply (random_random_lt_1 (fun k => g (n + k)) (unit_draw g n) (fun k => g (n + S k))).
  unfold random_random, bind, next_raw, ret, unit_draw. by rewrite Nat.add_0_r.
Qed.

Lemma with_p_run p (t : transform) img g :
  with_p p t img g
  = if Qltb (unit_draw g 0) p then t img (fun n => g (S n))
    else Ok (img, fun n => g (S n)).
Proof.
  unfold with_p, bind. rewrite random_random_eq. by destruct (Qltb _ p).
Qed.

Lemma with_p_1_run (t : transform) img g :
  with_p 1 t img g = t img (fun n => g (S n)).
Proof. by rewrite with_p_run, unit_draw_lt_1. Qed.

Lemma A_Compose_1_run ts img g :
  A_Compose ts 1 false img g = run_transforms ts img (fun n => g (S n)).
Proof.
  unfold A_Compose, need_to_run, bind. rewrite random_random_eq.
  unfold ret. by rewrite unit_draw_lt_1.
Qed.

Lemma np_random_randint_eq n g :
  0 < n ->
  np_random_randint n g = Ok (N.to_nat (g 0 mod N.of_nat n), fun k => g (S k)).
Proof. intros Hn. destruct n as [|n]; [lia|]. reflexivity. Qed.

Lemma has_shape_normalize s mean std img :
  has_shape s img -> has_shape s (F_normalize mean std img).
Proof. apply has_shape_map3. Qed.

Lemma set_region_zero_lookup y1 y2 x1 x2 (img : image) i j row px :
  img !! i = Some row -> row !! j = Some px ->
  exists row', set_region_zero y1 y2 x1 x2 img !! i = Some row' /\
    row' !! j = Some (if (y1 <=? i) && (i <? y2) && (x1 <=? j) && (j <? x2)
                      then map (fun _ => 0%Q) px else px).
Proof.
  intros Hi Hj. unfold set_region_zero, image, pixel in *. rewrite list_lookup_imap, Hi.
  cbn [fmap option_fmap option_map].
  eexists. split; [reflexivity|]. by rewrite list_lookup_imap, Hj.
Qed.

(** What [aug2] returns on a non-empty image: the third draw of
    [random.random()] is the gate of the Cutout transform, the two draws
    after it place the box. *)
Lemma aug2_runs (img : image) (h w c : nat) (g : rng) :
  has_shape (h, w, c) img -> 0 < h -> 0 < w ->
  let n := F_normalize (1 # 2) (1 # 2) img in
  let y := N.to_nat (g 3%nat mod N.of_nat h) in
  let x := N.to_nat (g 4%nat mod N.of_nat w) in
  (exists g', aug2 true img g
              = Ok (if Qltb (unit_draw g 2) (1 # 2)
                    then set_region_zero (y - 8) (Nat.min (y + 8) h)
                                         (x - 8) (Nat.min (x + 8) w) n
                    else n, g')) /\
  (exists g', aug2 false img g = Ok (n, g')).
Proof.
  intros Himg Hh Hw. cbv zeta.
  assert (shape_of (F_normalize (1 # 2) (1 # 2) img) = (h, w, c)) as Hshape.
  { apply shape_of_has_shape; [by apply has_shape_normalize|done|done]. }
  assert (g 3%nat mod N.of_nat h < N.of_nat h)%N as Hy by (apply N.mod_lt; lia).
  assert (g 4%nat mod N.of_nat w < N.of_nat w)%N as Hx by (apply N.mod_lt; lia).
  split.
  - unfold aug2. rewrite A_Compose_1_run. cbn [run_transforms].
    unfold bind at 1. rewrite with_p_1_run. unfold A_Normalize_apply at 1. unfold ret at 1.
    unfold bind at 1. rewrite with_p_run.
    change (unit_draw (fun n => g (S (S n))) 0) with (unit_draw g 2).
    destruct (Qltb (unit_draw g 2) (1 # 2)); [|eexists; reflexivity].
    cbn [F_cutout]. rewrite Hshape.
    unfold bind at 1. rewrite np_random_randint_eq by done.
    unfold bind at 1. rewrite np_random_randint_eq by done.
    cbn beta. unfold ret. change (16 / 2) with 8.
    set (ym := (g 3%nat mod N.of_nat h)%N) in *.
    set (xm := (g 4%nat mod N.of_nat w)%N) in *. clearbody ym xm.
    rewrite (Nat.min_l (_ - 8) h) by lia. rewrite (Nat.min_l (_ - 8) w) by lia.
    eexists. reflexivity.
  - unfold aug2. rewrite A_Compose_1_run. cbn [run_transforms].
    unfold bind at 1. rewrite with_p_1_run. unfold A_Normalize_apply, ret.
    eexists. reflexivity.
Qed.

(** C7, as amended.  In training mode the normalized sample gets at most
    one cutout: when the gate draw of the Cutout transform is below 1/2, the
    16 by 16 box centred on a random pixel [(y, x)] of the image, clipped to
    the image bounds, is set to zero in every channel; otherwise the
    normalized sample is returned unchanged.  The box lies within bounds
    and is at most 16 by 16.  In evaluation mode no cutout is applied. *)
Theorem cutout_after_normalize (img : image) (h w c : nat) (g : rng) :
  has_shape (h, w, c) img -> 0 < h -> 0 < w ->
  let n := F_normalize (1 # 2) (1 # 2) img in
  let y := N.to_nat (g 3%nat mod N.of_nat h) in
  let x := N.to_nat (g 4%nat mod N.of_nat w) in
  let y1 := y - 8 in
  let y2 := Nat.min (y + 8) h in
  let x1 := x - 8 in
  let x2 := Nat.min (x + 8) w in
  (exists g', aug2 true img g
              = Ok (if Qltb (unit_draw g 2) (1 # 2)
                    then set_region_zero y1 y2 x1 x2 n else n, g')) /\
  (exists g', aug2 false img g = Ok (n, g')) /\
  (y1 < y2 <= h /\ x1 < x2 <= w /\ y2 - y1 <= 16 /\ x2 - x1 <= 16) /\
  (forall i j row px, n !! i = Some row -> row !! j = Some px ->
     exists row', set_region_zero y1 y2 x1 x2 n !! i = Some row' /\
       row' !! j = Some (if (y1 <=? i) && (i <? y2) && (x1 <=? j) && (j <? x2)
                         then map (fun _ => 0%Q) px else px)).
Proof.
  intros Himg Hh Hw. cbv zeta.
  destruct (aug2_runs img h w c g Himg Hh Hw) as [Htrain Heval].
  split; [exact Htrain|]. split; [exact Heval|]. split.
  - assert (g 3%nat mod N.of_nat h < N.of_nat h)%N as Hy by (apply N.mod_lt; lia).
    assert (g 4%nat mod N.of_nat w < N.of_nat w)%N as Hx by (apply N.mod_lt; lia).
    set (ym := (g 3%nat mod N.of_nat h)%N) in *.
    set (xm := (g 4%nat mod N.of_nat w)%N) in *. clearbody ym xm. lia.
  - intros i j row px. apply set_region_zero_lookup.
Qed.

Lemma has_shape_replicate h w (px : pixel) :
  has_shape (h, w, length px) (replicate h (replicate w px)).
Proof.
  split; [by rewrite length_replicate|].
  apply Forall_replicate. split; [by rewrite length_replicate|].
  by apply Forall_replicate.
Qed.

(** On the white 20 by 20 image: with the draws of [rng_demo] the gate
    opens and the box around the pixel (4, 11), clipped at the top edge, is
    12 rows by 16 columns; with every gate draw at 1/2 nothing is cut out;
    in evaluation mode nothing is cut out either. *)
Example cutout_runs :
  option_map zero_pixels (image_of (aug2 true img_white rng_demo)) = Some (12 * 16)
  /\ option_map zero_pixels (image_of (aug2 true img_white rng_half)) = Some 0
  /\ option_map zero_pixels (image_of (aug2 false img_white rng_demo)) = Some 0.
Proof. repeat split; vm_compute; reflexivity. Qed.

(** C7 as stated fails: a training sample can leave the stage with no
    16 by 16 region of zeros in it. *)
Lemma cutout_always_counterexample :
  ~ (forall (img : image) (h w : nat) (g : rng) (img' : image) (g' : rng),
       has_shape (h, w, 3) img -> 16 <= h -> 16 <= w ->
       aug2 true img g = Ok (img', g') ->
       exists y0 x0, y0 + 16 <= h /\ x0 + 16 <= w /\
         forall i j, y0 <= i < y0 + 16 -> x0 <= j < x0 + 16 ->
           exists row px, img' !! i = Some row /\ row !! j = Some px /\
                          Forall (fun v => v == 0)%Q px).
Proof.
  intros Hclaim.
  assert (exists v, ~ (v == 0)%Q /\
            F_normalize (1 # 2) (1 # 2) img_white = replicate 20 (replicate 20 [v; v; v]))
    as (v & Hv & Hn).
  { eexists. split; [|vm_compute; reflexivity]. intros H. vm_compute in H. discriminate. }
  destruct (aug2_runs img_white 20 20 3 rng_half (has_shape_replicate 20 20 _))
    as ([g' Hrun] & _); [lia|lia|].
  change (Qltb (unit_draw rng_half 2) (1 # 2)) with false in Hrun. cbv iota in Hrun.
  destruct (Hclaim img_white 20 20 rng_half _ g' (has_shape_replicate 20 20 [255; 255; 255]%Q)
              ltac:(lia) ltac:(lia) Hrun) as (y0 & x0 & Hy0 & Hx0 & Hbox).
  destruct (Hbox y0 x0 ltac:(lia) ltac:(lia)) as (row & px & Hrow & Hpx & Hzero).
  rewrite Hn in Hrow. unfold image, pixel in *.
  apply lookup_replicate in Hrow as [-> _].
  apply lookup_replicate in Hpx as [-> _].
  apply Forall_cons in Hzero as [Hzero _]. done.
Qed.

Lemma cutout_after_normalize_witness :
  has_shape (20, 20, 3) img_white /\ 0 < 20 /\ 0 < 20 /\
  (exists g', aug2 true img_white rng_demo
              = Ok (set_region_zero 0 12 3 19 (F_normalize (1 # 2) (1 # 2) img_white), g')) /\
  (exists g', aug2 false img_white rng_demo
              = Ok (F_normalize (1 # 2) (1 # 2) img_white, g')).
Proof.
  assert (has_shape (20, 20, 3) img_white) as Hshape by apply (has_shape_replicate 20 20).
  assert (0 < 20) as H20 by lia.
  split; [exact Hshape|]. split; [exact H20|]. split; [exact H20|].
  destruct (cutout_after_normalize img_white 20 20 3 rng_demo Hshape H20 H20)
    as (Htrain & Heval & _).
  split; [exact Htrain|exact Heval].
Defined.


(** * Float rounding and the mixed label *)

Lemma Qltb_true a b : Qltb a b = true <-> (a < b)%Q.
Proof.
  unfold Qltb. rewrite negb_true_iff. split.
  - intros H. apply Qnot_le_lt. intros Hle. apply Qle_bool_iff in Hle. congruence.
  - intros H. apply not_true_is_false. rewrite Qle_bool_iff. lra.
Qed.

Lemma Qltb_false a b : Qltb a b = false <-> (b <= a)%Q.
Proof.
  unfold Qltb. rewrite negb_false_iff. apply Qle_bool_iff.
Qed.

Lemma Zrne_error x : (Qabs (inject_Z (Zrne x) - x) <= 1 # 2)%Q.
Proof.
  unfold Zrne.
  pose proof (Qfloor_le x) as Hlo. pose proof (Qlt_floor x) as Hhi.
  rewrite inject_Z_plus in Hhi. change (inject_Z 1) with 1%Q in Hhi.
  set (f := inject_Z (Qfloor x)) in *.
  apply Qabs_Qle_condition.
  destruct (Qltb (x - f) (1 # 2)) eqn:E1.
  { apply Qltb_true in E1. fold f. lra. }
  apply Qltb_false in E1.
  destruct (Qltb (1 # 2) (x - f)) eqn:E2.
  { rewrite inject_Z_plus. change (inject_Z 1) with 1%Q. fold f. lra. }
  apply Qltb_false in E2.
  destruct (Z.even (Qfloor x)).
  - fold f. lra.
  - rewrite inject_Z_plus. change (inject_Z 1) with 1%Q. fold f. lra.
Qed.

Lemma pow2_pos e : (0 < 2 ^ e)%Q.
Proof. apply Qpower_0_lt. reflexivity. Qed.

Lemma pow2_mono e e' : (e <= e')%Z -> (2 ^ e <= 2 ^ e')%Q.
Proof. intros H. apply Qpower_le_compat_l; [done|]. discriminate. Qed.

Lemma pow2_Z a : (0 <= a)%Z -> (2 ^ a == inject_Z (2 ^ a))%Q.
Proof. intros H. symmetry. apply (Zpower_Qpower 2 a H). Qed.

Lemma Qabs_frac x : Qabs x = Z.abs (Qnum x) # Qden x.
Proof. by destruct x. Qed.

(** [Qlog2] is the binary exponent. *)
Lemma Qlog2_spec x :
  ~ (x == 0)%Q -> (2 ^ Qlog2 x <= Qabs x)%Q /\ (Qabs x < 2 ^ (Qlog2 x + 1))%Q.
Proof.
  intros Hx.
  assert (0 < Z.abs (Qnum x))%Z as Hn.
  { destruct x as [n d]. unfold Qeq in Hx. simpl in *. lia. }
  set (n := Z.abs (Qnum x)) in *. set (d := Z.pos (Qden x)).
  assert (0 < d)%Z as Hd by (unfold d; lia).
  destruct (Z.log2_spec n Hn) as [Hn1 Hn2].
  destruct (Z.log2_spec d Hd) as [Hd1 Hd2].
  pose proof (Z.log2_nonneg n) as Ha. pose proof (Z.log2_nonneg d) as Hb.
  set (a := Z.log2 n) in *. set (b := Z.log2 d) in *.
  assert (Qabs x == inject_Z n / inject_Z d)%Q as Hfrac.
  { rewrite Qabs_frac. fold n. apply Qmake_Qdiv. }
  assert (0 < inject_Z d)%Q as HdQ.
  { change 0%Q with (inject_Z 0). by rewrite <- Zlt_Qlt. }
  assert (forall k, (2 ^ (a - b + k) == inject_Z (2 ^ a) * 2 ^ k / inject_Z (2 ^ b))%Q) as Hpow.
  { intros k. rewrite !Qpower_plus by discriminate.
    unfold Z.sub. rewrite Qpower_plus by discriminate. rewrite Qpower_opp.
    rewrite <- !pow2_Z by lia. field.
    intros H0. pose proof (pow2_pos b). lra. }
  assert (0 < inject_Z (2 ^ b))%Q as HbQ.
  { rewrite <- pow2_Z by lia. apply pow2_pos. }
  assert (inject_Z (2 ^ a) <= inject_Z n)%Q as Q1 by (by rewrite <- Zle_Qle).
  assert (inject_Z n < inject_Z (2 ^ Z.succ a))%Q as Q2 by (by rewrite <- Zlt_Qlt).
  assert (inject_Z (2 ^ b) <= inject_Z d)%Q as Q3 by (by rewrite <- Zle_Qle).
  assert (inject_Z d < inject_Z (2 ^ Z.succ b))%Q as Q4 by (by rewrite <- Zlt_Qlt).
  rewrite Z.pow_succ_r, inject_Z_mult in Q2, Q4 by lia.
  change (inject_Z 2) with 2%Q in Q2, Q4.
  assert (0 < inject_Z (2 ^ a))%Q as HaQ.
  { rewrite <- pow2_Z by lia. apply pow2_pos. }
  set (A := inject_Z (2 ^ a)) in *. set (B := inject_Z (2 ^ b)) in *.
  set (N := inject_Z n) in *. set (D := inject_Z d) in *.
  assert (2 ^ (a - b - 1) < N / D)%Q as Hlow.
  { replace (a - b - 1)%Z with (a - b + (-1))%Z by lia. rewrite Hpow.
    change (2 ^ (-1))%Q with (1 # 2)%Q.
    apply Qlt_shift_div_l; [done|].
    setoid_replace (A * (1 # 2) / B * D)%Q with ((A * D) / (2 * B))%Q using relation Qeq by (field; lra).
    apply Qlt_shift_div_r; [lra|]. nra. }
  assert (N / D < 2 ^ (a - b + 1))%Q as Hhigh.
  { rewrite Hpow. change (2 ^ 1)%Q with 2%Q.
    apply Qlt_shift_div_r; [done|].
    setoid_replace (A * 2 / B * D)%Q with ((A * 2 * D) / B)%Q using relation Qeq by (field; lra).
    apply Qlt_shift_div_l; [done|]. nra. }
  unfold Qlog2. fold n. fold d. fold a. fold b.
  destruct (Qle_bool (2 ^ (a - b)) (Qabs x)) eqn:E.
  - apply Qle_bool_iff in E. split; [done|]. by rewrite Hfrac.
  - assert (~ (2 ^ (a - b) <= Qabs x)%Q) as E'.
    { intros H. apply Qle_bool_iff in H. congruence. }
    apply Qnot_le_lt in E'. rewrite Hfrac. split.
    + apply Qlt_le_weak. exact Hlow.
    + replace (a - b - 1 + 1)%Z with (a - b)%Z by lia. by rewrite <- Hfrac.
Qed.

(** The rounding on known values: 0.1 and 1/3 as float32, and the floats
    1 and 1/2 unchanged. *)
Example fl32_values :
  Qred (fl32 (1 # 10)) = (13421773 # 134217728)%Q /\
  Qred (fl32 (1 # 3)) = (11184811 # 33554432)%Q /\
  Qred (fl32 1) = 1%Q /\ Qred (fl32 (1 # 2)) = (1 # 2)%Q.
Proof. repeat split; vm_compute; reflexivity. Qed.

Lemma round_float_error prec emin x :
  (Qabs (round_float prec emin x - x)
   <= 2 ^ (Z.max (Qlog2 x - prec + 1) emin) * (1 # 2))%Q.
Proof.
  unfold round_float.
  set (e := Z.max (Qlog2 x - prec + 1) emin).
  pose proof (pow2_pos e) as Hq.
  destruct (Qeq_bool x 0) eqn:E.
  - apply Qeq_bool_iff in E. apply Qabs_Qle_condition. lra.
  - pose proof (Zrne_error (x / 2 ^ e)) as Hz.
    apply Qabs_Qle_condition in Hz. apply Qabs_Qle_condition.
    set (z := inject_Z (Zrne (x / 2 ^ e))) in *.
    set (q := (2 ^ e)%Q) in *.
    assert (x == (x / q) * q)%Q as Hx by (field; lra).
    set (y := (x / q)%Q) in *. clearbody y z q. nra.
Qed.

(** float32: half an ulp, that is a relative error of 2^-24, down to the
    least exponent. *)
Lemma fl32_error x :
  (Qabs (fl32 x - x) <= (1 # 2 ^ 24) * Qabs x + (1 # 2 ^ 150))%Q.
Proof.
  assert (0 <= Qabs x)%Q as Habs by apply Qabs_nonneg.
  assert (0 < 1 # 2 ^ 150)%Q as Heta by reflexivity.
  assert (0 < 1 # 2 ^ 24)%Q as Hu by reflexivity.
  assert ((1 # 2 ^ 24) == (1 # 2 ^ 23) * (1 # 2))%Q as Hu2 by reflexivity.
  set (eta := (1 # 2 ^ 150)%Q) in *. set (u := (1 # 2 ^ 24)%Q) in *.
  assert (0 <= u * Qabs x)%Q as Hux by (apply Qmult_le_0_compat; lra).
  destruct (Qeq_dec x 0) as [Hx|Hx].
  - unfold fl32, round_float. rewrite (proj2 (Qeq_bool_iff x 0) Hx).
    apply Qabs_Qle_condition. lra.
  - unfold fl32. eapply Qle_trans; [apply round_float_error|].
    destruct (Qlog2_spec x Hx) as [Hlo _].
    destruct (Z.max_spec (Qlog2 x - 24 + 1) (-149)) as [[_ ->]|[_ ->]].
    + change (2 ^ (-149) * (1 # 2))%Q with eta. lra.
    + replace (Qlog2 x - 24 + 1)%Z with (Qlog2 x + (-23))%Z by lia.
      rewrite Qpower_plus by discriminate.
      change (2 ^ (-23))%Q with (1 # 2 ^ 23)%Q.
      set (p := (2 ^ Qlog2 x)%Q) in *. set (v := (1 # 2 ^ 23)%Q) in *.
      assert (0 < p)%Q by apply pow2_pos.
      assert (p * v * (1 # 2) == u * p)%Q as -> by (rewrite Hu2; ring).
      clearbody u eta p. nra.
Qed.

Lemma fl32_zero x : (x == 0)%Q -> fl32 x = 0%Q.
Proof.
  intros Hx. unfold fl32, round_float. by rewrite (proj2 (Qeq_bool_iff x 0) Hx).
Qed.

(** Rounding a value near [y], for [y] of [-1, 1], adds at most 2^-22. *)
Lemma fl32_near x y d :
  (y - d <= x <= y + d)%Q -> (-1 <= y <= 1)%Q -> (0 <= d <= 1)%Q ->
  (y - (d + (1 # 2 ^ 22)) <= fl32 x <= y + (d + (1 # 2 ^ 22)))%Q.
Proof.
  intros Hx Hy Hd.
  pose proof (fl32_error x) as He.
  assert (Qabs x <= 2)%Q as Habs by (apply Qabs_Qle_condition; lra).
  assert (0 <= Qabs x)%Q as Habs0 by apply Qabs_nonneg.
  assert ((1 # 2 ^ 24) * 2 + (1 # 2 ^ 150) <= 1 # 2 ^ 22)%Q as Hc by (vm_compute; discriminate).
  assert (0 < 1 # 2 ^ 24)%Q as Hu by reflexivity.
  set (u := (1 # 2 ^ 24)%Q) in *. set (eta := (1 # 2 ^ 150)%Q) in *.
  set (eps := (1 # 2 ^ 22)%Q) in *.
  assert (Qabs (fl32 x - x) <= eps)%Q as He'.
  { eapply Qle_trans; [exact He|]. clearbody u eta eps. nra. }
  apply Qabs_Qle_condition in He'. clearbody eps. lra.
Qed.

Lemma mix_value32_00 r : mix_value32 r 0 0 = 0%Q.
Proof.
  unfold mix_value32.
  rewrite (fl32_zero (0 * fl32 r)) by ring.
  rewrite (fl32_zero (0 * fl32 (1 - r))) by ring.
  rewrite (fl32_zero (0 + 0)) by ring. by apply fl32_zero.
Qed.

Lemma mix_value32_bounds r :
  (1 # 2 <= r <= 1)%Q ->
  (Qabs (mix_value32 r 1 0 + mix_value32 r 0 1 - 1) <= 1 # 100000)%Q /\
  (Qabs (mix_value32 r 1 1 - 1) <= 1 # 100000)%Q.
Proof.
  intros Hr. unfold mix_value32.
  rewrite (fl32_zero (0 * fl32 r)) by ring.
  rewrite (fl32_zero (0 * fl32 (1 - r))) by ring.
  assert (0 < 1 # 2 ^ 22)%Q as Heps by reflexivity.
  assert ((1 # 2 ^ 22) <= 1 # 1000000)%Q as Heps' by (vm_compute; discriminate).
  set (eps := (1 # 2 ^ 22)%Q) in *.
  (* the operand that carries r *)
  assert (r - 0 <= r <= r + 0)%Q as H0 by lra.
  assert (r - (0 + eps) <= fl32 r <= r + (0 + eps))%Q as H1
    by (apply fl32_near; [exact H0|lra|lra]).
  assert (r - (0 + eps) <= 1 * fl32 r <= r + (0 + eps))%Q as H1' by lra.
  assert (r - (0 + eps + eps) <= fl32 (1 * fl32 r) <= r + (0 + eps + eps))%Q as H2
    by (apply fl32_near; [exact H1'|lra|lra]).
  (* the operand that carries 1 - r *)
  assert ((1 - r) - 0 <= 1 - r <= (1 - r) + 0)%Q as K0 by lra.
  assert ((1 - r) - (0 + eps) <= fl32 (1 - r) <= (1 - r) + (0 + eps))%Q as K1
    by (apply fl32_near; [exact K0|lra|lra]).
  assert ((1 - r) - (0 + eps) <= 1 * fl32 (1 - r) <= (1 - r) + (0 + eps))%Q as K1' by lra.
  assert ((1 - r) - (0 + eps + eps) <= fl32 (1 * fl32 (1 - r))
          <= (1 - r) + (0 + eps + eps))%Q as K2
    by (apply fl32_near; [exact K1'|lra|lra]).
  set (p := fl32 (1 * fl32 r)) in *. set (q := fl32 (1 * fl32 (1 - r))) in *.
  (* the three sums *)
  assert (r - (2 * eps) <= p + 0 <= r + (2 * eps))%Q as A0 by lra.
  assert (r - (2 * eps + eps) <= fl32 (p + 0) <= r + (2 * eps + eps))%Q as A1
    by (apply fl32_near; [exact A0|lra|lra]).
  assert (r - (2 * eps + eps + eps) <= fl32 (fl32 (p + 0))
          <= r + (2 * eps + eps + eps))%Q as A2
    by (apply fl32_near; [exact A1|lra|lra]).
  assert ((1 - r) - (2 * eps) <= 0 + q <= (1 - r) + (2 * eps))%Q as B0 by lra.
  assert ((1 - r) - (2 * eps + eps) <= fl32 (0 + q) <= (1 - r) + (2 * eps + eps))%Q as B1
    by (apply fl32_near; [exact B0|lra|lra]).
  assert ((1 - r) - (2 * eps + eps + eps) <= fl32 (fl32 (0 + q))
          <= (1 - r) + (2 * eps + eps + eps))%Q as B2
    by (apply fl32_near; [exact B1|lra|lra]).
  assert (1 - (4 * eps) <= p + q <= 1 + (4 * eps))%Q as C0 by lra.
  assert (1 - (4 * eps + eps) <= fl32 (p + q) <= 1 + (4 * eps + eps))%Q as C1
    by (apply fl32_near; [exact C0|lra|lra]).
  assert (1 - (4 * eps + eps + eps) <= fl32 (fl32 (p + q))
          <= 1 + (4 * eps + eps + eps))%Q as C2
    by (apply fl32_near; [exact C1|lra|lra]).
  split; apply Qabs_Qle_condition; lra.
Qed.

(** The label arithmetic is a pure map over the two vectors. *)
Lemma mix_labels_eq r c_i c_t g :
  length c_i = length c_t ->
  mix_labels r c_i c_t g = Ok (zip_with (mix_value32 r) c_i c_t, g).
Proof.
  unfold mix_labels. revert c_t g.
  induction c_i as [|a c_i IH]; intros [|b c_t] g Hlen; simpl in *; try done.
  unfold bind at 1. unfold ret at 1. unfold bind at 1.
  rewrite IH by lia. done.
Qed.

Section OneHotSums.

Variable f : Q -> Q -> Q.
Hypothesis f00 : f 0 0 = 0%Q.

Lemma label_sum_zeros n :
  (label_sum (zip_with f (replicate n 0%Q) (replicate n 0%Q)) == 0)%Q.
Proof.
  induction n as [|n IH]; simpl; [reflexivity|]. rewrite f00, IH. ring.
Qed.

Lemma label_sum_left n a :
  a < n ->
  (label_sum (zip_with f (onehot a n) (replicate n 0%Q)) == f 1 0)%Q.
Proof.
  revert a. induction n as [|n IH]; intros [|a] Ha; try lia; unfold onehot in *; simpl.
  - rewrite label_sum_zeros. ring.
  - rewrite f00, IH by lia. ring.
Qed.

Lemma label_sum_right n b :
  b < n ->
  (label_sum (zip_with f (replicate n 0%Q) (onehot b n)) == f 0 1)%Q.
Proof.
  revert b. induction n as [|n IH]; intros [|b] Hb; try lia; unfold onehot in *; simpl.
  - rewrite label_sum_zeros. ring.
  - rewrite f00, IH by lia. ring.
Qed.

Lemma label_sum_onehots n a b :
  a < n -> b < n ->
  (label_sum (zip_with f (onehot a n) (onehot b n))
   == if a =? b then f 1 1 else f 1 0 + f 0 1)%Q.
Proof.
  revert a b. induction n as [|n IH]; intros [|a] [|b] Ha Hb; try lia;
    unfold onehot in *; simpl.
  - rewrite label_sum_zeros. ring.
  - fold (onehot b n). rewrite label_sum_right by lia. ring.
  - fold (onehot a n). rewrite label_sum_left by lia. ring.
  - rewrite f00, IH by lia. ring.
Qed.

End OneHotSums.

Lemma np_random_uniform_half g :
  exists r, np_random_uniform (1 # 2) 1 g = Ok (r, fun n => g (S n))
            /\ (1 # 2 <= r)%Q /\ (r < 1)%Q.
Proof.
  unfold np_random_uniform, bind. rewrite random_random_eq.
  eexists. split; [reflexivity|].
  destruct (random_random_range g _ _ (random_random_eq g)) as [H0 H1]. lra.
Qed.

(** C5.  The mixing ratio the mixer draws lies in [0.5, 1.0], and for
    every two one-hot vectors of one length the mixed label, computed in
    float32, has entries that sum to 1 within 1e-5. *)
Theorem mixed_label_sums_to_one (num_classes i t : nat) (g : rng) :
  i < num_classes -> t < num_classes ->
  _to_categorical i num_classes g = Ok (onehot i num_classes, g) /\
  _to_categorical t num_classes g = Ok (onehot t num_classes, g) /\
  exists r g1 c,
    np_random_uniform (1 # 2) 1 g = Ok (r, g1) /\
    (1 # 2 <= r <= 1)%Q /\
    mix_labels r (onehot i num_classes) (onehot t num_classes) g1 = Ok (c, g1) /\
    length c = num_classes /\
    (Qabs (label_sum c - 1) <= 1 # 100000)%Q.
Proof.
  intros Hi Ht.
  split. { unfold _to_categorical. by rewrite (proj2 (Nat.ltb_lt _ _) Hi). }
  split. { unfold _to_categorical. by rewrite (proj2 (Nat.ltb_lt _ _) Ht). }
  destruct (np_random_uniform_half g) as (r & Hr & Hlo & Hhi).
  assert (length (onehot i num_classes) = num_classes) as Hli
    by (unfold onehot; by rewrite length_insert, length_replicate).
  assert (length (onehot t num_classes) = num_classes) as Hlt
    by (unfold onehot; by rewrite length_insert, length_replicate).
  exists r, (fun n => g (S n)), (zip_with (mix_value32 r) (onehot i num_classes)
                                   (onehot t num_classes)).
  split; [exact Hr|]. split; [lra|].
  split; [apply mix_labels_eq; congruence|].
  split; [rewrite length_zip_with; lia|].
  rewrite (label_sum_onehots (mix_value32 r) (mix_value32_00 r) num_classes i t Hi Ht).
  destruct (mix_value32_bounds r) as [Hne Heq]; [lra|].
  destruct (i =? t); [exact Heq|exact Hne].
Qed.

Lemma mixed_label_sums_to_one_witness :
  1 < 3 /\ 2 < 3 /\
  exists r g1 c,
    np_random_uniform (1 # 2) 1 rng_demo = Ok (r, g1) /\
    (1 # 2 <= r <= 1)%Q /\
    mix_labels r (onehot 1 3) (onehot 2 3) g1 = Ok (c, g1) /\
    length c = 3 /\
    (Qabs (label_sum c - 1) <= 1 # 100000)%Q.
Proof.
  assert (1 < 3) as H1 by lia. assert (2 < 3) as H2 by lia.
  split; [exact H1|]. split; [exact H2|].
  exact (proj2 (proj2 (mixed_label_sums_to_one 3 1 2 rng_demo H1 H2))).
Defined.

(** Rounding is not vacuous: 0.9 is not a float32, and the label mixed
    from the classes 0 and 1 at the ratio 0.9 misses the sum 1 by a
    positive amount below 1e-7. *)
Example mixed_label_at_0_9 :
  ~ (fl32 (9 # 10) == 9 # 10)%Q /\
  (0 < Qabs (label_sum (zip_with (mix_value32 (9 # 10)) (onehot 0 2) (onehot 1 2)) - 1))%Q /\
  (Qabs (label_sum (zip_with (mix_value32 (9 # 10)) (onehot 0 2) (onehot 1 2)) - 1)
   < 1 # 10000000)%Q.
Proof.
  split; [intros H; vm_compute in H; discriminate|].
  split; vm_compute; reflexivity.
Qed.


(** * Evaluation mode returns *)

Section EvalMode.

Variable prim : prim_op -> image -> image.
Variable fs : path -> file.

(** Without augmentation the per-sample pipeline is a function of the
    sample: it takes four gate draws and never fails on a readable file with
    a label below [num_classes]. *)
Lemma generate_instance_eval fuel X y nc index p img y_i g :
  X !! index = Some p -> fs p = Decodable img ->
  y !! index = Some y_i -> y_i < nc ->
  _generate_instance prim fs fuel X y (aug1 prim false) (aug2 false) nc false index g
  = Ok (eval_sample prim img y_i nc, fun n => g (S (S (S (S n))))).
Proof.
  intros HX Hp Hy Hlt. unfold _generate_instance, getitem.
  rewrite HX, Hy. unfold bind at 1. unfold ret at 1. unfold bind at 1. unfold ret at 1.
  unfold bind at 1.
  assert (_load_image prim fs p g
          = Ok (if is_RGB (mode img) then raster img
                else prim (PIL_convert_RGB (mode img)) (raster img), g)) as ->.
  { unfold _load_image. rewrite Hp. by destruct (is_RGB (mode img)). }
  unfold bind at 1. unfold aug1. rewrite A_Compose_1_run. cbn [run_transforms].
  unfold bind at 1. rewrite with_p_1_run. unfold A_Resize_apply at 1. unfold ret at 1.
  unfold ret at 1.
  unfold bind at 1. unfold _to_categorical. rewrite (proj2 (Nat.ltb_lt _ _) Hlt).
  unfold ret at 1. unfold bind at 1. unfold ret at 1.
  unfold bind at 1. unfold aug2. rewrite A_Compose_1_run. cbn [run_transforms].
  unfold bind at 1. rewrite with_p_1_run. unfold A_Normalize_apply at 1. unfold ret.
  reflexivity.
Qed.

End EvalMode.

Lemma run_jobs_returns {A} (jobs : list (M A)) (vals : list A) schedule slots g :
  Forall2 returns jobs vals -> length slots = length jobs ->
  exists slots' g',
    run_jobs schedule jobs slots g = Ok (slots', g') /\
    length slots' = length jobs /\
    forall k, slots' !! k =
              if decide (k ∈ schedule /\ k < length jobs)
              then Some (vals !! k) else slots !! k.
Proof.
  intros Hjobs. revert slots g.
  induction schedule as [|j rest IH]; intros slots g Hlen; simpl.
  - exists slots, g. split; [done|]. split; [done|]. intros k.
    destruct (decide (k ∈ [] /\ k < length jobs)) as [[Hin _]|_]; [|done].
    by apply elem_of_nil in Hin.
  - destruct (jobs !! j) as [job|] eqn:Hjob.
    + destruct (Forall2_lookup_l _ _ _ _ _ Hjobs Hjob) as (v & Hv & Hret).
      destruct (Hret g) as [g1 Hrun]. rewrite (bind_Ok _ _ _ _ _ Hrun).
      destruct (IH (<[j := Some v]> slots) g1) as (slots' & g' & Hrest & Hlen' & Hslots).
      { by rewrite length_insert. }
      exists slots', g'. split; [done|]. split; [done|]. intros k.
      rewrite Hslots. apply lookup_lt_Some in Hjob.
      destruct (decide (k ∈ rest /\ k < length jobs)) as [[Hin Hk]|Hno].
      * rewrite decide_True; [done|]. split; [by right|done].
      * destruct (decide (j = k)) as [<-|Hne].
        -- rewrite decide_True by (split; [by left|done]).
           rewrite list_lookup_insert_eq by lia. by rewrite Hv.
        -- rewrite list_lookup_insert_ne by done.
           destruct (decide (k ∈ j :: rest /\ k < length jobs)) as [[Hin Hk]|_]; [|done].
           apply elem_of_cons in Hin as [->|Hin]; [done|]. exfalso. by apply Hno.
    + destruct (IH slots g Hlen) as (slots' & g' & Hrest & Hlen' & Hslots).
      exists slots', g'. split; [done|]. split; [done|]. intros k.
      rewrite Hslots. apply lookup_ge_None in Hjob.
      destruct (decide (k ∈ rest /\ k < length jobs)) as [[Hin Hk]|Hno].
      * rewrite decide_True; [done|]. split; [by right|done].
      * destruct (decide (k ∈ j :: rest /\ k < length jobs)) as [[Hin Hk]|_]; [|done].
        apply elem_of_cons in Hin as [->|Hin]; [lia|]. exfalso. by apply Hno.
Qed.

Lemma collect_slots_map_Some {A} (vals : list A) :
  collect_slots (map Some vals) = Some vals.
Proof. induction vals as [|v vals IH]; simpl; [done|]. by rewrite IH. Qed.

(** When every job returns its value and every job gets to finish, the
    call returns the values in the order of the jobs. *)
Lemma parallel_returns {A} (jobs : list (M A)) (vals : list A) schedule g :
  Forall2 returns jobs vals -> schedule ≡ₚ seq 0 (length jobs) ->
  exists g', parallel schedule jobs g = Ok (vals, g').
Proof.
  intros Hjobs Hperm. unfold parallel.
  destruct (run_jobs_returns jobs vals schedule (replicate (length jobs) None) g Hjobs)
    as (slots' & g' & Hrun & Hlen & Hslots); [by rewrite length_replicate|].
  rewrite (bind_Ok _ _ _ _ _ Hrun).
  assert (slots' = map Some vals) as ->.
  { apply list_eq. intros k. rewrite Hslots, list_lookup_fmap.
    pose proof (Forall2_length _ _ _ Hjobs) as Hl.
    destruct (decide (k < length jobs)) as [Hk|Hk].
    - rewrite decide_True.
      + destruct (lookup_lt_is_Some_2 vals k) as [v ->]; [lia|]. done.
      + split; [|done]. rewrite Hperm. apply elem_of_seq. lia.
    - rewrite decide_False by (intros [_ ?]; done).
      rewrite (lookup_ge_None_2 vals) by lia.
      apply lookup_replicate_None. lia. }
  rewrite collect_slots_map_Some. by exists g'.
Qed.

(** In evaluation mode, on readable files with valid labels, the batch
    assembler returns, and row [k] is the sample of the [k]-th index,
    whatever the order in which the jobs finish. *)
Lemma generate_batch_eval_returns prim fs fuel X y nc batch_indices schedule g samples :
  batch_indices <> [] ->
  schedule ≡ₚ seq 0 (length batch_indices) ->
  Forall2 (dataset_sample prim fs X y nc) batch_indices samples ->
  exists g',
    _generate_batch prim fs fuel X y (aug1 prim false) (aug2 false) nc false
      batch_indices schedule g
    = Ok ((map fst samples, map snd samples), g').
Proof.
  intros Hne Hperm Hsamples. unfold _generate_batch.
  destruct (parallel_returns
              (map (_generate_instance prim fs fuel X y (aug1 prim false) (aug2 false)
                      nc false) batch_indices) samples schedule g) as [g' Hpar].
  { apply Forall2_fmap_l. eapply Forall2_impl; [exact Hsamples|].
    intros index s (p & img & y_i & HX & Hp & Hy & Hlt & ->) g0.
    eexists. by apply (generate_instance_eval prim fs fuel X y nc index p img y_i). }
  { by rewrite length_map. }
  rewrite (bind_Ok _ _ _ _ _ Hpar).
  destruct samples as [|s samples]; [|by exists g'].
  apply Forall2_length in Hsamples. destruct batch_indices; [done|simpl in *; lia].
Qed.

Lemma dataset_samples prim fs X y nc batch_indices :
  dataset_ok fs X y nc -> Forall (fun i => i < length X) batch_indices ->
  exists samples, Forall2 (dataset_sample prim fs X y nc) batch_indices samples.
Proof.
  intros Hok. induction 1 as [|index rest Hindex _ [samples IH]].
  - by exists [].
  - destruct (lookup_lt_is_Some_2 X index Hindex) as [p Hp].
    destruct (Hok index p Hp) as (img & y_i & Hfs & Hy & Hlt).
    exists (eval_sample prim img y_i nc :: samples). constructor; [|done].
    by exists p, img, y_i.
Qed.

(** In evaluation mode, on a dataset of readable files with valid labels,
    every [next()] of the generator returns a batch. *)
Lemma generate_next_eval_returns prim fs fuel scheduler X y batch_size nc st g :
  dataset_ok fs X y nc ->
  (forall n, scheduler n ≡ₚ seq 0 n) ->
  1 <= length X -> 1 <= batch_size -> batch_size + 1 <= fuel ->
  gen_state_ok (length X) st ->
  exists b st' g',
    _generate_next prim fs fuel scheduler X y batch_size nc false st g = Ok (b, st', g').
Proof.
  intros Hok Hsched HN HB Hfuel Hst. unfold _generate_next.
  destruct (batch_size =? 0) eqn:HB0; [apply Nat.eqb_eq in HB0; lia|].
  assert (forall bi g0, bi <> [] -> Forall (fun i => i < length X) bi ->
            exists b g', _generate_batch prim fs fuel X y (aug1 prim false) (aug2 false)
                           nc false bi (scheduler (length bi)) g0 = Ok (b, g')) as Hbatch.
  { intros bi g0 Hne Hlt.
    destruct (dataset_samples prim fs X y nc bi Hok Hlt) as [samples Hs].
    destruct (generate_batch_eval_returns prim fs fuel X y nc bi (scheduler (length bi))
                g0 samples Hne (Hsched _) Hs) as [g' Hrun].
    eauto. }
  destruct st as [indices|i].
  - destruct (next_shuffled_indices_total (length X) fuel batch_size [] indices g)
      as (bi & st1 & g1 & Hnext & Hlen & _ & Hlt);
      [done|done|simpl; lia|simpl; lia|constructor|].
    rewrite (bind_Ok _ _ _ _ _ Hnext). cbn beta iota.
    destruct (Hbatch bi g1) as (b & g2 & Hb); [by destruct bi; simpl in *; [lia|]|done|].
    rewrite (bind_Ok _ _ _ _ _ Hb). by eexists _, _, _.
  - rewrite (bind_Ok _ _ _ _ _ (next_sequential_indices_eq fuel batch_size (length X) i g
                                   HN ltac:(lia))).
    cbn beta iota.
    set (i0 := if i <? length X then i else 0).
    assert (i0 < length X) as Hi0.
    { unfold i0. destruct (i <? length X) eqn:E; [by apply Nat.ltb_lt in E|lia]. }
    destruct (Hbatch (seq i0 (Nat.min (i0 + batch_size) (length X) - i0)) g)
      as (b & g2 & Hb).
    { intros Hnil. apply (f_equal length) in Hnil. rewrite length_seq in Hnil.
      simpl in Hnil. lia. }
    { apply Forall_forall. intros k Hk. apply elem_of_seq in Hk. lia. }
    rewrite (bind_Ok _ _ _ _ _ Hb). by eexists _, _, _.
Qed.


(** * The batches of the generator *)

Lemma dataset_demo_ok : dataset_ok fs_demo X_demo y_demo 2.
Proof.
  intros index p Hp.
  destruct index as [|[|[|index]]]; simpl in Hp; [| | |done];
    injection Hp as <-; eexists _, _; (split; [reflexivity|]); (split; [reflexivity|]);
    simpl; lia.
Qed.

(** C10.  In shuffled mode the generator always gathers exactly
    [batch_size] indices for its next batch, across reshuffles, and every
    batch it yields has exactly [batch_size] image rows and label rows, for
    every dataset of at least one sample and every positive batch size; it
    does yield when the samples can be computed, as in evaluation mode on
    readable files with valid labels. *)
Theorem shuffled_batches_are_full prim fs fuel scheduler X y batch_size num_classes
    data_augmentation indices g :
  1 <= length X -> 1 <= batch_size -> batch_size + 1 <= fuel ->
  stream_inv (length X) indices ->
  (exists batch_indices indices' g1,
      next_shuffled_indices fuel batch_size [] indices g = Ok (batch_indices, indices', g1)
      /\ length batch_indices = batch_size
      /\ stream_inv (length X) indices')
  /\ (forall b st' g',
        _generate_next prim fs fuel scheduler X y batch_size num_classes
          data_augmentation (Shuffled indices) g = Ok (b, st', g') ->
        length (fst b) = batch_size /\ length (snd b) = batch_size
        /\ gen_state_ok (length X) st')
  /\ (data_augmentation = false -> dataset_ok fs X y num_classes ->
      (forall n, scheduler n ≡ₚ seq 0 n) ->
      exists b st' g',
        _generate_next prim fs fuel scheduler X y batch_size num_classes
          data_augmentation (Shuffled indices) g = Ok (b, st', g')).
Proof.
  intros HN HB Hfuel Hinv.
  destruct (next_shuffled_indices_total (length X) fuel batch_size [] indices g)
    as (bi & st1 & g1 & Hnext & Hlen & Hinv1 & _);
    [done|done|simpl; lia|simpl; lia|constructor|].
  split; [by exists bi, st1, g1|]. split.
  - intros b st' g' Hrun. unfold _generate_next in Hrun.
    destruct (batch_size =? 0) eqn:HB0; [apply Nat.eqb_eq in HB0; lia|].
    rewrite (bind_Ok _ _ _ _ _ Hnext) in Hrun. cbn beta iota in Hrun.
    apply bind_inv_Ok in Hrun as (b' & g2 & Hbatch & Hret).
    unfold ret in Hret. injection Hret as <- <- <-.
    eapply (post_generate_batch_rows _ _ _ _ _ _ _ _ _ _ _ (fun _ => True)) in Hbatch;
      [|intros; apply post_true].
    destruct Hbatch as (Hi & Hl & _). rewrite Hlen in Hi, Hl. done.
  - intros -> Hok Hsched. by apply generate_next_eval_returns.
Qed.

Lemma shuffled_batches_are_full_witness :
  1 <= length X_demo /\ 1 <= 2 /\ 2 + 1 <= 3 /\
  stream_inv (length X_demo) (_generate_shuffled_indices 3) /\
  exists b st' g',
    _generate_next prim_fill fs_demo 3 (seq 0) X_demo y_demo 2 2 false
      (Shuffled (_generate_shuffled_indices 3)) rng_demo = Ok (b, st', g')
    /\ length (fst b) = 2 /\ length (snd b) = 2 /\ gen_state_ok (length X_demo) st'.
Proof.
  assert (stream_inv (length X_demo) (_generate_shuffled_indices 3)) as Hinv
    by (unfold stream_inv; simpl; reflexivity).
  assert (1 <= length X_demo) as HN by (simpl; lia).
  assert (1 <= 2) as HB by lia. assert (2 + 1 <= 3) as Hfuel by lia.
  split; [exact HN|]. split; [exact HB|]. split; [exact Hfuel|]. split; [exact Hinv|].
  destruct (shuffled_batches_are_full prim_fill fs_demo 3 (seq 0) X_demo y_demo 2 2 false
              (_generate_shuffled_indices 3) rng_demo HN HB Hfuel Hinv)
    as (_ & Hrows & Hreturns).
  destruct (Hreturns eq_refl dataset_demo_ok (fun n => reflexivity _))
    as (b & st' & g' & Hrun).
  exists b, st', g'. split; [exact Hrun|]. exact (Hrows b st' g' Hrun).
Defined.

(** C1, as amended.  Every batch [next()] returns is an image tensor of
    shape [rows, 331, 331, 3] with a label tensor of shape
    [rows, num_classes].  In shuffled mode [rows] is [batch_size].  In
    sequential mode the batch that starts at index [i0] has
    [min(batch_size, N - i0)] rows: [batch_size] while [i0 + batch_size <= N],
    and the tail batch has the [N - i0] remaining samples, which is
    [N mod batch_size] when [batch_size] divides [i0].  In evaluation mode
    on readable files with valid labels [next()] does return. *)
Theorem batch_shapes prim fs fuel scheduler X y batch_size num_classes
    data_augmentation st g :
  prim_law prim -> fs_ok fs ->
  1 <= length X -> 1 <= batch_size -> batch_size + 1 <= fuel ->
  gen_state_ok (length X) st ->
  (forall b st' g',
     _generate_next prim fs fuel scheduler X y batch_size num_classes
       data_augmentation st g = Ok (b, st', g') ->
     exists n,
       length (fst b) = n /\ Forall (has_shape (331, 331, 3)) (fst b) /\
       length (snd b) = n /\ Forall (fun c => length c = num_classes) (snd b) /\
       match st with
       | Shuffled _ => n = batch_size
       | Sequential i =>
           let i0 := if i <? length X then i else 0 in
           n = Nat.min batch_size (length X - i0) /\
           (i0 + batch_size <= length X -> n = batch_size) /\
           (length X < i0 + batch_size -> n = length X - i0) /\
           (length X < i0 + batch_size -> i0 mod batch_size = 0 ->
            n = length X mod batch_size)
       end)
  /\ (data_augmentation = false -> dataset_ok fs X y num_classes ->
      (forall n, scheduler n ≡ₚ seq 0 n) ->
      exists b st' g',
        _generate_next prim fs fuel scheduler X y batch_size num_classes
          data_augmentation st g = Ok (b, st', g')).
Proof.
  intros Hprim Hfs HN HB Hfuel Hst. split.
  - intros b st' g' Hrun.
    pose proof (generate_next_post prim fs fuel scheduler X y batch_size num_classes
                  data_augmentation st Hprim Hfs HN HB Hfuel Hst g (b, st') g' Hrun)
      as (Hi & Hl & Hall).
    cbv zeta in Hi, Hl. eexists. split; [exact Hi|].
    split.
    { apply (Forall_zip_fst _ (sample_ok num_classes) (fst b) (snd b)); [lia| |exact Hall].
      by intros x [? ?]. }
    split; [exact Hl|].
    split.
    { apply (Forall_zip_snd _ (sample_ok num_classes) (fst b) (snd b)); [lia| |exact Hall].
      by intros x [? ?]. }
    destruct st as [indices|i]; [done|]. cbv zeta.
    set (i0 := if i <? length X then i else 0).
    assert (i0 < length X) as Hi0.
    { unfold i0. destruct (i <? length X) eqn:E; [by apply Nat.ltb_lt in E|lia]. }
    split; [lia|]. split; [lia|]. split; [lia|].
    intros Htail Hdiv.
    apply Nat.Div0.mod_divides in Hdiv as [q Hq].
    assert (length X = (length X - i0) + q * batch_size) as HX by lia.
    rewrite HX at 2. rewrite Nat.Div0.mod_add. rewrite Nat.mod_small; lia.
  - intros -> Hok Hsched. by apply generate_next_eval_returns.
Qed.

(** The tail of a sequential pass over three samples in batches of two:
    the first [next()] returns two rows and leaves the generator at index
    2, and the batch built there has one row. *)
Example sequential_tail_rows :
  rows (_generate_next prim_fill fs_demo 3 (seq 0) X_demo y_demo 2 2 false
          (_generate X_demo false) rng_demo) = Some (2, 2)
  /\ rows (_generate_next prim_fill fs_demo 3 (seq 0) X_demo y_demo 2 2 false
             (Sequential 2) rng_demo) = Some (1, 1).
Proof. split; vm_compute; reflexivity. Qed.

(** C1 as stated fails: not every batch has [batch_size] rows. *)
Lemma batch_size_rows_counterexample :
  ~ (forall prim fs fuel scheduler X y batch_size num_classes data_augmentation
            st g b st' g',
        prim_law prim -> fs_ok fs ->
        1 <= length X -> 1 <= batch_size -> batch_size + 1 <= fuel ->
        gen_state_ok (length X) st ->
        _generate_next prim fs fuel scheduler X y batch_size num_classes
          data_augmentation st g = Ok (b, st', g') ->
        length (fst b) = batch_size /\ length (snd b) = batch_size).
Proof.
  intros Hclaim.
  destruct sequential_tail_rows as [_ Hrows].
  destruct (_generate_next prim_fill fs_demo 3 (seq 0) X_demo y_demo 2 2 false
              (Sequential 2) rng_demo) as [[[b st'] g']| |] eqn:Hrun;
    simpl in Hrows; [|done|done].
  destruct (Hclaim prim_fill fs_demo 3 (seq 0) X_demo y_demo 2 2 false
              (Sequential 2) rng_demo b st' g') as [Hlen _];
    [apply prim_fill_law|apply fs_demo_ok|simpl; lia|lia|lia|exact I|exact Hrun|].
  injection Hrows as Hrows _. lia.
Qed.

Lemma batch_shapes_witness :
  prim_law prim_fill /\ fs_ok fs_demo /\
  1 <= length X_demo /\ 1 <= 2 /\ 2 + 1 <= 3 /\
  gen_state_ok (length X_demo) (Sequential 2) /\
  exists b st' g',
    _generate_next prim_fill fs_demo 3 (seq 0) X_demo y_demo 2 2 false
      (Sequential 2) rng_demo = Ok (b, st', g')
    /\ exists n,
      length (fst b) = n /\ Forall (has_shape (331, 331, 3)) (fst b) /\
      length (snd b) = n /\ Forall (fun c => length c = 2) (snd b) /\
      n = Nat.min 2 (length X_demo - 2) /\
      (2 + 2 <= length X_demo -> n = 2) /\
      (length X_demo < 2 + 2 -> n = length X_demo - 2) /\
      (length X_demo < 2 + 2 -> 2 mod 2 = 0 -> n = length X_demo mod 2).
Proof.
  assert (1 <= length X_demo) as HN by (simpl; lia).
  assert (1 <= 2) as HB by lia. assert (2 + 1 <= 3) as Hfuel by lia.
  split; [apply prim_fill_law|]. split; [apply fs_demo_ok|].
  split; [exact HN|]. split; [exact HB|]. split; [exact Hfuel|]. split; [exact I|].
  destruct (batch_shapes prim_fill fs_demo 3 (seq 0) X_demo y_demo 2 2 false
              (Sequential 2) rng_demo prim_fill_law fs_demo_ok HN HB Hfuel I)
    as (Hshapes & Hreturns).
  destruct (Hreturns eq_refl dataset_demo_ok (fun n => reflexivity _))
    as (b & st' & g' & Hrun).
  exists b, st', g'. split; [exact Hrun|]. exact (Hshapes b st' g' Hrun).
Defined.


(** * The parameters the transform classes hand to the libraries *)

Lemma Zrne_Z z : Zrne (inject_Z z) = z.
Proof.
  unfold Zrne. rewrite Qfloor_Z.
  assert (Qltb (inject_Z z - inject_Z z) (1 # 2) = true) as ->; [|done].
  apply Qltb_true. lra.
Qed.

Lemma Zrne_floor x : (Qfloor x <= Zrne x <= Qfloor x + 1)%Z.
Proof.
  unfold Zrne. destruct (Qltb _ _); [lia|]. destruct (Qltb _ _); [lia|].
  destruct (Z.even _); lia.
Qed.

(** Rounding to the nearest integer keeps the order. *)
Lemma Zrne_mono x y : (x <= y)%Q -> (Zrne x <= Zrne y)%Z.
Proof.
  intros Hxy.
  pose proof (Qfloor_resp_le x y Hxy) as Hfl.
  pose proof (Zrne_floor x) as Hx. pose proof (Zrne_floor y) as Hy.
  destruct (Z.eq_dec (Qfloor x) (Qfloor y)) as [Heq|Hne]; [|lia].
  unfold Zrne in *. rewrite <- Heq in *.
  set (f := Qfloor x) in *. set (F := inject_Z f) in *.
  destruct (Qltb (x - F) (1 # 2)) eqn:X1.
  { destruct (Qltb (y - F) (1 # 2)); [lia|]. destruct (Qltb (1 # 2) (y - F)); [lia|].
    destruct (Z.even f); lia. }
  apply Qltb_false in X1.
  destruct (Qltb (y - F) (1 # 2)) eqn:Y1.
  { apply Qltb_true in Y1. lra. }
  destruct (Qltb (1 # 2) (x - F)) eqn:X2.
  { apply Qltb_true in X2. assert (Qltb (1 # 2) (y - F) = true) as ->; [|lia].
    apply Qltb_true. lra. }
  destruct (Qltb (1 # 2) (y - F)); [destruct (Z.even f); lia|].
  destruct (Z.even f); lia.
Qed.

Lemma Posterize_arg m : (8 - m * 4 / 9 == 8 - m * (4 # 9))%Q.
Proof. field. Qed.

(** X1.  For every magnitude of [0, 9] the bit depth [Posterize.apply]
    hands to PIL is a whole number of [4, 8], it does not grow with the
    magnitude, and over the magnitudes 0, 1, ..., 9 it is
    8, 8, 7, 7, 6, 6, 5, 5, 4, 4. *)
Theorem Posterize_bit_range (m m' : Q) :
  (0 <= m)%Q -> (m <= m')%Q -> (m' <= 9)%Q ->
  (4 <= Posterize_bit m')%Z /\ (Posterize_bit m' <= Posterize_bit m)%Z /\
  (Posterize_bit m <= 8)%Z /\
  map Posterize_bit [0; 1; 2; 3; 4; 5; 6; 7; 8; 9]%Q = [8; 8; 7; 7; 6; 6; 5; 5; 4; 4]%Z.
Proof.
  intros H0 Hm H9. unfold Posterize_bit.
  pose proof (Posterize_arg m) as Em. pose proof (Posterize_arg m') as Em'.
  split; [|split; [|split]].
  - rewrite <- (Zrne_Z 4). apply Zrne_mono. rewrite Em'.
    change (inject_Z 4) with 4%Q. lra.
  - apply Zrne_mono. rewrite Em, Em'. lra.
  - rewrite <- (Zrne_Z 8) at 2. apply Zrne_mono. rewrite Em.
    change (inject_Z 8) with 8%Q. lra.
  - vm_compute. reflexivity.
Qed.

Lemma Posterize_bit_range_witness :
  (0 <= 3)%Q /\ (3 <= 7)%Q /\ (7 <= 9)%Q /\
  (4 <= Posterize_bit 7)%Z /\ (Posterize_bit 7 <= Posterize_bit 3)%Z /\
  (Posterize_bit 3 <= 8)%Z.
Proof.
  assert (0 <= 3)%Q as H0 by lra. assert (3 <= 7)%Q as H1 by lra.
  assert (7 <= 9)%Q as H2 by lra.
  destruct (Posterize_bit_range 3 7 H0 H1 H2) as (A & B & C & _).
  repeat split; assumption.
Defined.

Lemma np_random_sign_eq g :
  exists s, np_random_sign g = Ok (s, fun n => g (S n)) /\ (s = (- (1))%Q \/ s = 1%Q).
Proof.
  unfold np_random_sign. unfold bind.
  cbn [np_random_choice]. unfold random_interval, bind, next_raw, ret.
  eexists. split; [reflexivity|]. destruct (_ =? 0); auto.
Qed.

Lemma enhance_factor_eq mag g :
  exists s, enhance_factor mag g = Ok ((1 + mag / 9 * s)%Q, fun n => g (S n))
            /\ (s = (- (1))%Q \/ s = 1%Q).
Proof.
  unfold enhance_factor, bind.
  destruct (np_random_sign_eq g) as (s & -> & Hs). by exists s.
Qed.

(** X2.  For every magnitude of [0, 9], Color, Contrast, Sharpness and
    Brightness hand PIL's enhancer one factor, [1 - m/9] or [1 + m/9]
    by the sign drawn: a factor of [0, 2], never negative, and 1 (the
    unchanged image) at magnitude 0. *)
Theorem enhance_factor_range prim (mag : Q) (img : image) (g : rng) :
  (0 <= mag)%Q -> (mag <= 9)%Q ->
  exists factor g',
    Color_apply prim mag img g = Ok (prim (PIL_ImageEnhance_Color factor) img, g') /\
    Contrast_apply prim mag img g = Ok (prim (PIL_ImageEnhance_Contrast factor) img, g') /\
    Sharpness_apply prim mag img g = Ok (prim (PIL_ImageEnhance_Sharpness factor) img, g') /\
    Brightness_apply prim mag img g = Ok (prim (PIL_ImageEnhance_Brightness factor) img, g') /\
    (factor == 1 - mag / 9 \/ factor == 1 + mag / 9)%Q /\
    (0 <= factor <= 2)%Q /\
    (mag == 0 -> factor == 1)%Q.
Proof.
  intros H0 H9.
  destruct (enhance_factor_eq mag g) as (s & Hf & Hs).
  exists (1 + mag / 9 * s)%Q, (fun n => g (S n)).
  unfold Color_apply, Contrast_apply, Sharpness_apply, Brightness_apply, bind.
  rewrite Hf. unfold ret.
  repeat (split; [reflexivity|]).
  assert (mag / 9 == mag * (1 # 9))%Q as E by field.
  destruct Hs as [-> | ->]; rewrite E.
  - split; [left; ring|]. split; [lra|]. intros ->. reflexivity.
  - split; [right; ring|]. split; [lra|]. intros ->. reflexivity.
Qed.

Lemma enhance_factor_range_witness :
  (0 <= 9)%Q /\ (9 <= 9)%Q /\
  exists factor g',
    Brightness_apply prim_fill 9 img_white rng_demo
      = Ok (prim_fill (PIL_ImageEnhance_Brightness factor) img_white, g') /\
    (0 <= factor <= 2)%Q.
Proof.
  assert (0 <= 9)%Q as H0 by lra. assert (9 <= 9)%Q as H9 by lra.
  split; [exact H0|]. split; [exact H9|].
  destruct (enhance_factor_range prim_fill 9 img_white rng_demo H0 H9)
    as (f & g' & _ & _ & _ & Hb & _ & Hr & _).
  exists f, g'. split; [exact Hb|exact Hr].
Defined.

Lemma Affine_coefficient_bound (mag k s : Q) :
  (0 <= mag)%Q -> (mag <= 9)%Q -> (0 <= k)%Q -> (s = (- (1))%Q \/ s = 1%Q) ->
  (- k <= mag / 9 * k * s <= k)%Q.
Proof.
  intros H0 H9 Hk Hs.
  assert (mag / 9 * k * s == (mag * (1 # 9)) * k * s)%Q as -> by field.
  assert (0 <= mag * (1 # 9) <= 1)%Q as Hm by lra.
  set (u := (mag * (1 # 9))%Q) in *. clearbody u.
  destruct Hs as [-> | ->]; nra.
Qed.

(** X3.  For magnitudes of [0, 9], [Affine.apply] hands PIL the
    coefficients [(1, b, c, d, 1, f)] of its four sign draws with
    [|b|, |d| <= 0.3] and [|c|, |f| <= 150/331], the fill colour
    (128, 128, 128), and the map that sends an output position to its source
    position has determinant [1 - b d >= 0.91]: it is one to one, no two
    output pixels read the same source position. *)
Theorem Affine_apply_coefficients prim (mx my tx ty : Q) (img : image) (g : rng) :
  (0 <= mx <= 9)%Q -> (0 <= my <= 9)%Q -> (0 <= tx <= 9)%Q -> (0 <= ty <= 9)%Q ->
  exists b c d f g',
    Affine_apply prim mx my tx ty img g
    = Ok (prim (PIL_transform_AFFINE (1, b, c, d, 1, f)%Q (128, 128, 128)%Q) img, g') /\
    (- (3 # 10) <= b <= 3 # 10)%Q /\ (- (3 # 10) <= d <= 3 # 10)%Q /\
    (- (150 # 331) <= c <= 150 # 331)%Q /\ (- (150 # 331) <= f <= 150 # 331)%Q /\
    (91 # 100 <= 1 - b * d)%Q /\
    (mx == 0 -> b == 0)%Q /\ (my == 0 -> d == 0)%Q /\
    forall x y x' y',
      (fst (PIL_affine_source (1, b, c, d, 1, f)%Q x y)
       == fst (PIL_affine_source (1, b, c, d, 1, f)%Q x' y'))%Q ->
      (snd (PIL_affine_source (1, b, c, d, 1, f)%Q x y)
       == snd (PIL_affine_source (1, b, c, d, 1, f)%Q x' y'))%Q ->
      (x == x' /\ y == y')%Q.
Proof.
  intros Hmx Hmy Htx Hty.
  destruct (np_random_sign_eq g) as (s1 & E1 & Hs1).
  destruct (np_random_sign_eq (fun n => g (S n))) as (s2 & E2 & Hs2).
  destruct (np_random_sign_eq (fun n => g (S (S n)))) as (s3 & E3 & Hs3).
  destruct (np_random_sign_eq (fun n => g (S (S (S n))))) as (s4 & E4 & Hs4).
  eexists _, _, _, _, _. split.
  { unfold Affine_apply. unfold bind at 1. rewrite E1.
    unfold bind at 1. rewrite E2. unfold bind at 1. rewrite E3.
    unfold bind at 1. rewrite E4. unfold ret, Affine_data. reflexivity. }
  assert (150 / 331 == 150 # 331)%Q as E150 by reflexivity.
  pose proof (Affine_coefficient_bound mx (3 # 10) s1 ltac:(lra) ltac:(lra) ltac:(lra) Hs1) as Hb.
  pose proof (Affine_coefficient_bound my (3 # 10) s2 ltac:(lra) ltac:(lra) ltac:(lra) Hs2) as Hd.
  pose proof (Affine_coefficient_bound tx (150 / 331) s3 ltac:(lra) ltac:(lra)
                ltac:(rewrite E150; lra) Hs3) as Hc.
  pose proof (Affine_coefficient_bound ty (150 / 331) s4 ltac:(lra) ltac:(lra)
                ltac:(rewrite E150; lra) Hs4) as Hf.
  rewrite E150 in Hc, Hf.
  set (b := (mx / 9 * (3 # 10) * s1)%Q) in *.
  set (d := (my / 9 * (3 # 10) * s2)%Q) in *.
  set (c := (tx / 9 * (150 / 331) * s3)%Q) in *.
  set (f := (ty / 9 * (150 / 331) * s4)%Q) in *.
  assert (91 # 100 <= 1 - b * d)%Q as Hdet by (clearbody b d; nra).
  split; [exact Hb|]. split; [exact Hd|]. split; [exact Hc|]. split; [exact Hf|].
  split; [exact Hdet|].
  split. { intros E. unfold b. rewrite E. field. }
  split. { intros E. unfold d. rewrite E. field. }
  intros x y x' y'. unfold PIL_affine_source. cbn [fst snd]. intros Ex Ey.
  clearbody b c d f.
  assert ((1 - b * d) * (x - x') == 0)%Q as Hx by nra.
  assert ((1 - b * d) * (y - y') == 0)%Q as Hy by nra.
  apply Qmult_integral in Hx as [Hx|Hx]; [lra|].
  apply Qmult_integral in Hy as [Hy|Hy]; [lra|].
  split; lra.
Qed.

Lemma Affine_apply_coefficients_witness :
  (0 <= 8 <= 9)%Q /\ (0 <= 0 <= 9)%Q /\
  exists b c d f g',
    Affine_apply prim_fill 8 0 0 0 img_white rng_demo
    = Ok (prim_fill (PIL_transform_AFFINE (1, b, c, d, 1, f)%Q (128, 128, 128)%Q) img_white, g') /\
    (- (3 # 10) <= b <= 3 # 10)%Q /\ (91 # 100 <= 1 - b * d)%Q.
Proof.
  assert (0 <= 8 <= 9)%Q as H8 by lra. assert (0 <= 0 <= 9)%Q as H0 by lra.
  split; [exact H8|]. split; [exact H0|].
  destruct (Affine_apply_coefficients prim_fill 8 0 0 0 img_white rng_demo H8 H0 H0 H0)
    as (b & c & d & f & g' & Hrun & Hb & _ & _ & _ & Hdet & _).
  exists b, c, d, f, g'. split; [exact Hrun|]. split; [exact Hb|exact Hdet].
Defined.

(** * Labels *)

Lemma label_sum_replicate_0 n : (label_sum (replicate n 0%Q) == 0)%Q.
Proof. induction n as [|n IH]; simpl; [reflexivity|]. rewrite IH. ring. Qed.

Lemma label_sum_onehot index nc : index < nc -> (label_sum (onehot index nc) == 1)%Q.
Proof.
  revert index. induction nc as [|nc IH]; intros [|index] H; try lia;
    unfold onehot in *; simpl.
  - rewrite label_sum_replicate_0. ring.
  - rewrite IH by lia. ring.
Qed.

(** X4.  [_to_categorical(index, num_classes)] returns, for an index
    below [num_classes], the vector of length [num_classes] that is 1 at
    [index] and 0 elsewhere, whose entries sum to 1; for any other index the
    assignment raises [IndexError]. *)
Theorem to_categorical_one_hot (index num_classes : nat) (g : rng) :
  (index < num_classes ->
   exists c, _to_categorical index num_classes g = Ok (c, g) /\
     length c = num_classes /\
     (forall k, k < num_classes -> c !! k = Some (if k =? index then 1 else 0)%Q) /\
     (label_sum c == 1)%Q) /\
  (num_classes <= index -> _to_categorical index num_classes g = Raise IndexError).
Proof.
  unfold _to_categorical. split.
  - intros Hlt. rewrite (proj2 (Nat.ltb_lt _ _) Hlt). eexists. split; [reflexivity|].
    split; [by rewrite length_insert, length_replicate|]. split.
    + intros k Hk. destruct (k =? index) eqn:E.
      * apply Nat.eqb_eq in E as ->. apply list_lookup_insert_eq.
        by rewrite length_replicate.
      * apply Nat.eqb_neq in E.
        etrans; [apply list_lookup_insert_ne; congruence|].
        by apply lookup_replicate_2.
    + by apply label_sum_onehot.
  - intros Hge. by rewrite (proj2 (Nat.ltb_ge _ _) Hge).
Qed.


(** * The partner and the label of a training sample *)

Lemma draw_partner_no_raise fuel y y_i g e :
  y <> [] -> draw_partner fuel y y_i g <> Raise e.
Proof.
  intros Hy. revert g. induction fuel as [|fuel IH]; intros g; [done|].
  rewrite draw_partner_step by done.
  destruct (lookup_lt_is_Some_2 y (partner_pick y g 0)) as [y_t ->];
    [by apply partner_pick_lt|].
  destruct (y_t =? y_i); [apply IH|done].
Qed.

Lemma partner_is_other y y_i fuel g t g' y_t :
  draw_partner fuel y y_i g = Ok (t, g') -> y !! t = Some y_t -> y_t <> y_i.
Proof.
  intros Hrun Ht. destruct y as [|y0 y'].
  - destruct fuel; [done|]. discriminate Hrun.
  - destruct (draw_partner_Ok fuel (y0 :: y') y_i g t g' ltac:(done) Hrun)
      as (n & y_t' & _ & _ & Ht' & Hne).
    rewrite Ht in Ht'. by injection Ht' as <-.
Qed.

(** X5.  The partner the mixer's loop returns is always a valid index of
    the dataset whose label differs from the primary's.  On a non-empty
    dataset the loop never raises; on an empty one its first draw raises
    [ValueError]. *)
Theorem partner_is_of_another_class (fuel : nat) (y : list nat) (y_i : nat) (g : rng) :
  (forall t g', draw_partner fuel y y_i g = Ok (t, g') ->
     t < length y /\ exists y_t, y !! t = Some y_t /\ y_t <> y_i) /\
  (y <> [] -> forall e, draw_partner fuel y y_i g <> Raise e) /\
  (y = [] -> 0 < fuel -> draw_partner fuel y y_i g = Raise ValueError).
Proof.
  split; [|split].
  - intros t g' Hrun. destruct y as [|y0 y'].
    + destruct fuel; [done|]. discriminate Hrun.
    + destruct (draw_partner_Ok fuel (y0 :: y') y_i g t g' ltac:(done) Hrun)
        as (n & y_t & _ & _ & Ht & Hne).
      split; [by eapply lookup_lt_Some|]. eauto.
  - intros Hy e. by apply draw_partner_no_raise.
  - intros -> Hfuel. destruct fuel; [lia|]. reflexivity.
Qed.

Lemma to_categorical_inv index nc g c g' :
  _to_categorical index nc g = Ok (c, g') -> index < nc /\ c = onehot index nc /\ g' = g.
Proof.
  unfold _to_categorical. destruct (index <? nc) eqn:E; [|done].
  apply Nat.ltb_lt in E. intros [= <- <-]. done.
Qed.

Lemma getitem_inv {A} (l : list A) i g a g' :
  getitem l i g = Ok (a, g') -> l !! i = Some a /\ g' = g.
Proof. unfold getitem. destruct (l !! i); [|done]. by intros [= <- <-]. Qed.


(** The label of a training sample, as the code computes it. *)
Lemma training_label_form prim fs fuel X y a1 a2 num_classes index g X_out c g' :
  _generate_instance prim fs fuel X y a1 a2 num_classes true index g = Ok ((X_out, c), g') ->
  exists y_i t y_t r,
    y !! index = Some y_i /\ y !! t = Some y_t /\ y_t <> y_i /\
    y_i < num_classes /\ y_t < num_classes /\
    (1 # 2 <= r)%Q /\ (r < 1)%Q /\
    c = zip_with (mix_value32 r) (onehot y_i num_classes) (onehot y_t num_classes).
Proof.
  intros Hrun. unfold _generate_instance in Hrun.
  apply bind_inv_Ok in Hrun as (X_i & g1 & _ & Hrun).
  apply bind_inv_Ok in Hrun as (y_i & g2 & Hy & Hrun).
  apply getitem_inv in Hy as [Hy _].
  apply bind_inv_Ok in Hrun as (img & g3 & _ & Hrun).
  apply bind_inv_Ok in Hrun as (X1 & g4 & _ & Hrun).
  apply bind_inv_Ok in Hrun as (c1 & g5 & Hc1 & Hrun).
  apply to_categorical_inv in Hc1 as (Hi & -> & _).
  apply bind_inv_Ok in Hrun as ([Xm cm] & g6 & Hmix & Hrun).
  apply bind_inv_Ok in Hrun as (Xn & g7 & _ & Hret).
  unfold ret in Hret. injection Hret as _ <- _.
  apply bind_inv_Ok in Hmix as (t & h1 & Hloop & Hmix).
  apply bind_inv_Ok in Hmix as (X_t & h2 & _ & Hmix).
  apply bind_inv_Ok in Hmix as (y_t & h3 & Hyt & Hmix).
  apply getitem_inv in Hyt as [Hyt _].
  apply bind_inv_Ok in Hmix as (img_t & h4 & _ & Hmix).
  apply bind_inv_Ok in Hmix as (X2 & h5 & _ & Hmix).
  apply bind_inv_Ok in Hmix as (c2 & h6 & Hc2 & Hmix).
  apply to_categorical_inv in Hc2 as (Ht & -> & _).
  apply bind_inv_Ok in Hmix as (r & h7 & Hr & Hmix).
  apply bind_inv_Ok in Hmix as (Xmix & h8 & _ & Hmix).
  apply bind_inv_Ok in Hmix as (cmix & h9 & Hlab & Hret).
  unfold ret in Hret. injection Hret as _ <- _.
  destruct (np_random_uniform_half h6) as (r' & Hr' & Hlo & Hhi).
  rewrite Hr' in Hr. injection Hr as <- _.
  rewrite mix_labels_eq in Hlab
    by (unfold onehot; by rewrite !length_insert, !length_replicate).
  injection Hlab as <- _.
  pose proof (partner_is_other _ _ _ _ _ _ _ Hloop Hyt) as Hne.
  exists y_i, t, y_t, r'. done.
Qed.




(** * Passes over the dataset *)

(** The step count is the ceiling of the quotient. *)
Lemma steps_spec n batch_size :
  1 <= batch_size ->
  n <= steps n batch_size * batch_size /\
  (1 <= n -> (steps n batch_size - 1) * batch_size < n) /\
  (n = 0 -> steps n batch_size = 0).
Proof.
  intros HB. unfold steps.
  set (q := (inject_Z (Z.of_nat n) / inject_Z (Z.of_nat batch_size))%Q).
  assert (0 < inject_Z (Z.of_nat batch_size))%Q as Hb
    by (change 0%Q with (inject_Z 0); rewrite <- Zlt_Qlt; lia).
  assert (q * inject_Z (Z.of_nat batch_size) == inject_Z (Z.of_nat n))%Q as Hq
    by (unfold q; field; lra).
  pose proof (Qle_ceiling q) as Hle. pose proof (Qceiling_lt q) as Hlt.
  set (c := Qceiling q) in *. clearbody c. clearbody q.
  replace (c - 1)%Z with (c + -1)%Z in Hlt by lia.
  rewrite inject_Z_plus in Hlt. change (inject_Z (-1)) with (-1 # 1)%Q in Hlt.
  set (b := inject_Z (Z.of_nat batch_size)) in *.
  assert (0 <= inject_Z (Z.of_nat n))%Q as Hn0
    by (change 0%Q with (inject_Z 0); rewrite <- Zle_Qle; lia).
  assert (0 <= q)%Q as Hq0.
  { destruct (Qlt_le_dec q 0) as [Hneg|]; [|done].
    assert (q * b < 0 * b)%Q by (apply Qmult_lt_compat_r; done). lra. }
  assert (0 <= c)%Z as Hc0.
  { rewrite Zle_Qle. change (inject_Z 0) with 0%Q. lra. }
  assert (Z.of_nat n <= c * Z.of_nat batch_size)%Z as H1.
  { rewrite Zle_Qle, inject_Z_mult, <- Hq. apply Qmult_le_compat_r; [lra|]. fold b. lra. }
  assert ((c - 1) * Z.of_nat batch_size < Z.of_nat n)%Z as H2.
  { rewrite Zlt_Qlt, inject_Z_mult, <- Hq. fold b.
    apply Qmult_lt_compat_r; [done|].
    replace (c - 1)%Z with (c + -1)%Z by lia. rewrite inject_Z_plus. exact Hlt. }
  split; [nia|]. split; [nia|].
  intros ->. simpl in H2. nia.
Qed.

Lemma Forall2_seq_chunk {A} (R : nat -> A -> Prop) N B i samples :
  Forall2 R (seq 0 N) samples ->
  Forall2 R (seq i (Nat.min (i + B) N - i)) (take B (drop i samples)).
Proof.
  intros H. apply (Forall2_drop _ _ _ i), (Forall2_take _ _ _ B) in H.
  rewrite drop_seq, take_seq in H.
  replace (Nat.min (i + B) N - i) with (B `min` (N - i)) by lia. exact H.
Qed.

Lemma concat_chunks {A} B m (l : list A) :
  length l <= m * B ->
  concat (map (fun j => take B (drop (j * B) l)) (seq 0 m)) = l.
Proof.
  revert l. induction m as [|m IH]; intros l Hl.
  - simpl in *. destruct l; simpl in *; [done|lia].
  - cbn [seq map concat]. rewrite <- fmap_S_seq.
    change (map ?f (S <$> ?l)) with (f <$> (S <$> l)). rewrite <- list_fmap_compose.
    transitivity (take B l ++ drop B l); [|apply take_drop]. f_equal.
    rewrite <- (IH (drop B l)) by (rewrite length_drop; lia).
    f_equal. apply list_fmap_ext. intros _ j _. simpl.
    by rewrite drop_drop.
Qed.

Lemma succ_mod j s :
  1 <= s -> S j mod s = if S (j mod s) =? s then 0 else S (j mod s).
Proof.
  intros Hs. pose proof (Nat.div_mod_eq j s) as Hj.
  pose proof (Nat.mod_upper_bound j s ltac:(lia)) as Hr.
  destruct (S (j mod s) =? s) eqn:E.
  - apply Nat.eqb_eq in E. symmetry.
    apply (Nat.mod_unique (S j) s (S (j / s)) 0); lia.
  - apply Nat.eqb_neq in E. symmetry.
    apply (Nat.mod_unique (S j) s (j / s) (S (j mod s))); lia.
Qed.

Section EvaluationPass.
Variable prim : prim_op -> image -> image.
Variable fs : path -> file.
Variable scheduler : nat -> list nat.
Variables (X : list path) (y : list nat) (batch_size num_classes fuel : nat).
Variable samples : list (image * label).
Hypothesis scheduler_ok : forall n, scheduler n ≡ₚ seq 0 n.
Hypothesis batch_size_pos : 1 <= batch_size.
Hypothesis fuel_ok : 2 <= fuel.
Hypothesis X_pos : 1 <= length X.
Hypothesis samples_ok :
  Forall2 (dataset_sample prim fs X y num_classes) (seq 0 (length X)) samples.

Lemma generate_next_eval_sequential i g :
  let i0 := if i <? length X then i else 0 in
  exists g', _generate_next prim fs fuel scheduler X y batch_size num_classes false
               (Sequential i) g
             = Ok (batch_at samples batch_size i0, Sequential (i0 + batch_size), g').
Proof.
  intros i0. unfold _generate_next.
  destruct (batch_size =? 0) eqn:HB; [apply Nat.eqb_eq in HB; lia|].
  rewrite (bind_Ok _ _ _ _ _
             (next_sequential_indices_eq fuel batch_size (length X) i g X_pos fuel_ok)).
  fold i0. cbn beta iota.
  assert (i0 < length X) as Hi0.
  { unfold i0. destruct (i <? length X) eqn:E; [by apply Nat.ltb_lt in E|lia]. }
  set (bi := seq i0 (Nat.min (i0 + batch_size) (length X) - i0)).
  destruct (generate_batch_eval_returns prim fs fuel X y num_classes bi
              (scheduler (length bi)) g (take batch_size (drop i0 samples)))
    as [g' Hb].
  - unfold bi. intros E. apply (f_equal length) in E. rewrite length_seq in E.
    simpl in E. lia.
  - apply scheduler_ok.
  - unfold bi. by apply Forall2_seq_chunk.
  - exists g'. rewrite (bind_Ok _ _ _ _ _ Hb). done.
Qed.

(** The [j]-th and following [next()] of the evaluation generator. *)
Lemma generator_take_eval count : forall j i g,
  let s := steps (length X) batch_size in
  (i = (j mod s) * batch_size \/ (j mod s = 0 /\ length X <= i)) ->
  exists st' g',
    generator_take prim fs fuel scheduler X y batch_size num_classes false count
      (Sequential i) g
    = Ok (map (fun k => batch_at samples batch_size ((k mod s) * batch_size)) (seq j count),
          st', g').
Proof.
  destruct (steps_spec (length X) batch_size batch_size_pos) as (Hs1 & Hs2 & _).
  specialize (Hs2 X_pos).
  induction count as [|count IH]; intros j i g s Hi.
  - exists (Sequential i), g. done.
  - fold s in Hs1, Hs2.
    assert (1 <= s) as Hs by (destruct s; simpl in *; lia).
    pose proof (Nat.mod_upper_bound j s ltac:(lia)) as Hr.
    assert ((j mod s) * batch_size < length X) as Hlt by nia.
    assert ((if i <? length X then i else 0) = (j mod s) * batch_size) as Hi0.
    { destruct Hi as [->|[Hz Hge]].
      - by rewrite (proj2 (Nat.ltb_lt _ _) Hlt).
      - rewrite (proj2 (Nat.ltb_ge _ _) Hge), Hz. done. }
    destruct (generate_next_eval_sequential i g) as [g1 Hnext].
    rewrite Hi0 in Hnext.
    destruct (IH (S j) ((j mod s) * batch_size + batch_size) g1) as (st' & g' & Htake).
    { fold s. rewrite succ_mod by done.
      destruct (S (j mod s) =? s) eqn:E.
      - right. apply Nat.eqb_eq in E. split; [done|]. nia.
      - left. lia. }
    exists st', g'. cbn [generator_take].
    rewrite (bind_Ok _ _ _ _ _ Hnext). cbn beta iota.
    rewrite (bind_Ok _ _ _ _ _ Htake). done.
Qed.

End EvaluationPass.

Lemma Forall_lt_seq N : Forall (fun i => i < N) (seq 0 N).
Proof. apply Forall_forall. intros i Hi. apply elem_of_seq in Hi. lia. Qed.

(** X7.  In evaluation mode, on a dataset of at least one file whose files
    all decode and whose labels are classes, the [k]-th [next()] of the
    generator returns the rows [(k mod s) * batch_size ..] of the dataset's
    samples, [s] being the step count [ceil(N / batch_size)]: the samples
    come in the order of the files, and the generator starts over from the
    first file after [s] batches. *)
Theorem evaluation_generator_cycles prim fs scheduler X y batch_size num_classes fuel
    count g :
  (forall n, scheduler n ≡ₚ seq 0 n) ->
  1 <= batch_size -> 2 <= fuel -> 1 <= length X ->
  dataset_ok fs X y num_classes ->
  exists samples st' g',
    Forall2 (dataset_sample prim fs X y num_classes) (seq 0 (length X)) samples /\
    generator_take prim fs fuel scheduler X y batch_size num_classes false count
      (_generate X false) g
    = Ok (map (fun k => batch_at samples batch_size
                          ((k mod steps (length X) batch_size) * batch_size))
              (seq 0 count), st', g').
Proof.
  intros Hsched HB Hfuel HN Hok.
  destruct (dataset_samples prim fs X y num_classes (seq 0 (length X)) Hok
              (Forall_lt_seq _)) as [samples Hs].
  destruct (generator_take_eval prim fs scheduler X y batch_size num_classes fuel samples
              Hsched HB Hfuel HN Hs count 0 0 g) as (st' & g' & Htake).
  { left. by rewrite Nat.Div0.mod_0_l. }
  exists samples, st', g'. done.
Qed.

Lemma evaluation_generator_cycles_witness :
  exists samples st' g',
    Forall2 (dataset_sample prim_fill fs_demo X_demo y_demo 2) (seq 0 3) samples /\
    generator_take prim_fill fs_demo 2 (seq 0) X_demo y_demo 2 2 false 5
      (_generate X_demo false) rng_demo
    = Ok (map (fun k => batch_at samples 2 ((k mod steps 3 2) * 2)) (seq 0 5), st', g').
Proof.
  apply (evaluation_generator_cycles prim_fill fs_demo (seq 0) X_demo y_demo 2 2 2 5 rng_demo).
  - done.
  - lia.
  - lia.
  - simpl. lia.
  - apply dataset_demo_ok.
Defined.

(** X8.  The arrays [predict_generator] is fed: when every validation
    file decodes, the pass returns one array per file, and the [k]-th
    array is the evaluation sample of the [k]-th file, so the rows of the
    predictions line up with the labels of the files.  An empty file list
    gives no array. *)
Theorem prediction_rows_follow_the_files prim fs fuel scheduler X_val batch_size
    num_classes g :
  (forall n, scheduler n ≡ₚ seq 0 n) ->
  1 <= batch_size -> 2 <= fuel -> 1 <= num_classes ->
  (forall p, p ∈ X_val -> exists img, fs p = Decodable img) ->
  exists imgs g',
    predict_inputs prim fs fuel scheduler X_val batch_size num_classes g = Ok (imgs, g') /\
    length imgs = length X_val /\
    forall k p, X_val !! k = Some p ->
      exists img, fs p = Decodable img /\
                  imgs !! k = Some (fst (eval_sample prim img 0 num_classes)).
Proof.
  intros Hsched HB Hfuel Hnc Hdec. unfold predict_inputs.
  set (N := length X_val). set (y := replicate N 0).
  destruct (steps_spec N batch_size HB) as (Hs1 & Hs2 & Hs3).
  destruct (decide (N = 0)) as [HN|HN].
  - rewrite (Hs3 HN). exists [], g. split; [done|]. split; [done|].
    intros k p Hk. apply lookup_lt_Some in Hk. fold N in Hk. lia.
  - assert (dataset_ok fs X_val y num_classes) as Hok.
    { intros index p Hp. destruct (Hdec p) as [img Himg];
        [by eapply list_elem_of_lookup_2|].
      exists img, 0. split; [done|]. split; [|lia].
      apply lookup_replicate_2. apply lookup_lt_Some in Hp. done. }
    destruct (dataset_samples prim fs X_val y num_classes (seq 0 N) Hok
                (Forall_lt_seq _)) as [samples Hs].
    destruct (generator_take_eval prim fs scheduler X_val y batch_size num_classes fuel
                samples Hsched HB Hfuel ltac:(fold N; lia) Hs (steps N batch_size) 0 0 g)
      as (st' & g' & Htake).
    { left. by rewrite Nat.Div0.mod_0_l. }
    fold N in Htake. unfold _generate.
    rewrite (bind_Ok _ _ _ _ _ Htake). cbn beta iota.
    pose proof (Forall2_length _ _ _ Hs) as Hlen. rewrite length_seq in Hlen.
    assert (concat (map fst (map (fun k => batch_at samples batch_size
                       ((k mod steps N batch_size) * batch_size))
                     (seq 0 (steps N batch_size)))) = map fst samples) as Hcat.
    { rewrite <- (concat_chunks batch_size (steps N batch_size) (map fst samples))
        by (rewrite length_map; lia).
      f_equal. change (map ?f (map ?h ?l)) with (f <$> (h <$> l)).
      rewrite <- list_fmap_compose. apply list_fmap_ext. intros i k Hk. simpl.
      apply lookup_seq in Hk as [-> Hk]. simpl.
      rewrite Nat.mod_small by done.
      change (map fst samples) with (fst <$> samples).
      by rewrite <- fmap_drop, <- fmap_take. }
    exists (map fst samples), g'. unfold ret. rewrite Hcat. split; [done|].
    split; [rewrite length_map; lia|].
    intros k p Hp.
    assert (seq 0 N !! k = Some k) as Hk
      by (apply lookup_seq; split; [done|by eapply lookup_lt_Some]).
    destruct (Forall2_lookup_l _ _ _ _ _ Hs Hk)
      as (s & Hsk & (p' & img & y_i & Hp' & Himg & Hy & _ & ->)).
    rewrite Hp in Hp'. injection Hp' as <-.
    apply lookup_replicate in Hy as [-> _].
    exists img. split; [done|].
    change (map fst samples) with (fst <$> samples).
    by rewrite list_lookup_fmap, Hsk.
Qed.

Lemma prediction_rows_follow_the_files_witness :
  exists imgs g',
    predict_inputs prim_fill fs_demo 2 (seq 0) X_demo 2 1 rng_demo = Ok (imgs, g') /\
    length imgs = 3 /\
    forall k p, X_demo !! k = Some p ->
      exists img, fs_demo p = Decodable img /\
                  imgs !! k = Some (fst (eval_sample prim_fill img 0 1)).
Proof.
  apply (prediction_rows_follow_the_files prim_fill fs_demo 2 (seq 0) X_demo 2 1 rng_demo).
  - done.
  - lia.
  - lia.
  - lia.
  - intros p Hp. unfold fs_demo.
    destruct (String.eqb p "broken.jpg") eqn:E; [|destruct (String.eqb p "gray.png"); eauto].
    apply String.eqb_eq in E. subst p. unfold X_demo in Hp.
    apply elem_of_cons in Hp as [Hp|Hp]; [done|].
    apply elem_of_cons in Hp as [Hp|Hp]; [done|].
    apply list_elem_of_singleton in Hp. done.
Defined.

Lemma indices_next_empty fuel st g :
  all_indices st = [] -> indices_next fuel st g = Hang.
Proof.
  revert st g. induction fuel as [|fuel IH]; intros [all c] g Hall; [done|].
  simpl in Hall. subst all. cbn [indices_next all_indices cursor].
  rewrite lookup_nil. unfold bind. cbn. by apply IH.
Qed.

Lemma next_sequential_indices_empty fuel batch_size i g :
  next_sequential_indices fuel batch_size 0 i g = Hang.
Proof. revert i. induction fuel as [|fuel IH]; intros i; [done|]. simpl. apply IH. Qed.

(** X9.  A generator over no files never yields: with [shuffle] and
    without, [next()] does not return, and does not raise, however long
    it runs. *)
Theorem generator_over_no_files_hangs prim fs fuel scheduler y batch_size num_classes
    data_augmentation shuffle g :
  batch_size <> 0 ->
  _generate_next prim fs fuel scheduler [] y batch_size num_classes data_augmentation
    (_generate [] shuffle) g = Hang.
Proof.
  intros HB. unfold _generate_next.
  rewrite (proj2 (Nat.eqb_neq _ _) HB).
  destruct shuffle; cbn [_generate length].
  - unfold bind at 1.
    assert (next_shuffled_indices fuel batch_size [] (_generate_shuffled_indices 0) g = Hang)
      as ->; [|done].
    destruct fuel as [|fuel]; [done|]. cbn [next_shuffled_indices].
    unfold bind at 1. by rewrite indices_next_empty.
  - unfold bind at 1. by rewrite next_sequential_indices_empty.
Qed.

Lemma generator_over_no_files_hangs_witness :
  _generate_next prim_fill fs_demo 1000 (seq 0) [] [] 16 10 true (_generate [] true) rng_demo
  = Hang.
Proof. apply generator_over_no_files_hangs. lia. Defined.


(** * The pipeline returns: no stage of a training sample raises *)

Lemma succeeds_ret {A} (a : A) : succeeds (ret a).
Proof. intros g. by exists a, g. Qed.

Lemma succeeds_bind {A B} (c : M A) (k : A -> M B) (P : A -> Prop) :
  succeeds c -> post c P -> (forall a, P a -> succeeds (k a)) -> succeeds (bind c k).
Proof.
  intros Hc HP Hk g. destruct (Hc g) as (a & g1 & Ha).
  rewrite (bind_Ok _ _ _ _ _ Ha). apply Hk. eapply HP. exact Ha.
Qed.

Lemma succeeds_bind' {A B} (c : M A) (k : A -> M B) :
  succeeds c -> (forall a, succeeds (k a)) -> succeeds (bind c k).
Proof. intros Hc Hk. apply (succeeds_bind c k (fun _ => True)); [done|apply post_true|auto]. Qed.

Lemma succeeds_random_random : succeeds random_random.
Proof. intros g. rewrite random_random_eq. eauto. Qed.

Lemma succeeds_np_random_sign : succeeds np_random_sign.
Proof. intros g. destruct (np_random_sign_eq g) as (s & -> & _). eauto. Qed.

Lemma succeeds_random_interval max : succeeds (random_interval max).
Proof. intros g. destruct (random_interval_ok max g) as (j & -> & _). eauto. Qed.

Lemma succeeds_random_randint a b : a <= b -> succeeds (random_randint a b).
Proof.
  intros Hab. unfold random_randint. rewrite (proj2 (Nat.ltb_ge b a) Hab).
  apply succeeds_bind'; [apply succeeds_random_interval|]. intros k. apply succeeds_ret.
Qed.

Lemma succeeds_np_random_choice n : 0 < n -> succeeds (np_random_choice n).
Proof. intros Hn. destruct n as [|n]; [lia|]. apply succeeds_random_interval. Qed.

Lemma succeeds_with_p p (t : transform) img :
  succeeds (t img) -> succeeds (with_p p t img).
Proof.
  intros Ht. unfold with_p. apply succeeds_bind'; [apply succeeds_random_random|].
  intros u. destruct (Qltb u p); [done|apply succeeds_ret].
Qed.

Lemma succeeds_run_transforms (P : image -> Prop) ts :
  Forall (keeps P) ts -> Forall (fun t : transform => forall img, P img -> succeeds (t img)) ts ->
  forall img, P img -> succeeds (run_transforms ts img).
Proof.
  intros Hk Hs. induction Hs as [|t ts Ht Hts IH]; intros img HP; simpl.
  - apply succeeds_ret.
  - apply Forall_cons in Hk as [Hkt Hk].
    apply (succeeds_bind _ _ P); [by apply Ht|by apply Hkt|]. intros img' HP'. by apply IH.
Qed.

Lemma succeeds_A_Compose (P : image -> Prop) ts p force img :
  Forall (keeps P) ts -> Forall (fun t : transform => forall img, P img -> succeeds (t img)) ts ->
  P img -> succeeds (A_Compose ts p force img).
Proof.
  intros Hk Hs HP. unfold A_Compose. apply succeeds_bind'.
  - unfold need_to_run. destruct force; [apply succeeds_ret|].
    apply succeeds_bind'; [apply succeeds_random_random|]. intros u. apply succeeds_ret.
  - intros [|]; [by apply (succeeds_run_transforms P)|apply succeeds_ret].
Qed.

Lemma succeeds_A_OneOf (ts : list (bool -> transform)) p force img :
  ts <> [] -> Forall (fun t : bool -> transform => succeeds (t true img)) ts ->
  succeeds (A_OneOf ts p force img).
Proof.
  intros Hne Hs. unfold A_OneOf. apply succeeds_bind'.
  - unfold need_to_run. destruct force; [apply succeeds_ret|].
    apply succeeds_bind'; [apply succeeds_random_random|]. intros u. apply succeeds_ret.
  - intros [|]; [|apply succeeds_ret].
    apply succeeds_bind'.
    + apply succeeds_np_random_choice. destruct ts; simpl; [done|lia].
    + intros k. destruct (ts !! k) as [t|] eqn:Hk; [|apply succeeds_ret].
      by apply (Forall_lookup_1 _ _ _ _ Hs Hk).
Qed.

Lemma succeeds_sp prim name p mag img : succeeds (sp prim name p mag img).
Proof.
  assert (forall m (k : Q -> M image), (forall f, succeeds (k f)) ->
            succeeds (bind (enhance_factor m) k)) as Henh.
  { intros m k Hk. apply succeeds_bind'; [|done]. unfold enhance_factor.
    apply succeeds_bind'; [apply succeeds_np_random_sign|]. intros s. apply succeeds_ret. }
  assert (forall a b c d, succeeds (Affine_apply prim a b c d img)) as Haff.
  { intros a b c d. unfold Affine_apply.
    repeat (apply succeeds_bind'; [apply succeeds_np_random_sign|]; intros ?).
    apply succeeds_ret. }
  destruct name; simpl; apply succeeds_with_p;
    try apply Haff;
    try (apply Henh; intros f; apply succeeds_ret);
    try apply succeeds_ret.
  unfold A_Rotate_apply. apply succeeds_bind'; [apply succeeds_random_random|].
  intros u. apply succeeds_ret.
Qed.

Lemma succeeds_autoaugment prim force img :
  succeeds (_create_autoaugment prim force img).
Proof.
  unfold _create_autoaugment. apply succeeds_A_OneOf; [done|].
  apply Forall_map. apply Forall_forall. intros [[[n1 p1] m1] [[n2 p2] m2]] _. simpl.
  apply (succeeds_A_Compose (fun _ => True)); [| |done].
  - repeat (apply Forall_cons; split; [intros ? _; apply post_true|]). constructor.
  - repeat (apply Forall_cons; split; [intros ? _; apply succeeds_sp|]). constructor.
Qed.

Lemma succeeds_RandomSizedCrop prim lo hi height width h w c img :
  has_shape (h, w, c) img -> 0 < h -> 0 < w -> lo <= hi -> hi <= h -> hi <= w ->
  succeeds (A_RandomSizedCrop_apply prim (lo, hi) height width img).
Proof.
  intros Himg Hh Hw Hlo Hhi Hwi. unfold A_RandomSizedCrop_apply.
  apply succeeds_bind'; [apply succeeds_random_random|]. intros h_start.
  apply succeeds_bind'; [apply succeeds_random_random|]. intros w_start.
  apply (succeeds_bind _ _ (fun k => lo <= k <= hi));
    [by apply succeeds_random_randint|apply random_randint_range|].
  intros ch Hch. rewrite (shape_of_has_shape h w c img Himg Hh Hw).
  rewrite (proj2 (Nat.ltb_ge h ch)), (proj2 (Nat.ltb_ge w ch)) by lia.
  apply succeeds_ret.
Qed.

Lemma succeeds_aug1 prim da img :
  prim_law prim -> rgb_array img -> succeeds (aug1 prim da img).
Proof.
  intros Hprim Himg.
  assert (forall ts, succeeds (run_transforms ts img) ->
                     succeeds (A_Compose ts 1 false img)) as Hcomp.
  { intros ts Hts g. rewrite A_Compose_1_run. apply Hts. }
  unfold aug1. destruct da; apply Hcomp; cbn [run_transforms].
  - apply (succeeds_bind _ _ (shaped 331 331 3));
      [apply succeeds_with_p, succeeds_ret
      |eapply post_with_p_1; [by apply post_Resize|exact Himg]|].
    intros img1 H1.
    apply (succeeds_bind _ _ (shaped 412 412 3));
      [apply succeeds_with_p; unfold A_PadIfNeeded_apply;
       destruct (shape_of img1) as [[? ?] ?]; apply succeeds_ret
      |eapply post_with_p_1; [by apply post_PadIfNeeded|exact H1]|].
    intros img2 H2.
    apply (succeeds_bind _ _ (shaped 412 412 3));
      [apply succeeds_autoaugment|apply keeps_autoaugment; [done|lia|lia|done]|].
    intros img3 H3.
    apply (succeeds_bind _ _ (shaped 331 331 3));
      [apply succeeds_with_p; apply (succeeds_RandomSizedCrop prim 265 412 331 331 412 412 3);
       [exact H3|lia..]
      |eapply post_with_p_1; [by apply post_RandomSizedCrop|exact H3]|].
    intros img4 H4.
    apply succeeds_bind'; [apply succeeds_with_p, succeeds_ret|].
    intros img5. apply succeeds_ret.
  - apply succeeds_bind'; [apply succeeds_with_p, succeeds_ret|].
    intros img1. apply succeeds_ret.
Qed.

Lemma succeeds_F_cutout n mh mw h w c img :
  has_shape (h, w, c) img -> 0 < h -> 0 < w -> succeeds (F_cutout n mh mw img).
Proof.
  intros Himg Hh Hw. revert img Himg.
  induction n as [|n IH]; intros img Himg; cbn [F_cutout].
  - apply succeeds_ret.
  - rewrite (shape_of_has_shape h w c img Himg Hh Hw).
    apply succeeds_bind'; [by apply succeeds_np_random_choice|]. intros y.
    apply succeeds_bind'; [by apply succeeds_np_random_choice|]. intros x.
    apply IH. by apply has_shape_set_region_zero.
Qed.

Lemma succeeds_aug2 da h w c img :
  has_shape (h, w, c) img -> 0 < h -> 0 < w -> succeeds (aug2 da img).
Proof.
  intros Himg Hh Hw. unfold aug2.
  destruct da; apply (succeeds_A_Compose (has_shape (h, w, c))); try done.
  - apply Forall_cons; split.
    { apply keeps_with_p. intros i Hi. apply post_ret. by apply has_shape_map3. }
    apply Forall_cons; split; [|constructor]. apply keeps_with_p, keeps_F_cutout.
  - apply Forall_cons; split.
    { intros i Hi. apply succeeds_with_p, succeeds_ret. }
    apply Forall_cons; split; [|constructor].
    intros i Hi. apply succeeds_with_p. by apply (succeeds_F_cutout 1 16 16 h w c).
  - apply Forall_cons; split; [|constructor].
    apply keeps_with_p. intros i Hi. apply post_ret. by apply has_shape_map3.
  - apply Forall_cons; split; [|constructor].
    intros i Hi. apply succeeds_with_p, succeeds_ret.
Qed.

Lemma succeeds_zip_strict {A B C} (f : A -> B -> M C) l1 l2 :
  Forall2 (fun a b => succeeds (f a b)) l1 l2 -> succeeds (zip_strict f l1 l2).
Proof.
  induction 1 as [|a b l1 l2 Hab _ IH]; simpl.
  - apply succeeds_ret.
  - apply succeeds_bind'; [done|]. intros c.
    apply succeeds_bind'; [done|]. intros r. apply succeeds_ret.
Qed.

Lemma Forall2_of_Forall {A B} (P : A -> Prop) (Q : B -> Prop) (R : A -> B -> Prop) l1 l2 :
  length l1 = length l2 -> Forall P l1 -> Forall Q l2 ->
  (forall a b, P a -> Q b -> R a b) -> Forall2 R l1 l2.
Proof.
  intros Hl H1 H2 HR. apply Forall2_same_length_lookup. split; [done|].
  intros i a b Ha Hb. apply HR.
  - by apply (Forall_lookup_1 _ _ _ _ H1 Ha).
  - by apply (Forall_lookup_1 _ _ _ _ H2 Hb).
Qed.

Lemma succeeds_mix_images r h w c X_i X_t :
  has_shape (h, w, c) X_i -> has_shape (h, w, c) X_t -> succeeds (mix_images r X_i X_t).
Proof.
  intros [Hl1 Hr1] [Hl2 Hr2]. unfold mix_images.
  apply succeeds_zip_strict.
  eapply Forall2_of_Forall;
    [exact (eq_trans Hl1 (eq_sym Hl2))|exact Hr1|exact Hr2|].
  intros row_i row_t [Hw1 Hp1] [Hw2 Hp2]. apply succeeds_zip_strict.
  eapply Forall2_of_Forall;
    [exact (eq_trans Hw1 (eq_sym Hw2))|exact Hp1|exact Hp2|].
  intros px_i px_t Hc1 Hc2. apply succeeds_zip_strict.
  cbv beta in Hc1, Hc2.
  apply Forall2_same_length_lookup. split; [exact (eq_trans Hc1 (eq_sym Hc2))|].
  intros. apply succeeds_ret.
Qed.

Lemma geometric_stage_runs prim da img g :
  prim_law prim -> rgb_array img ->
  exists img' g', aug1 prim da img g = Ok (img', g') /\ shaped 331 331 3 img'.
Proof.
  intros Hprim Himg.
  destruct (succeeds_aug1 prim da img Hprim Himg g) as (img' & g' & Hrun).
  exists img', g'. split; [done|].
  exact (post_aug1 prim Hprim da img Himg g img' g' Hrun).
Qed.

(** X10.  The geometric stage returns on every decoded image, in training
    and in evaluation mode, with an array of 331 x 331 x 3: the padding to
    412 makes every crop size drawn from [265, 412] fit, so the crop never
    raises. *)
Theorem geometric_stage_always_returns prim da img g :
  prim_law prim -> rgb_array img ->
  exists img' g', aug1 prim da img g = Ok (img', g') /\ shaped 331 331 3 img'.
Proof.
  intros Hprim Himg.
  destruct (succeeds_aug1 prim da img Hprim Himg g) as (img' & g' & Hrun).
  exists img', g'. split; [done|].
  exact (post_aug1 prim Hprim da img Himg g img' g' Hrun).
Qed.

Lemma geometric_stage_always_returns_witness :
  exists img' g',
    aug1 prim_fill true [[[255; 0; 0]; [0; 0; 255]]]%Q rng_demo = Ok (img', g')
    /\ shaped 331 331 3 img'.
Proof.
  apply geometric_stage_always_returns.
  - apply prim_fill_law.
  - exists 1, 2. split; [lia|]. split; [lia|]. split; [done|].
    repeat constructor.
Defined.

(** X11.  On a dataset whose files all decode and whose labels are
    classes, a training sample is never lost to an exception: the call
    returns an image of 331 x 331 x 3 with a label of [num_classes] entries,
    or it is still inside the partner loop when the loop budget ends. *)
Theorem training_sample_never_raises prim fs fuel X y num_classes index g :
  prim_law prim -> fs_ok fs -> dataset_ok fs X y num_classes ->
  length y = length X -> index < length X ->
  (exists s g',
     _generate_instance prim fs fuel X y (aug1 prim true) (aug2 true) num_classes true
       index g = Ok (s, g')
     /\ sample_ok num_classes s)
  \/ _generate_instance prim fs fuel X y (aug1 prim true) (aug2 true) num_classes true
       index g = Hang.
Proof.
  intros Hprim Hfs Hok Hlen Hindex.
  assert (forall i g0, i < length X -> exists p y_i rgb,
            getitem X i g0 = Ok (p, g0) /\ getitem y i g0 = Ok (y_i, g0) /\
            _load_image prim fs p g0 = Ok (rgb, g0) /\ rgb_array rgb /\
            _to_categorical y_i num_classes g0 = Ok (onehot y_i num_classes, g0))
    as Hfile.
  { intros i g0 Hi. destruct (lookup_lt_is_Some_2 X i Hi) as [p Hp].
    destruct (Hok i p Hp) as (img & y_i & Himg & Hy & Hlt).
    assert (exists rgb, _load_image prim fs p g0 = Ok (rgb, g0)) as [rgb Hload].
    { unfold _load_image. rewrite Himg. destruct (is_RGB (mode img)); eauto. }
    exists p, y_i, rgb. unfold getitem. rewrite Hp, Hy.
    split; [done|]. split; [done|]. split; [done|].
    split; [exact (post_load_image prim fs Hprim Hfs p g0 rgb g0 Hload)|].
    unfold _to_categorical. by rewrite (proj2 (Nat.ltb_lt _ _) Hlt). }
  destruct (_generate_instance prim fs fuel X y (aug1 prim true) (aug2 true) num_classes
              true index g) as [[s g']|e|] eqn:Hrun.
  - left. exists s, g'. split; [done|].
    exact (post_generate_instance prim fs Hprim Hfs fuel X y num_classes true index
             g s g' Hrun).
  - exfalso. unfold _generate_instance in Hrun.
    destruct (Hfile index g Hindex) as (p & y_i & rgb & HX & Hy & Hload & Hrgb & _).
    rewrite (bind_Ok _ _ _ _ _ HX), (bind_Ok _ _ _ _ _ Hy), (bind_Ok _ _ _ _ _ Hload)
      in Hrun.
    destruct (geometric_stage_runs prim true rgb g Hprim Hrgb) as (X1 & g1 & Haug & HX1).
    rewrite (bind_Ok _ _ _ _ _ Haug) in Hrun.
    destruct (Hfile index g1 Hindex) as (p' & y_i' & rgb' & _ & Hy' & _ & _ & Hcat).
    assert (y_i' = y_i) as ->.
    { apply getitem_inv in Hy as [Hy _]. apply getitem_inv in Hy' as [Hy' _]. congruence. }
    rewrite (bind_Ok _ _ _ _ _ Hcat) in Hrun.
    assert (y <> []) as Hne by (intros ->; simpl in Hlen; lia).
    destruct (draw_partner fuel y y_i g1) as [[t g2]|e'|] eqn:Hloop.
    + assert (t < length X) as Ht.
      { rewrite <- Hlen. destruct (draw_partner_Ok _ _ _ _ _ _ Hne Hloop)
          as (n & y_t & _ & _ & Hyt & _). by eapply lookup_lt_Some. }
      destruct (Hfile t g2 Ht) as (p_t & y_t & rgb_t & HXt & Hyt & Hloadt & Hrgbt & Hcatt).
      destruct (geometric_stage_runs prim true rgb_t g2 Hprim Hrgbt)
        as (X2 & g3 & Haugt & HX2).
      destruct (Hfile t g3 Ht) as (p_t' & y_t' & rgb_t' & _ & Hyt' & _ & _ & Hcatt').
      assert (y_t' = y_t) as ->.
      { apply getitem_inv in Hyt' as [Hyt' _].
        pose proof (getitem_inv _ _ _ _ _ Hyt) as [Hyt0 _]. congruence. }
      destruct (np_random_uniform_half g3) as (r & Hr & _).
      destruct (succeeds_mix_images r 331 331 3 X1 X2 HX1 HX2 (fun n => g3 (S n)))
        as (Xm & g4 & Hmix).
      pose proof (post_mix_images r 331 331 3 X1 X2 HX1 _ _ _ Hmix) as HXm.
      assert (mix_labels r (onehot y_i num_classes) (onehot y_t num_classes) g4
              = Ok (zip_with (mix_value32 r) (onehot y_i num_classes)
                      (onehot y_t num_classes), g4)) as Hlab.
      { apply mix_labels_eq. unfold onehot. by rewrite !length_insert, !length_replicate. }
      destruct (succeeds_aug2 true 331 331 3 Xm HXm ltac:(lia) ltac:(lia) g4)
        as (Xn & g5 & Haug2).
      cbn match in Hrun. unfold bind at 1 in Hrun. unfold bind at 1 in Hrun.
      rewrite Hloop in Hrun.
      rewrite (bind_Ok _ _ _ _ _ HXt), (bind_Ok _ _ _ _ _ Hyt), (bind_Ok _ _ _ _ _ Hloadt),
        (bind_Ok _ _ _ _ _ Haugt), (bind_Ok _ _ _ _ _ Hcatt'), (bind_Ok _ _ _ _ _ Hr),
        (bind_Ok _ _ _ _ _ Hmix), (bind_Ok _ _ _ _ _ Hlab) in Hrun.
      unfold ret at 1 in Hrun. rewrite (bind_Ok _ _ _ _ _ Haug2) in Hrun. done.
    + by apply (draw_partner_no_raise fuel y y_i g1 e').
    + cbn match in Hrun. unfold bind at 1 in Hrun. unfold bind at 1 in Hrun.
      rewrite Hloop in Hrun. done.
  - by right.
Qed.

Lemma training_sample_never_raises_witness :
  (exists s g',
     _generate_instance prim_fill fs_demo 3 X_demo y_demo (aug1 prim_fill true) (aug2 true)
       2 true 0 rng_demo = Ok (s, g')
     /\ sample_ok 2 s)
  \/ _generate_instance prim_fill fs_demo 3 X_demo y_demo (aug1 prim_fill true) (aug2 true)
       2 true 0 rng_demo = Hang.
Proof.
  apply training_sample_never_raises.
  - apply prim_fill_law.
  - apply fs_demo_ok.
  - apply dataset_demo_ok.
  - reflexivity.
  - simpl. lia.
Defined.


(** * The batches of the shuffled branch partition the index stream *)

(** A [next()] of the index stream takes at most two turns: more budget
    changes nothing. *)
Lemma indices_next_fuel N f1 f2 st g :
  1 <= N -> stream_inv N st -> 2 <= f1 -> 2 <= f2 ->
  indices_next f1 st g = indices_next f2 st g.
Proof.
  intros HN Hinv H1 H2.
  destruct f1 as [|[|f1]]; [lia|lia|]. destruct f2 as [|[|f2]]; [lia|lia|].
  cbn [indices_next].
  destruct (all_indices st !! cursor st) as [v|]; [done|].
  destruct (np_random_shuffle_ok (all_indices st) g) as (all' & g' & Hsh & Hp).
  rewrite !(bind_Ok _ _ _ _ _ Hsh). cbn [all_indices cursor].
  pose proof (stream_inv_length _ _ Hinv) as Hlen.
  assert (length all' = N) as Hlen' by (by rewrite Hp).
  destruct (lookup_lt_is_Some_2 all' 0) as [v ->]; [lia|]. done.
Qed.

Lemma next_shuffled_indices_take N f fuel batch_size acc st g :
  1 <= N -> 2 <= f -> stream_inv N st ->
  length acc < batch_size -> batch_size - length acc + 1 <= fuel ->
  next_shuffled_indices fuel batch_size acc st g
  = (let* (l, st') := indices_take f (batch_size - length acc) st in
     ret (acc ++ l, st')) g.
Proof.
  intros HN Hf. revert acc st g.
  induction fuel as [|fuel IH]; intros acc st g Hinv Hacc Hfuel; [lia|].
  cbn [next_shuffled_indices]. unfold bind at 1.
  rewrite (indices_next_fuel N (S fuel) f st g HN Hinv ltac:(lia) Hf).
  destruct (indices_next_total N f st g HN Hf Hinv)
    as (index & st1 & g1 & Hnext & Hinv1 & _).
  rewrite Hnext.
  replace (batch_size - length acc) with (S (batch_size - length acc - 1)) by lia.
  cbn [indices_take]. unfold bind at 1. unfold bind at 1. rewrite Hnext.
  rewrite length_app. cbn [length].
  destruct (length acc + 1 =? batch_size) eqn:E.
  - apply Nat.eqb_eq in E. replace (batch_size - length acc - 1) with 0 by lia.
    cbn [indices_take]. unfold bind, ret. done.
  - apply Nat.eqb_neq in E.
    rewrite IH by (rewrite ?length_app; cbn [length]; try done; lia).
    rewrite length_app. cbn [length].
    replace (batch_size - (length acc + 1)) with (batch_size - length acc - 1) by lia.
    unfold bind.
    destruct (indices_take f (batch_size - length acc - 1) st1 g1) as [[[l st2] g2]| |];
      [|done|done].
    unfold ret. by rewrite <- app_assoc.
Qed.

Lemma shuffled_batch_indices_take N f fuel batch_size count : forall st g,
  1 <= N -> 2 <= f -> 1 <= batch_size -> batch_size + 1 <= fuel -> stream_inv N st ->
  exists l st' g',
    indices_take f (count * batch_size) st g = Ok (l, st', g')
    /\ shuffled_batch_indices fuel batch_size count st g
       = Ok (map (fun j => take batch_size (drop (j * batch_size) l)) (seq 0 count), st', g')
    /\ length l = count * batch_size.
Proof.
  induction count as [|count IH]; intros st g HN Hf HB Hfuel Hinv.
  - exists [], st, g. done.
  - destruct (indices_take_total N f batch_size st g HN Hf Hinv)
      as (l1 & st1 & g1 & H1 & Hinv1 & Hl1).
    destruct (IH st1 g1 HN Hf HB Hfuel Hinv1) as (l2 & st2 & g2 & H2 & Hb2 & Hl2).
    exists (l1 ++ l2), st2, g2.
    replace (S count * batch_size) with (batch_size + count * batch_size) by lia.
    split; [|split].
    + rewrite indices_take_app, (bind_Ok _ _ _ _ _ H1). cbn beta iota.
      by rewrite (bind_Ok _ _ _ _ _ H2).
    + cbn [shuffled_batch_indices]. unfold bind at 1.
      rewrite (next_shuffled_indices_take N f fuel batch_size [] st g HN Hf Hinv)
        by (simpl; lia).
      cbn [length]. rewrite Nat.sub_0_r, (bind_Ok _ _ _ _ _ H1). cbn beta iota.
      unfold ret at 1. rewrite (bind_Ok _ _ _ _ _ Hb2). cbn beta iota. unfold ret.
      do 3 f_equal. cbn [seq map]. f_equal.
      * simpl. rewrite ?drop_0. by rewrite take_app_length'.
      * rewrite <- fmap_S_seq. change (map ?h (S <$> ?l)) with (h <$> (S <$> l)).
        rewrite <- list_fmap_compose. apply list_fmap_ext. intros _ j _. simpl.
        replace (batch_size + j * batch_size) with (length l1 + j * batch_size) by lia.
        by rewrite drop_app_add.
    + rewrite length_app. lia.
Qed.

Lemma indices_take_fresh_rounds N fuel k g :
  1 <= N -> 2 <= fuel ->
  exists l st' g',
    indices_take fuel k (_generate_shuffled_indices N) g = Ok (l, st', g')
    /\ forall r, (r + 1) * N <= k -> take N (drop (r * N) l) ≡ₚ seq 0 N.
Proof.
  intros HN Hf.
  assert (stream_inv N (_generate_shuffled_indices N)) as Hinv
    by (unfold stream_inv; simpl; reflexivity).
  destruct (indices_take_rounds N fuel (k / N) _ g HN Hf Hinv eq_refl)
    as (l1 & st1 & g1 & H1 & Hinv1 & _ & Hl1 & Hb).
  destruct (indices_take_total N fuel (k mod N) st1 g1 HN Hf Hinv1)
    as (l2 & st2 & g2 & H2 & _ & Hl2).
  exists (l1 ++ l2), st2, g2.
  rewrite (Nat.div_mod_eq k N) at 1. rewrite (Nat.mul_comm N).
  rewrite indices_take_app, (bind_Ok _ _ _ _ _ H1). cbn.
  rewrite (bind_Ok _ _ _ _ _ H2). cbn.
  split; [done|].
  intros r Hr.
  assert (r < k / N) as Hlt.
  { pose proof (Nat.div_le_lower_bound k N (r + 1)). lia. }
  assert ((r + 1) * N <= length l1) as Hin.
  { rewrite Hl1. apply Nat.mul_le_mono_r. lia. }
  rewrite <- (Hb r Hlt).
  rewrite drop_app_le by lia. rewrite take_app_le; [done|].
  rewrite length_drop. lia.
Qed.

(** X12.  In shuffled mode no index is lost or repeated between batches:
    the index lists of [count] successive batches, each of [batch_size]
    entries, are the first [count * batch_size] values of the index stream
    cut into consecutive pieces.  Hence every block of [N] consecutive
    primaries that starts at a multiple of [N] holds each file exactly
    once, whether or not [batch_size] divides [N]. *)
Theorem shuffled_batches_partition_the_stream N batch_size fuel count g :
  1 <= N -> 1 <= batch_size -> batch_size + 1 <= fuel ->
  exists ls st' g',
    shuffled_batch_indices fuel batch_size count (_generate_shuffled_indices N) g
    = Ok (ls, st', g')
    /\ length ls = count
    /\ Forall (fun l => length l = batch_size) ls
    /\ indices_take 2 (count * batch_size) (_generate_shuffled_indices N) g
       = Ok (concat ls, st', g')
    /\ forall r, (r + 1) * N <= count * batch_size ->
                 take N (drop (r * N) (concat ls)) ≡ₚ seq 0 N.
Proof.
  intros HN HB Hfuel.
  assert (stream_inv N (_generate_shuffled_indices N)) as Hinv
    by (unfold stream_inv; simpl; reflexivity).
  destruct (shuffled_batch_indices_take N 2 fuel batch_size count
              (_generate_shuffled_indices N) g HN ltac:(lia) HB Hfuel Hinv)
    as (l & st' & g' & Htake & Hbatches & Hl).
  destruct (indices_take_fresh_rounds N 2 (count * batch_size) g HN ltac:(lia))
    as (l' & st'' & g'' & Htake' & Hrounds).
  rewrite Htake in Htake'. injection Htake' as <- <- <-.
  assert (concat (map (fun j => take batch_size (drop (j * batch_size) l)) (seq 0 count)) = l)
    as Hcat by (apply concat_chunks; lia).
  eexists _, st', g'. split; [exact Hbatches|].
  split; [by rewrite length_map, length_seq|].
  split.
  { apply Forall_forall. intros chunk Hin.
    apply list_elem_of_fmap in Hin as (j & -> & Hj). apply elem_of_seq in Hj.
    rewrite length_take, length_drop. nia. }
  rewrite Hcat. done.
Qed.

Lemma shuffled_batches_partition_the_stream_witness :
  exists ls st' g',
    shuffled_batch_indices 5 4 3 (_generate_shuffled_indices 5) rng_demo = Ok (ls, st', g')
    /\ length ls = 3
    /\ Forall (fun l => length l = 4) ls
    /\ indices_take 2 (3 * 4) (_generate_shuffled_indices 5) rng_demo = Ok (concat ls, st', g')
    /\ forall r, (r + 1) * 5 <= 3 * 4 -> take 5 (drop (r * 5) (concat ls)) ≡ₚ seq 0 5.
Proof. apply (shuffled_batches_partition_the_stream 5 4 5 3 rng_demo); lia. Defined.


(** * [_load_data]: class ids and labels *)

Lemma dict_of_enumerate_snoc (l : list string) x :
  class_name_to_id (l ++ [x]) = dict_set (class_name_to_id l) x (length l).
Proof.
  unfold class_name_to_id. rewrite imap_app, fold_left_app. simpl.
  by rewrite Nat.add_0_r.
Qed.

(** The dict maps a name to the last position that holds it. *)
Lemma class_name_to_id_Some l k i :
  class_name_to_id l k = Some i -> l !! i = Some k.
Proof.
  revert i. induction l as [|x l IH] using rev_ind; intros i; [done|].
  rewrite dict_of_enumerate_snoc. unfold dict_set.
  destruct (String.eqb k x) eqn:E.
  - apply String.eqb_eq in E. subst x. intros [= <-].
    by rewrite lookup_app_r, Nat.sub_diag.
  - intros Hi. apply lookup_app_l_Some. by apply IH.
Qed.

Lemma class_name_to_id_None l k :
  class_name_to_id l k = None <-> k ∉ l.
Proof.
  induction l as [|x l IH] using rev_ind.
  - split; [intros _; apply not_elem_of_nil|done].
  - rewrite dict_of_enumerate_snoc. unfold dict_set.
    rewrite not_elem_of_app, list_elem_of_singleton.
    destruct (String.eqb k x) eqn:E.
    + apply String.eqb_eq in E. split; [done|]. intros [_ Hne]. done.
    + apply String.eqb_neq in E. rewrite IH. tauto.
Qed.

Lemma lookup_labels_Loaded d files ids :
  lookup_labels d files = Loaded ids <->
  Forall2 (fun x i => d (parent_name x) = Some i) files ids.
Proof.
  revert ids. induction files as [|x files IH]; intros ids; simpl.
  - split; [intros [= <-]; constructor|]. intros H. by apply Forall2_nil_inv_l in H as ->.
  - destruct (d (parent_name x)) as [i|] eqn:Hx.
    + destruct (lookup_labels d files) as [ids'|key] eqn:Hrest.
      * split.
        -- intros [= <-]. constructor; [done|]. by apply IH.
        -- intros H. apply Forall2_cons_inv_l in H as (i' & ids'' & Hi & Hf & ->).
           apply IH in Hf. congruence.
      * split; [done|]. intros H.
        apply Forall2_cons_inv_l in H as (i' & ids'' & Hi & Hf & ->).
        apply IH in Hf. done.
    + split; [done|]. intros H.
      apply Forall2_cons_inv_l in H as (i' & ids'' & Hi & Hf & ->). congruence.
Qed.

Lemma lookup_labels_KeyError d files key :
  lookup_labels d files = KeyError key <->
  exists pre x post, files = pre ++ x :: post /\ parent_name x = key /\
    d key = None /\ Forall (fun x' => d (parent_name x') <> None) pre.
Proof.
  induction files as [|x files [IH1 IH2]]; simpl.
  - split; [done|]. intros (pre & x & post & H & _). by destruct pre.
  - destruct (d (parent_name x)) as [i|] eqn:Hx.
    + split.
      * intros H. destruct (lookup_labels d files) as [ids'|key'] eqn:Hrest; [done|].
        injection H as ->.
        destruct (IH1 eq_refl) as (pre & x' & post & -> & Hk & Hd & Hpre).
        exists (x :: pre), x', post. split; [done|]. split; [done|]. split; [done|].
        constructor; [congruence|done].
      * intros (pre & x' & post & H & Hk & Hd & Hpre).
        destruct pre as [|p pre]; simpl in H; injection H as -> ->; [congruence|].
        apply Forall_cons in Hpre as [_ Hpre].
        rewrite IH2; [done|]. eauto 10.
    + split.
      * intros [= <-]. exists [], x, files. done.
      * intros (pre & x' & post & H & Hk & Hd & Hpre).
        destruct pre as [|p pre]; simpl in H; injection H as -> ->; [by rewrite Hk|].
        apply Forall_cons in Hpre as [Hp _]. done.
Qed.

(** ** The order of [sorted] on names *)

Lemma ascii_compare_Lt_trans a b c :
  Ascii.compare a b = Lt -> Ascii.compare b c = Lt -> Ascii.compare a c = Lt.
Proof. unfold Ascii.compare. rewrite !N.compare_lt_iff. lia. Qed.

Lemma string_compare_refl s : String.compare s s = Eq.
Proof.
  induction s as [|a s IH]; simpl; [done|].
  assert (Ascii.compare a a = Eq) as -> by (unfold Ascii.compare; apply N.compare_refl).
  done.
Qed.

Lemma string_compare_Lt_trans s1 : forall s2 s3,
  String.compare s1 s2 = Lt -> String.compare s2 s3 = Lt -> String.compare s1 s3 = Lt.
Proof.
  induction s1 as [|a s1 IH]; intros [|b s2] [|c s3]; simpl; try done.
  destruct (Ascii.compare a b) eqn:Hab; [|clear IH|done].
  - apply Ascii.compare_eq_iff in Hab. subst b.
    destruct (Ascii.compare a c); [apply IH|done|done].
  - intros _. destruct (Ascii.compare b c) eqn:Hbc; [| |done].
    + apply Ascii.compare_eq_iff in Hbc. subst c. by rewrite Hab.
    + by rewrite (ascii_compare_Lt_trans a b c Hab Hbc).
Qed.

Lemma name_le_spec a b : name_le a b <-> String.compare a b = Lt \/ a = b.
Proof.
  unfold name_le, String.leb. split.
  - destruct (String.compare a b) eqn:E; [|by left|done].
    intros _. right. by apply String.compare_eq_iff.
  - intros [->| ->]; [done|]. by rewrite string_compare_refl.
Qed.

#[local] Instance name_le_trans : Transitive name_le.
Proof.
  intros a b c. rewrite !name_le_spec. intros [Hab| ->] [Hbc| ->]; auto.
  left. by apply (string_compare_Lt_trans a b c).
Qed.

#[local] Instance name_le_total : Total name_le.
Proof. intros a b. apply String.leb_total. Qed.

Lemma class_names_Permutation train :
  class_names_of train ≡ₚ map entry_name (List.filter is_dir train).
Proof. apply merge_sort_Permutation. Qed.

Lemma class_names_sorted train : StronglySorted name_le (class_names_of train).
Proof. apply StronglySorted_merge_sort; apply _. Qed.

Lemma StronglySorted_lookup {A} (R : relation A) l i j a b :
  StronglySorted R l -> l !! i = Some a -> l !! j = Some b -> i < j -> R a b.
Proof.
  intros Hs. revert i j. induction Hs as [|x l Hs IH Hx]; intros i j Hi Hj Hlt; [done|].
  destruct j as [|j]; [lia|]. simpl in Hj. destruct i as [|i].
  - injection Hi as <-. by apply (Forall_lookup_1 _ _ _ _ Hx Hj).
  - simpl in Hi. apply (IH i j); [done|done|lia].
Qed.

(** What a successful lookup of the labels gives. *)
Lemma lookup_labels_ids train files ids :
  lookup_labels (class_name_to_id (class_names_of train)) files = Loaded ids ->
  length ids = length files
  /\ Forall (fun i => i < length (class_names_of train)) ids
  /\ forall k x, files !! k = Some x ->
       exists i, ids !! k = Some i /\ class_names_of train !! i = Some (parent_name x).
Proof.
  intros H. apply lookup_labels_Loaded in H.
  split; [symmetry; by eapply Forall2_length|]. split.
  - apply Forall_forall. intros i Hi. apply list_elem_of_lookup in Hi as [k Hk].
    destruct (Forall2_lookup_r _ _ _ _ _ H Hk) as (x & _ & Hx).
    apply class_name_to_id_Some in Hx. by eapply lookup_lt_Some.
  - intros k x Hk. destruct (Forall2_lookup_l _ _ _ _ _ H Hk) as (i & Hi & Hx).
    exists i. split; [done|]. by apply class_name_to_id_Some.
Qed.

(** X13.  When [_load_data] returns, with or without the swap, each set
    has one label per file, every label is below the returned class count,
    and the class count is the number of directories directly under the
    training folder; so [_to_categorical] accepts every loaded label. *)
Theorem load_data_labels_are_class_ids train val data swap_train_val s1 s2 num_classes :
  _load_data train val data swap_train_val = Loaded (s1, s2, num_classes) ->
  num_classes = length (List.filter is_dir train)
  /\ length (snd s1) = length (fst s1) /\ length (snd s2) = length (fst s2)
  /\ forall y_i, y_i ∈ snd s1 ++ snd s2 ->
       y_i < num_classes
       /\ forall g, _to_categorical y_i num_classes g = Ok (onehot y_i num_classes, g).
Proof.
  unfold _load_data. intros H.
  destruct (lookup_labels _ (glob_files (joinpath data "train") "train" train))
    as [y_train|] eqn:Ht; [|done].
  destruct (lookup_labels _ (glob_files (joinpath data "val") "val" val))
    as [y_val|] eqn:Hv; [|done].
  destruct (lookup_labels_ids _ _ _ Ht) as (Hlt & Hit & _).
  destruct (lookup_labels_ids _ _ _ Hv) as (Hlv & Hiv & _).
  assert (length (class_names_of train) = length (List.filter is_dir train)) as Hnc
    by (by rewrite class_names_Permutation, length_map).
  assert (forall y_i, y_i ∈ y_train ++ y_val -> y_i < length (class_names_of train)) as Hall.
  { intros y_i Hy. apply elem_of_app in Hy as [Hy|Hy].
    - by apply (proj1 (Forall_forall _ _) Hit).
    - by apply (proj1 (Forall_forall _ _) Hiv). }
  assert (forall y_i, y_i < num_classes ->
            forall g, _to_categorical y_i num_classes g = Ok (onehot y_i num_classes, g))
    as Hcat.
  { intros y_i Hy g. unfold _to_categorical. by rewrite (proj2 (Nat.ltb_lt _ _) Hy). }
  destruct swap_train_val; injection H as <- <- <-; cbn [fst snd];
    rewrite ?length_map; (split; [done|]); (split; [done|]); (split; [done|]);
    intros y_i Hy; (split; [|apply Hcat]); apply Hall;
    apply elem_of_app; apply elem_of_app in Hy; tauto.
Qed.

Lemma load_data_labels_are_class_ids_witness :
  exists s1 s2,
    _load_data train_demo val_demo "imagenette" true = Loaded (s1, s2, 2)
    /\ length (snd s1) = length (fst s1) /\ length (snd s2) = length (fst s2)
    /\ forall y_i, y_i ∈ snd s1 ++ snd s2 ->
         y_i < 2 /\ forall g, _to_categorical y_i 2 g = Ok (onehot y_i 2, g).
Proof.
  eexists _, _. split; [vm_compute; reflexivity|].
  eapply (load_data_labels_are_class_ids train_demo val_demo "imagenette" true).
  vm_compute. reflexivity.
Defined.

Lemma lookup_labels_app d l1 l2 :
  lookup_labels d (l1 ++ l2) =
  match lookup_labels d l1 with
  | Loaded ids1 =>
      match lookup_labels d l2 with
      | Loaded ids2 => Loaded (ids1 ++ ids2)
      | KeyError key => KeyError key
      end
  | KeyError key => KeyError key
  end.
Proof.
  induction l1 as [|x l1 IH]; simpl.
  - by destruct (lookup_labels d l2).
  - destruct (d (parent_name x)); [|done]. rewrite IH.
    destruct (lookup_labels d l1); [|done]. by destruct (lookup_labels d l2).
Qed.

(** [_load_data] fails exactly as the lookup of all the files, the
    training files first. *)
Lemma load_data_as_lookup train val data swap_train_val :
  match lookup_labels (class_name_to_id (class_names_of train))
          (glob_files (joinpath data "train") "train" train
           ++ glob_files (joinpath data "val") "val" val) with
  | Loaded _ => exists r, _load_data train val data swap_train_val = Loaded r
  | KeyError key => _load_data train val data swap_train_val = KeyError key
  end.
Proof.
  rewrite lookup_labels_app. unfold _load_data.
  destruct (lookup_labels _ (glob_files (joinpath data "train") "train" train)); [|done].
  destruct (lookup_labels _ (glob_files (joinpath data "val") "val" val)); [|done].
  destruct swap_train_val; eauto.
Qed.

(** X14.  [_load_data] returns exactly when the parent folder of every
    file found below the training and the validation folder is named like
    a class directory; otherwise it raises [KeyError] with the parent name
    of the first file for which this fails, the training files first.  In
    particular one file lying directly in the training folder makes it
    raise [KeyError('train')], unless a class is called [train]. *)
Theorem load_data_key_error train val data swap_train_val :
  let class_names := class_names_of train in
  let files := glob_files (joinpath data "train") "train" train
               ++ glob_files (joinpath data "val") "val" val in
  (Forall (fun x => parent_name x ∈ class_names) files <->
   exists r, _load_data train val data swap_train_val = Loaded r)
  /\ (forall pre x post,
        files = pre ++ x :: post ->
        Forall (fun x' => parent_name x' ∈ class_names) pre ->
        parent_name x ∉ class_names ->
        _load_data train val data swap_train_val = KeyError (parent_name x))
  /\ (forall name,
        File name ∈ train -> (forall children, Dir "train" children ∉ train) ->
        _load_data train val data swap_train_val = KeyError "train"%string).
Proof.
  intros class_names files.
  pose proof (load_data_as_lookup train val data swap_train_val) as Hload.
  fold class_names files in Hload.
  assert (forall pre x post,
            files = pre ++ x :: post ->
            Forall (fun x' => parent_name x' ∈ class_names) pre ->
            parent_name x ∉ class_names ->
            _load_data train val data swap_train_val = KeyError (parent_name x)) as Hkey.
  { intros pre x post Hfiles Hpre Hx.
    assert (lookup_labels (class_name_to_id class_names) files = KeyError (parent_name x))
      as Hl.
    { apply lookup_labels_KeyError. exists pre, x, post.
      split; [done|]. split; [done|]. split; [by apply class_name_to_id_None|].
      eapply Forall_impl; [exact Hpre|]. intros x' Hx' Hnone.
      by apply class_name_to_id_None in Hnone. }
    by rewrite Hl in Hload. }
  split; [|split; [exact Hkey|]].
  - split.
    + intros Hall.
      destruct (lookup_labels (class_name_to_id class_names) files) as [ids|key] eqn:Hl;
        [done|].
      apply lookup_labels_KeyError in Hl as (pre & x & post & Hfiles & <- & Hnone & _).
      apply class_name_to_id_None in Hnone. exfalso. apply Hnone.
      apply (proj1 (Forall_forall _ _) Hall). rewrite Hfiles.
      apply elem_of_app. right. apply elem_of_cons. by left.
    + intros [r Hr].
      destruct (lookup_labels (class_name_to_id class_names) files) as [ids|key] eqn:Hl;
        [|congruence].
      apply lookup_labels_Loaded in Hl. apply Forall_forall. intros x Hx.
      apply list_elem_of_lookup in Hx as [k Hk].
      destruct (Forall2_lookup_l _ _ _ _ _ Hl Hk) as (i & _ & Hi).
      apply class_name_to_id_Some in Hi. by eapply list_elem_of_lookup_2.
  - intros name Hname Hnodir.
    assert (exists x rest, files = [] ++ x :: rest /\ parent_name x = "train"%string)
      as (x & rest & Hfiles & Hx).
    { unfold files, glob_files, direct_files.
      destruct (List.filter is_file train) as [|e es] eqn:Hf.
      - exfalso. assert (File name ∈ List.filter is_file train) as Hin.
        { apply list_elem_of_In, filter_In. split; [by apply list_elem_of_In|done]. }
        rewrite Hf in Hin. by apply not_elem_of_nil in Hin.
      - simpl. eauto. }
    rewrite <- Hx. apply (Hkey [] x rest Hfiles); [constructor|].
    rewrite Hx. unfold class_names. rewrite class_names_Permutation.
    intros Hin. apply list_elem_of_fmap in Hin as (e & He & Hin).
    apply list_elem_of_In, filter_In in Hin as [Hin Hdir].
    destruct e as [|n children]; [done|]. simpl in He. subst n.
    apply (Hnodir children). by apply list_elem_of_In.
Qed.

(** X15.  The class ids follow the alphabetical order of the class
    directory names: when the names are distinct, the label of every
    training and validation file is the position of its parent folder's
    name in the sorted list of class names, and positions and names are
    ordered alike; a class thus has the same id in both sets. *)
Theorem load_data_ids_follow_name_order train val data swap_train_val s1 s2 num_classes :
  NoDup (map entry_name (List.filter is_dir train)) ->
  _load_data train val data swap_train_val = Loaded (s1, s2, num_classes) ->
  let class_names := class_names_of train in
  let train_set := if swap_train_val then s2 else s1 in
  let val_set := if swap_train_val then s1 else s2 in
  length class_names = num_classes
  /\ class_names ≡ₚ map entry_name (List.filter is_dir train)
  /\ (forall i j a b, class_names !! i = Some a -> class_names !! j = Some b ->
        (i < j <-> String.ltb a b = true))
  /\ (forall k x, glob_files (joinpath data "train") "train" train !! k = Some x ->
        fst train_set !! k = Some (file_path x)
        /\ exists i, snd train_set !! k = Some i /\ class_names !! i = Some (parent_name x))
  /\ (forall k x, glob_files (joinpath data "val") "val" val !! k = Some x ->
        fst val_set !! k = Some (file_path x)
        /\ exists i, snd val_set !! k = Some i /\ class_names !! i = Some (parent_name x)).
Proof.
  intros Hnodup H class_names train_set val_set. unfold _load_data in H.
  destruct (lookup_labels _ (glob_files (joinpath data "train") "train" train))
    as [y_train|] eqn:Ht; [|done].
  destruct (lookup_labels _ (glob_files (joinpath data "val") "val" val))
    as [y_val|] eqn:Hv; [|done].
  destruct (lookup_labels_ids _ _ _ Ht) as (_ & _ & Hidt).
  destruct (lookup_labels_ids _ _ _ Hv) as (_ & _ & Hidv).
  assert (length class_names = num_classes
          /\ train_set = (map file_path (glob_files (joinpath data "train") "train" train),
                          y_train)
          /\ val_set = (map file_path (glob_files (joinpath data "val") "val" val), y_val))
    as (Hnc & -> & ->).
  { unfold train_set, val_set. destruct swap_train_val; injection H as <- <- <-; done. }
  split; [done|]. split; [apply class_names_Permutation|].
  assert (NoDup class_names) as Hnd by (unfold class_names; by rewrite class_names_Permutation).
  assert (forall i j a b, class_names !! i = Some a -> class_names !! j = Some b ->
            i < j -> String.compare a b = Lt) as Hlt.
  { intros i j a b Hi Hj Hij.
    destruct (proj1 (name_le_spec a b)
                (StronglySorted_lookup name_le _ i j a b (class_names_sorted train) Hi Hj Hij))
      as [Hc| ->]; [done|].
    pose proof (NoDup_lookup _ _ _ _ Hnd Hi Hj). lia. }
  split; [|split].
  - intros i j a b Hi Hj. unfold String.ltb. split.
    + intros Hij. by rewrite (Hlt i j a b Hi Hj Hij).
    + intros Hab. destruct (String.compare a b) eqn:Hc; [done| |done].
      destruct (decide (i < j)) as [|Hge]; [done|]. exfalso.
      destruct (decide (i = j)) as [->|Hne].
      * rewrite Hi in Hj. injection Hj as ->. by rewrite string_compare_refl in Hc.
      * pose proof (Hlt j i b a Hj Hi ltac:(lia)) as Hba.
        rewrite String.compare_antisym, Hc in Hba. done.
  - intros k x Hk. cbn [fst snd]. split; [|by apply Hidt].
    change (map file_path ?l) with (file_path <$> l). by rewrite list_lookup_fmap, Hk.
  - intros k x Hk. cbn [fst snd]. split; [|by apply Hidv].
    change (map file_path ?l) with (file_path <$> l). by rewrite list_lookup_fmap, Hk.
Qed.

Lemma load_data_ids_follow_name_order_witness :
  exists s1 s2,
    _load_data train_demo val_demo "imagenette" true = Loaded (s1, s2, 2)
    /\ class_names_of train_demo = ["n01"; "n02"]%string
    /\ forall i j a b, class_names_of train_demo !! i = Some a ->
         class_names_of train_demo !! j = Some b -> (i < j <-> String.ltb a b = true).
Proof.
  eexists _, _. split; [vm_compute; reflexivity|]. split; [vm_compute; reflexivity|].
  eapply (load_data_ids_follow_name_order train_demo val_demo "imagenette" true).
  - vm_compute. repeat constructor; intros Hin; repeat (apply elem_of_cons in Hin as [Hin|Hin]; [done|]);
      by apply not_elem_of_nil in Hin.
  - vm_compute. reflexivity.
Defined.


(** * The network builds *)

(** A residual block keeps a feature map that already has [filters]
    channels, and refuses any other. *)
Lemma blocks_loop_shape filters count h w c :
  _blocks_loop filters (S count) (h, w, c)
  = if decide (c = filters) then Some (h, w, filters) else None.
Proof.
  assert (forall x, (x + 1 - 1) / 1 = x) as Hone by (intros x; rewrite Nat.div_1_r; lia).
  assert (forall n, _blocks_loop filters n (h, w, filters) = Some (h, w, filters)) as Hkeep.
  { induction n as [|n IH]; [done|]. cbn [_blocks_loop].
    unfold _conv2d, _bn_act, Conv2D, layers_add.
    rewrite !Hone. rewrite decide_True by done. exact IH. }
  destruct (decide (c = filters)) as [->|Hne]; [apply Hkeep|].
  cbn [_blocks_loop]. unfold _conv2d, _bn_act, Conv2D, layers_add.
  rewrite decide_False; [done|]. intros [= _ _ Hc]. done.
Qed.

(** Halving, rounding up, a length already divided by [k], rounding up. *)
Lemma halve_again x k a b k2 :
  1 <= k -> a = k - 1 -> b = 2 * k - 1 -> k2 = 2 * k ->
  ((x + a) / k + 1) / 2 = (x + b) / k2.
Proof.
  intros Hk -> -> ->.
  replace ((x + (k - 1)) / k + 1) with ((x + (k - 1) + 1 * k) / k)
    by (rewrite Nat.div_add by lia; lia).
  rewrite Nat.Div0.div_div. f_equal; lia.
Qed.

(** X16.  The network builds for every input size, channel count and
    class count: no residual addition meets mismatched shapes.  The five
    stages halve the height and the width, rounding up, with 64, 128, 256,
    512 and 512 channels, and the output has [num_classes] entries; on the
    331 x 331 input of [_main] the feature maps are 166, 83, 42, 21 and 11
    wide, as the comments of the code say. *)
Theorem create_network_shapes h w c num_classes :
  _create_network (h, w, c) num_classes
  = Some ([ ((h + 1) / 2, (w + 1) / 2, 64);
            ((h + 3) / 4, (w + 3) / 4, 128);
            ((h + 7) / 8, (w + 7) / 8, 256);
            ((h + 15) / 16, (w + 15) / 16, 512);
            ((h + 31) / 32, (w + 31) / 32, 512) ], num_classes)
  /\ (h = 331 -> w = 331 ->
      exists maps, _create_network (h, w, c) num_classes = Some (maps, num_classes)
                   /\ map (fun s : shape => fst (fst s)) maps = [166; 83; 42; 21; 11]
                   /\ map (fun s : shape => snd (fst s)) maps = [166; 83; 42; 21; 11]).
Proof.
  assert (_create_network (h, w, c) num_classes
          = Some ([ ((h + 1) / 2, (w + 1) / 2, 64);
                    ((h + 3) / 4, (w + 3) / 4, 128);
                    ((h + 7) / 8, (w + 7) / 8, 256);
                    ((h + 15) / 16, (w + 15) / 16, 512);
                    ((h + 31) / 32, (w + 31) / 32, 512) ], num_classes)) as Heq.
  { unfold _create_network, _blocks, _conv2d, _bn_act.
    cbn [Conv2D]. rewrite !blocks_loop_shape. rewrite !decide_True by done.
    cbn [option_map Conv2D]. rewrite !blocks_loop_shape. rewrite !decide_True by done.
    cbn [option_map Conv2D]. rewrite !blocks_loop_shape. rewrite !decide_True by done.
    cbn [option_map Conv2D]. rewrite !blocks_loop_shape. rewrite !decide_True by done.
    cbn [option_map GlobalAveragePooling2D Dense].
    assert (forall x, (x + 2 - 1) / 2 = (x + 1) / 2) as E1 by (intros x; f_equal; lia).
    rewrite !E1.
    rewrite !(halve_again h 2 1 3 4), !(halve_again w 2 1 3 4) by lia.
    rewrite !(halve_again h 4 3 7 8), !(halve_again w 4 3 7 8) by lia.
    rewrite !(halve_again h 8 7 15 16), !(halve_again w 8 7 15 16) by lia.
    rewrite !(halve_again h 16 15 31 32), !(halve_again w 16 15 31 32) by lia.
    done. }
  split; [exact Heq|].
  intros -> ->. eexists. split; [exact Heq|]. done.
Qed.


(** * The learning-rate schedule *)

(** The angle of the schedule lies in (0, pi] and grows with the epoch. *)
Lemma annealing_angle epochs ep ep' :
  ep <= ep' -> ep' < epochs ->
  (0 < PI * (INR ep + 1) / INR epochs
   /\ PI * (INR ep + 1) / INR epochs <= PI * (INR ep' + 1) / INR epochs
   /\ PI * (INR ep' + 1) / INR epochs <= PI)%R.
Proof.
  intros Hle Hlt.
  pose proof PI_RGT_0 as Hpi.
  assert (0 < INR epochs)%R as He by (apply lt_0_INR; lia).
  assert (0 <= INR ep)%R as H0 by apply pos_INR.
  assert (INR ep <= INR ep')%R as H1 by (apply le_INR; lia).
  assert (INR ep' + 1 <= INR epochs)%R as H2.
  { rewrite <- S_INR. apply le_INR. lia. }
  assert (forall a b, 0 <= a -> a <= b ->
            PI * a / INR epochs <= PI * b / INR epochs)%R as Hmono.
  { intros a b Ha Hab. unfold Rdiv. apply Rmult_le_compat_r.
    - left. by apply Rinv_0_lt_compat.
    - apply Rmult_le_compat_l; lra. }
  split; [|split].
  - unfold Rdiv. apply Rmult_lt_0_compat; [|by apply Rinv_0_lt_compat].
    apply Rmult_lt_0_compat; lra.
  - apply Hmono; lra.
  - replace PI with (PI * INR epochs / INR epochs)%R at 2 by (field; lra).
    apply Hmono; lra.
Qed.

(** X17.  For a non-negative base rate the schedule stays between
    [0.01 * base_lr] and [base_lr] on every epoch [0 <= ep < epochs],
    never grows from one epoch to a later one, reaches exactly
    [0.01 * base_lr] on the last epoch, and, for a positive base rate,
    lies strictly below [base_lr] already on the first epoch; the rate
    Keras passes in is ignored. *)
Theorem cosine_annealing_schedule (base_lr : R) (epochs ep : nat) (lr : R) :
  (0 <= base_lr)%R -> ep < epochs ->
  (base_lr * (1 / 100) <= _cosine_annealing base_lr epochs ep lr <= base_lr)%R
  /\ (forall ep' lr', ep <= ep' -> ep' < epochs ->
        (_cosine_annealing base_lr epochs ep' lr' <= _cosine_annealing base_lr epochs ep lr)%R)
  /\ (ep + 1 = epochs -> _cosine_annealing base_lr epochs ep lr = (base_lr * (1 / 100))%R)
  /\ ((0 < base_lr)%R -> (_cosine_annealing base_lr epochs ep lr < base_lr)%R).
Proof.
  intros Hb Hep. unfold _cosine_annealing.
  pose proof PI_RGT_0 as HPI.
  destruct (annealing_angle epochs ep ep (le_n _) Hep) as (Hpos & _ & Hpi).
  pose proof (COS_bound (PI * (INR ep + 1) / INR epochs)) as [Hlo Hhi].
  assert (cos (PI * (INR ep + 1) / INR epochs) < 1)%R as Hstrict.
  { apply Rlt_le_trans with (cos 0); [|rewrite cos_0; lra].
    apply cos_decreasing_1; lra. }
  assert (forall ep', ep <= ep' -> ep' < epochs ->
            (cos (PI * (INR ep' + 1) / INR epochs)
             <= cos (PI * (INR ep + 1) / INR epochs))%R) as Hmono.
  { intros ep' Hle Hlt.
    destruct (annealing_angle epochs ep ep' Hle Hlt) as (Hpos' & Hm & Hpi').
    apply cos_decr_1; lra. }
  assert (ep + 1 = epochs -> cos (PI * (INR ep + 1) / INR epochs) = (-1)%R) as Hlast.
  { intros <-. rewrite plus_INR. simpl INR.
    replace (PI * (INR ep + 1) / (INR ep + 1))%R with PI; [apply cos_PI|].
    field. pose proof (pos_INR ep). lra. }
  set (c := cos (PI * (INR ep + 1) / INR epochs)) in *. clearbody c.
  split; [split; nra|]. split; [|split].
  - intros ep' lr' Hle Hlt. specialize (Hmono ep' Hle Hlt).
    set (c' := cos (PI * (INR ep' + 1) / INR epochs)) in *. clearbody c'. nra.
  - intros Hl. rewrite (Hlast Hl). lra.
  - intros Hb'. nra.
Qed.

Lemma cosine_annealing_schedule_witness :
  (base_lr_of 16 1 * (1 / 100) <= _cosine_annealing (base_lr_of 16 1) 1800 0 0
   <= base_lr_of 16 1)%R.
Proof.
  apply (cosine_annealing_schedule (base_lr_of 16 1) 1800 0 0).
  - unfold base_lr_of. simpl. lra.
  - lia.
Defined.


(** * The primary class carries the larger share of a mixed label *)

Lemma pow2_succ m : (2 ^ (m + 1) == 2 * 2 ^ m)%Q.
Proof. rewrite Qpower_plus by discriminate. change (2 ^ 1)%Q with 2%Q. ring. Qed.

Lemma Qlog2_le x m : (0 < x)%Q -> (x <= 2 ^ m)%Q -> (Qlog2 x <= m)%Z.
Proof.
  intros Hx Hm.
  destruct (Qlog2_spec x) as [Hlo _]; [lra|].
  rewrite (Qabs_pos x) in Hlo by lra.
  destruct (Z_le_gt_dec (Qlog2 x) m) as [|Hgt]; [done|]. exfalso.
  pose proof (pow2_mono (m + 1) (Qlog2 x) ltac:(lia)) as Hmono.
  rewrite pow2_succ in Hmono. pose proof (pow2_pos m). lra.
Qed.

(** Rounding to float32 does not cross a power of two that the float
    format holds at the precision of the operand. *)
Lemma fl32_pow2_bounds x m :
  (0 < x)%Q -> (Z.max (Qlog2 x - 24 + 1) (-149) <= m)%Z ->
  ((x <= 2 ^ m)%Q -> (fl32 x <= 2 ^ m)%Q) /\ ((2 ^ m <= x)%Q -> (2 ^ m <= fl32 x)%Q).
Proof.
  intros Hx He. unfold fl32, round_float.
  assert (Qeq_bool x 0 = false) as ->.
  { apply not_true_is_false. rewrite Qeq_bool_iff. lra. }
  set (e := Z.max (Qlog2 x - 24 + 1) (-149)) in *.
  pose proof (pow2_pos e) as Hpe.
  assert (2 ^ m == inject_Z (2 ^ (m - e)) * 2 ^ e)%Q as Hm.
  { rewrite <- pow2_Z by lia. rewrite <- Qpower_plus by discriminate.
    by replace (m - e + e)%Z with m by lia. }
  assert (x == (x / 2 ^ e) * 2 ^ e)%Q as Hxe by (field; lra).
  set (q := (x / 2 ^ e)%Q) in *. set (k := (2 ^ (m - e))%Z) in *.
  split; intros Hle; rewrite Hm in *.
  - assert (q <= inject_Z k)%Q as Hq.
    { apply Qmult_le_r with (2 ^ e)%Q; [done|]. by rewrite <- Hxe. }
    apply Zrne_mono in Hq. rewrite Zrne_Z in Hq.
    apply Qmult_le_compat_r; [|lra]. by rewrite <- Zle_Qle.
  - assert (inject_Z k <= q)%Q as Hq.
    { apply Qmult_le_r with (2 ^ e)%Q; [done|]. by rewrite <- Hxe. }
    apply Zrne_mono in Hq. rewrite Zrne_Z in Hq.
    apply Qmult_le_compat_r; [|lra]. by rewrite <- Zle_Qle.
Qed.

Lemma fl32_nonneg x : (0 <= x)%Q -> (0 <= fl32 x)%Q.
Proof.
  intros Hx. unfold fl32, round_float. destruct (Qeq_bool x 0); [lra|].
  set (e := Z.max (Qlog2 x - 24 + 1) (-149)).
  pose proof (pow2_pos e) as Hpe.
  assert (inject_Z 0 <= x / 2 ^ e)%Q as Hq.
  { change (inject_Z 0) with 0%Q. apply Qle_shift_div_l; [done|]. lra. }
  apply Zrne_mono in Hq. rewrite Zrne_Z in Hq.
  apply Qmult_le_0_compat; [|lra]. change 0%Q with (inject_Z 0). by rewrite <- Zle_Qle.
Qed.

(** Values of [1/2, 1] round into [1/2, 1]; values of [0, 1/2] into
    [0, 1/2]. *)
Lemma fl32_upper_half x : (1 # 2 <= x <= 1)%Q -> (1 # 2 <= fl32 x <= 1)%Q.
Proof.
  intros [Hlo Hhi].
  assert (Qlog2 x <= 0)%Z as Hl by (apply Qlog2_le; [lra|exact Hhi]).
  split.
  - apply (proj2 (fl32_pow2_bounds x (-1) ltac:(lra) ltac:(lia))). exact Hlo.
  - apply (proj1 (fl32_pow2_bounds x 0 ltac:(lra) ltac:(lia))). exact Hhi.
Qed.

Lemma fl32_lower_half x : (0 <= x <= 1 # 2)%Q -> (0 <= fl32 x <= 1 # 2)%Q.
Proof.
  intros [Hlo Hhi]. split; [by apply fl32_nonneg|].
  destruct (Qeq_dec x 0) as [Hz|Hnz]; [rewrite (fl32_zero x Hz); lra|].
  assert (0 < x)%Q as Hx by lra.
  assert (Qlog2 x <= -1)%Z as Hl by (apply Qlog2_le; [lra|exact Hhi]).
  apply (proj1 (fl32_pow2_bounds x (-1) Hx ltac:(lia))). exact Hhi.
Qed.

Lemma mix_value32_shares r :
  (1 # 2 <= r)%Q -> (r < 1)%Q ->
  (1 # 2 <= mix_value32 r 1 0 <= 1)%Q /\ (0 <= mix_value32 r 0 1 <= 1 # 2)%Q.
Proof.
  intros Hlo Hhi. unfold mix_value32.
  rewrite (fl32_zero (0 * fl32 r)) by ring.
  rewrite (fl32_zero (0 * fl32 (1 - r))) by ring.
  split.
  - pose proof (fl32_upper_half r ltac:(lra)) as H1.
    pose proof (fl32_upper_half (1 * fl32 r) ltac:(lra)) as H2.
    pose proof (fl32_upper_half (fl32 (1 * fl32 r) + 0) ltac:(lra)) as H3.
    apply fl32_upper_half. exact H3.
  - pose proof (fl32_lower_half (1 - r) ltac:(lra)) as H1.
    pose proof (fl32_lower_half (1 * fl32 (1 - r)) ltac:(lra)) as H2.
    pose proof (fl32_lower_half (0 + fl32 (1 * fl32 (1 - r))) ltac:(lra)) as H3.
    apply fl32_lower_half. exact H3.
Qed.

Lemma onehot_lookup index n k :
  k < n -> onehot index n !! k = Some (if decide (k = index) then 1%Q else 0%Q).
Proof.
  intros Hk. unfold onehot. destruct (decide (k = index)) as [->|Hne].
  - apply list_lookup_insert_eq. by rewrite length_replicate.
  - etrans; [apply list_lookup_insert_ne; congruence|]. by apply lookup_replicate_2.
Qed.

(** X18.  In the label of a training sample the class of the primary
    image carries a share of [1/2, 1] and every other class a share of
    [0, 1/2], float32 rounding included: the largest entry of a mixed
    label is always at the primary's class. *)
Theorem primary_class_dominates prim fs fuel X y a1 a2 num_classes index g X_out c g' :
  _generate_instance prim fs fuel X y a1 a2 num_classes true index g = Ok ((X_out, c), g') ->
  exists y_i p,
    y !! index = Some y_i /\ c !! y_i = Some p /\ (1 # 2 <= p <= 1)%Q /\
    forall k q, k <> y_i -> c !! k = Some q -> (0 <= q <= 1 # 2)%Q /\ (q <= p)%Q.
Proof.
  intros Hrun.
  destruct (training_label_form _ _ _ _ _ _ _ _ _ _ _ _ _ Hrun)
    as (y_i & t & y_t & r & Hy & Hyt & Hne & Hi & Ht & Hlo & Hhi & ->).
  destruct (mix_value32_shares r Hlo Hhi) as [Hp Hq].
  assert (forall k, k < num_classes ->
            zip_with (mix_value32 r) (onehot y_i num_classes) (onehot y_t num_classes) !! k
            = Some (mix_value32 r (if decide (k = y_i) then 1 else 0)
                                  (if decide (k = y_t) then 1 else 0))%Q) as Hlook.
  { intros k Hk. by rewrite lookup_zip_with, !onehot_lookup by done. }
  exists y_i, (mix_value32 r 1 0). split; [done|]. split.
  { rewrite Hlook by done. rewrite decide_True by done. by rewrite decide_False. }
  split; [done|].
  intros k q Hk Hq'.
  assert (k < num_classes) as Hlt.
  { apply lookup_lt_Some in Hq'. rewrite length_zip_with in Hq'. unfold onehot in Hq'.
    rewrite !length_insert, !length_replicate in Hq'. lia. }
  rewrite Hlook in Hq' by done. rewrite decide_False in Hq' by done.
  injection Hq' as <-.
  destruct (decide (k = y_t)); [lra|]. rewrite mix_value32_00. lra.
Qed.

Lemma primary_class_dominates_witness :
  exists c, label_rows
    (match _generate_instance prim_fill fs_demo 5 X_demo y_demo
             (A_Resize_apply prim_fill 2 2) (aug2 true) 2 true 1 rng_demo with
     | Ok (s, g') => Ok (([fst s], [snd s]), g')
     | Raise e => Raise e
     | Hang => Hang
     end) = Some [c] /\
    exists p, c !! 1 = Some p /\ (1 # 2 <= p <= 1)%Q.
Proof.
  destruct (_generate_instance prim_fill fs_demo 5 X_demo y_demo
              (A_Resize_apply prim_fill 2 2) (aug2 true) 2 true 1 rng_demo)
    as [[[X_out c] g']|e|] eqn:Hrun; [|by vm_compute in Hrun..].
  exists c. split; [done|].
  destruct (primary_class_dominates _ _ _ _ _ _ _ _ _ _ _ _ _ Hrun)
    as (y_i & p & Hy & Hc & Hp & _).
  injection Hy as <-. eauto.
Defined.


(** * [MixFeat]: the custom gradient is the adjoint of the forward map *)

Lemma invert_fold_spec (l : list nat) (y0 : list nat) :
  NoDup l -> Forall (fun v => v < length y0) l ->
  let y := fold_left (fun y '(i, v) => <[v := i]> y) (imap (fun i v => (i, v)) l) y0 in
  length y = length y0 /\ forall i v, l !! i = Some v -> y !! v = Some i.
Proof.
  induction l as [|v l IH] using rev_ind; intros Hnd Hlt; cbv zeta.
  - split; [done|]. intros i v Hi. by rewrite lookup_nil in Hi.
  - apply NoDup_app in Hnd as (Hnd & Hv & _).
    apply Forall_app in Hlt as [Hlt Hvlt]. rewrite Forall_singleton in Hvlt.
    destruct (IH Hnd Hlt) as [Hlen Hspec].
    rewrite imap_app, fold_left_app. cbn [imap fold_left]. rewrite Nat.add_0_r.
    split; [by rewrite length_insert|].
    intros i w Hi. apply lookup_app_Some in Hi as [Hi|[Hge Hi]].
    + etrans; [apply list_lookup_insert_ne|by apply Hspec].
      intros Heq. subst w.
      eapply Hv; [by eapply list_elem_of_lookup_2|by apply list_elem_of_singleton].
    + apply list_lookup_singleton_Some in Hi as [Hi <-].
      replace i with (length l) by lia.
      apply list_lookup_insert_eq. by rewrite Hlen.
Qed.

Lemma invert_permutation_spec n indices :
  indices ≡ₚ seq 0 n ->
  length (invert_permutation indices) = n /\
  forall i j, invert_permutation indices !! j = Some i <-> indices !! i = Some j.
Proof.
  intros Hp.
  assert (length indices = n) as Hn by (by rewrite Hp, length_seq).
  assert (NoDup indices) as Hnd by (rewrite Hp; apply NoDup_seq).
  assert (Forall (fun v => v < length (replicate (length indices) 0)) indices) as Hlt.
  { rewrite length_replicate, Hn. apply Forall_forall. intros v Hv.
    rewrite Hp in Hv. apply elem_of_seq in Hv. lia. }
  destruct (invert_fold_spec indices (replicate (length indices) 0) Hnd Hlt) as [Hlen Hspec].
  fold (invert_permutation indices) in Hlen, Hspec.
  rewrite length_replicate, Hn in Hlen.
  split; [done|]. intros i j. split; [|apply Hspec].
  intros Hj.
  assert (j ∈ indices) as Hin.
  { rewrite Hp. apply elem_of_seq. apply lookup_lt_Some in Hj. lia. }
  apply list_elem_of_lookup in Hin as [i' Hi'].
  pose proof (Hspec i' j Hi') as Hj'. congruence.
Qed.

(** The pairs [(indices[i], i)] are the pairs [(j, inv[j])] in another
    order. *)
Lemma invert_permutation_pairs n indices :
  indices ≡ₚ seq 0 n ->
  zip indices (seq 0 n) ≡ₚ zip (seq 0 n) (invert_permutation indices).
Proof.
  intros Hp. destruct (invert_permutation_spec n indices Hp) as [Hlen Hspec].
  assert (length indices = n) as Hn by (by rewrite Hp, length_seq).
  apply NoDup_Permutation.
  - apply (NoDup_fmap_1 snd). rewrite snd_zip by (rewrite length_seq; lia).
    apply NoDup_seq.
  - apply (NoDup_fmap_1 fst). rewrite fst_zip by (rewrite length_seq; lia).
    apply NoDup_seq.
  - intros [j i]. rewrite !list_elem_of_lookup. split; intros [p Hp'].
    + apply lookup_zip_with_Some in Hp' as (j' & i' & [= -> ->] & Hj & Hi).
      apply lookup_seq in Hi as [-> Hlt]. simpl in Hj.
      exists j'. apply lookup_zip_with_Some. exists j', p. split; [done|]. split.
      * apply lookup_seq. split; [done|].
        assert (j' ∈ seq 0 n) as Hin by (rewrite <- Hp; by eapply list_elem_of_lookup_2).
        apply elem_of_seq in Hin. lia.
      * by apply Hspec.
    + apply lookup_zip_with_Some in Hp' as (j' & i' & [= -> ->] & Hj & Hi).
      apply lookup_seq in Hj as [-> Hlt]. simpl in Hi.
      apply Hspec in Hi.
      exists i'. apply lookup_zip_with_Some. exists p, i'. split; [done|]. split; [done|].
      apply lookup_seq. split; [done|]. apply lookup_lt_Some in Hi. lia.
Qed.

Lemma gather_Some {A} (x : list A) indices :
  Forall (fun i => i < length x) indices ->
  exists xg, gather x indices = Some xg /\ length xg = length indices /\
    forall p i, indices !! p = Some i -> xg !! p = x !! i.
Proof.
  intros Hlt. unfold gather.
  destruct (mapM (fun i => x !! i) indices) as [xg|] eqn:Hm.
  - exists xg. split; [done|]. apply mapM_Some in Hm.
    split; [symmetry; by eapply Forall2_length|].
    intros p i Hp. destruct (Forall2_lookup_l _ _ _ _ _ Hm Hp) as (r & Hr & Hx). congruence.
  - exfalso. apply mapM_None in Hm. apply Exists_exists in Hm as (i & Hi & Hnone).
    apply (proj1 (Forall_forall _ _) Hlt) in Hi. apply lookup_ge_None in Hnone. lia.
Qed.

(** ** Sums *)

Lemma Rsum_Permutation l l' : l ≡ₚ l' -> Rsum l = Rsum l'.
Proof.
  induction 1 as [|a l l' _ IH|a b l|l1 l2 l3 _ IH1 _ IH2]; simpl.
  - done.
  - by rewrite IH.
  - lra.
  - congruence.
Qed.

Lemma vdot_mix_row_l a : forall b u v w,
  length b = length a -> length u = length a -> length v = length a -> length w = length a ->
  vdot (mix_row a b u v) w
  = (vdot (zip_with Rmult u a) w + vdot (zip_with Rmult v b) w)%R.
Proof.
  unfold vdot, mix_row.
  induction a as [|a0 a IH]; intros [|b0 b] [|u0 u] [|v0 v] [|w0 w] Hb Hu Hv Hw;
    simpl in *; try lia; [lra|].
  rewrite IH by lia. lra.
Qed.

Lemma vdot_mix_row_r a : forall b u v w,
  length b = length a -> length u = length a -> length v = length a -> length w = length a ->
  vdot u (mix_row a b w v)
  = (vdot (zip_with Rmult u a) w + vdot (zip_with Rmult u b) v)%R.
Proof.
  unfold vdot, mix_row.
  induction a as [|a0 a IH]; intros [|b0 b] [|u0 u] [|v0 v] [|w0 w] Hb Hu Hv Hw;
    simpl in *; try lia; [lra|].
  rewrite IH by lia. lra.
Qed.

Lemma vdot_nil_r u : vdot u [] = 0%R.
Proof. unfold vdot. by destruct u. Qed.

Section MixFeatSums.
Variables (a b : list R) (m : nat).
Hypothesis length_a : length a = m.
Hypothesis length_b : length b = m.

Lemma tdot_mix_l : forall x xg dy : tensor,
  length xg = length x -> length dy = length x ->
  Forall (fun row : list R => length row = m) x ->
  Forall (fun row : list R => length row = m) xg ->
  Forall (fun row : list R => length row = m) dy ->
  tdot (zip_with (mix_row a b) x xg) dy
  = (Rsum (zip_with (fun u w => vdot (zip_with Rmult u a) w) x dy)
     + Rsum (zip_with (fun v w => vdot (zip_with Rmult v b) w) xg dy))%R.
Proof.
  unfold tdot.
  induction x as [|u x IH]; intros [|v xg] [|w dy] Hg Hd Hx Hxg Hdy; simpl in *;
    try lia; [lra|].
  apply Forall_cons in Hx as [Hu Hx]. apply Forall_cons in Hxg as [Hv Hxg].
  apply Forall_cons in Hdy as [Hw Hdy].
  rewrite IH by (done || lia). rewrite vdot_mix_row_l by congruence. lra.
Qed.

Lemma tdot_mix_r : forall x dy dg : tensor,
  length dy = length x -> length dg = length x ->
  Forall (fun row : list R => length row = m) x ->
  Forall (fun row : list R => length row = m) dy ->
  Forall (fun row : list R => length row = m) dg ->
  tdot x (zip_with (mix_row a b) dy dg)
  = (Rsum (zip_with (fun u w => vdot (zip_with Rmult u a) w) x dy)
     + Rsum (zip_with (fun u v => vdot (zip_with Rmult u b) v) x dg))%R.
Proof.
  unfold tdot.
  induction x as [|u x IH]; intros [|w dy] [|v dg] Hd Hg Hx Hdy Hdg; simpl in *;
    try lia; [lra|].
  apply Forall_cons in Hx as [Hu Hx]. apply Forall_cons in Hdy as [Hw Hdy].
  apply Forall_cons in Hdg as [Hv Hdg].
  rewrite IH by (done || lia). rewrite vdot_mix_row_r by congruence. lra.
Qed.

End MixFeatSums.

(** A sum over the rows gathered on one side is the sum over the index
    pairs. *)
Lemma zip_with_by_pairs (F : list R -> list R -> R) (x dy : tensor) (js is_ : list nat)
    (xs ds : tensor) :
  length js = length is_ ->
  length xs = length js -> length ds = length js ->
  (forall p j, js !! p = Some j -> xs !! p = x !! j) ->
  (forall p i, is_ !! p = Some i -> ds !! p = dy !! i) ->
  Forall (fun j => j < length x) js -> Forall (fun i => i < length dy) is_ ->
  zip_with F xs ds = (fun '(j, i) => F (x !!! j) (dy !!! i)) <$> zip js is_.
Proof.
  unfold tensor in *. intros Hl Hxs Hds Hx Hd Hjs His. apply list_eq. intros p.
  rewrite list_lookup_fmap, !lookup_zip_with.
  destruct (js !! p) as [j|] eqn:Hj.
  - destruct (is_ !! p) as [i|] eqn:Hi.
    + rewrite (Hx p j Hj), (Hd p i Hi).
      destruct (lookup_lt_is_Some_2 x j) as [u Hu];
        [by apply (Forall_lookup_1 _ _ _ _ Hjs Hj)|].
      destruct (lookup_lt_is_Some_2 dy i) as [w Hw];
        [by apply (Forall_lookup_1 _ _ _ _ His Hi)|].
      rewrite Hu, Hw. simpl.
      by rewrite (list_lookup_total_correct _ _ _ Hu), (list_lookup_total_correct _ _ _ Hw).
    + apply lookup_lt_Some in Hj. apply lookup_ge_None in Hi. lia.
  - simpl. apply lookup_ge_None in Hj.
    rewrite (lookup_ge_None_2 xs p) by lia. done.
Qed.

(** X19.  The gradient [MixFeat] declares for its forward map is the
    exact one: for a shuffle [indices] of the batch and coefficients [a],
    [b] with one value per feature, [<_forward x, dy> = <x, _backword dy>]
    for all batches [x] and [dy] of the same shape, so [_backword] is the
    adjoint (the transposed Jacobian) of [_forward]; both keep the batch
    size and never fail on a shuffle. *)
Theorem MixFeat_gradient_is_adjoint (n m : nat) (indices : list nat) (a b : list R)
    (x dy : tensor) :
  indices ≡ₚ seq 0 n ->
  length a = m -> length b = m ->
  length x = n -> length dy = n ->
  Forall (fun row : list R => length row = m) x ->
  Forall (fun row : list R => length row = m) dy ->
  exists y dx,
    _forward indices a b x = Some y /\ _backword indices a b dy = Some dx /\
    length y = n /\ length dx = n /\
    tdot y dy = tdot x dx.
Proof.
  intros Hp Ha Hb Hx Hdy Hrx Hrdy.
  destruct (invert_permutation_spec n indices Hp) as [Hinv Hspec].
  assert (length indices = n) as Hn by (by rewrite Hp, length_seq).
  assert (Forall (fun i => i < n) indices) as Hlt.
  { apply Forall_forall. intros v Hv. rewrite Hp in Hv. apply elem_of_seq in Hv. lia. }
  assert (Forall (fun i => i < n) (invert_permutation indices)) as Hlti.
  { apply Forall_forall. intros i Hi. apply list_elem_of_lookup in Hi as [j Hj].
    apply Hspec in Hj. apply lookup_lt_Some in Hj. lia. }
  destruct (gather_Some x indices) as (xg & Hxg & Hlxg & Hgx); [by rewrite Hx|].
  destruct (gather_Some dy (invert_permutation indices)) as (dg & Hdg & Hldg & Hgd);
    [by rewrite Hdy|].
  unfold _forward, _backword. rewrite Hxg, Hdg.
  eexists _, _. split; [done|]. split; [done|].
  split; [rewrite length_zip_with; lia|]. split; [rewrite length_zip_with; lia|].
  assert (Forall (fun row : list R => length row = m) xg) as Hrxg.
  { apply Forall_lookup. intros p row Hrow.
    destruct (lookup_lt_is_Some_2 indices p) as [j Hj];
      [apply lookup_lt_Some in Hrow; lia|].
    rewrite (Hgx p j Hj) in Hrow. by apply (Forall_lookup_1 _ _ _ _ Hrx Hrow). }
  assert (Forall (fun row : list R => length row = m) dg) as Hrdg.
  { apply Forall_lookup. intros p row Hrow.
    destruct (lookup_lt_is_Some_2 (invert_permutation indices) p) as [i Hi];
      [apply lookup_lt_Some in Hrow; lia|].
    rewrite (Hgd p i Hi) in Hrow. by apply (Forall_lookup_1 _ _ _ _ Hrdy Hrow). }
  rewrite (tdot_mix_l a b m Ha Hb x xg dy) by (done || lia).
  rewrite (tdot_mix_r a b m Ha Hb x dy dg) by (done || lia).
  f_equal.
  set (F := fun v w : list R => vdot (zip_with Rmult v b) w).
  rewrite (zip_with_by_pairs F x dy indices (seq 0 n) xg dy).
  - rewrite (zip_with_by_pairs F x dy (seq 0 n) (invert_permutation indices) x dg).
    + apply Rsum_Permutation, fmap_Permutation. by apply invert_permutation_pairs.
    + rewrite length_seq. lia.
    + by rewrite length_seq.
    + rewrite length_seq. lia.
    + intros p j Hj. apply lookup_seq in Hj as [-> _]. done.
    + exact Hgd.
    + rewrite Hx. apply Forall_forall. intros j Hj. apply elem_of_seq in Hj. lia.
    + by rewrite Hdy.
  - rewrite length_seq. lia.
  - lia.
  - lia.
  - exact Hgx.
  - intros p i Hi. apply lookup_seq in Hi as [-> _]. done.
  - by rewrite Hx.
  - rewrite Hdy. apply Forall_forall. intros j Hj. apply elem_of_seq in Hj. lia.
Qed.

Lemma MixFeat_gradient_is_adjoint_witness :
  exists y dx,
    _forward [2; 0; 1] [2; 3]%R [1; -1]%R [[1; 2]; [3; 4]; [5; 6]]%R = Some y /\
    _backword [2; 0; 1] [2; 3]%R [1; -1]%R [[1; 0]; [0; 1]; [1; 1]]%R = Some dx /\
    length y = 3 /\ length dx = 3 /\
    tdot y [[1; 0]; [0; 1]; [1; 1]]%R = tdot [[1; 2]; [3; 4]; [5; 6]]%R dx.
Proof.
  apply (MixFeat_gradient_is_adjoint 3 2); try reflexivity.
  - change (seq 0 3) with [0; 1; 2].
    etrans; [apply Permutation_swap|]. apply perm_skip, Permutation_swap.
  - repeat constructor.
  - repeat constructor.
Defined.


(** * One epoch of training on a single worker *)

Lemma steps_per_epoch_1 n batch_size : steps_per_epoch n batch_size 1 = steps n batch_size.
Proof.
  unfold steps_per_epoch, steps. f_equal. apply Qceiling_comp.
  change (inject_Z (Z.of_nat 1)) with 1%Q. unfold Qdiv. change (/ 1)%Q with 1%Q. ring.
Qed.

(** X20.  On a single worker ([hvd.size() = 1]) the first epoch of
    training, [ceil(N / batch_size)] batches of the shuffled generator,
    takes every training file as the primary sample of some row, and draws
    fewer than [batch_size] further primaries from the next shuffle. *)
Theorem first_epoch_sees_every_file N batch_size fuel g :
  1 <= N -> 1 <= batch_size -> batch_size + 1 <= fuel ->
  exists ls st' g',
    shuffled_batch_indices fuel batch_size (steps_per_epoch N batch_size 1)
      (_generate_shuffled_indices N) g = Ok (ls, st', g')
    /\ length ls = steps_per_epoch N batch_size 1
    /\ (forall i, i < N -> i ∈ concat ls)
    /\ N <= length (concat ls) < N + batch_size.
Proof.
  intros HN HB Hfuel. rewrite steps_per_epoch_1.
  destruct (steps_spec N batch_size HB) as (Hs1 & Hs2 & _). specialize (Hs2 HN).
  set (count := steps N batch_size) in *.
  assert (stream_inv N (_generate_shuffled_indices N)) as Hinv
    by (unfold stream_inv; simpl; reflexivity).
  destruct (shuffled_batch_indices_take N 2 fuel batch_size count
              (_generate_shuffled_indices N) g HN ltac:(lia) HB Hfuel Hinv)
    as (l & st' & g' & Htake & Hbatches & Hl).
  destruct (indices_take_fresh_rounds N 2 (count * batch_size) g HN ltac:(lia))
    as (l' & st'' & g'' & Htake' & Hrounds).
  rewrite Htake in Htake'. injection Htake' as <- <- <-.
  assert (concat (map (fun j => take batch_size (drop (j * batch_size) l)) (seq 0 count)) = l)
    as Hcat by (apply concat_chunks; lia).
  eexists _, st', g'. split; [exact Hbatches|].
  split; [by rewrite length_map, length_seq|]. rewrite Hcat. split.
  - intros i Hi. specialize (Hrounds 0 ltac:(lia)). simpl in Hrounds.
    rewrite drop_0 in Hrounds.
    assert (i ∈ take N l) as Hin by (rewrite Hrounds; apply elem_of_seq; lia).
    by apply (subseteq_take N l).
  - rewrite Hl. assert (1 <= count) by (destruct count; simpl in *; lia). nia.
Qed.

Lemma first_epoch_sees_every_file_witness :
  exists ls st' g',
    shuffled_batch_indices 17 16 (steps_per_epoch 40 16 1)
      (_generate_shuffled_indices 40) rng_demo = Ok (ls, st', g')
    /\ length ls = steps_per_epoch 40 16 1
    /\ (forall i, i < 40 -> i ∈ concat ls)
    /\ 40 <= length (concat ls) < 40 + 16.
Proof. apply (first_epoch_sees_every_file 40 16 17 rng_demo); lia. Defined.
